(** * queuectl: a durable job queue with workers, retries and a dead-letter queue

    A shallow embedding of the engine of queuectl (storage.py, worker.py,
    cli.py) and the properties of its claim protocol, retry policy and
    administration commands.

    Conventions of the embedding.
    - A table is the list of its rows in rowid order; the PRIMARY KEY
      constraint is the predicate [pk_unique].
    - TEXT columns are [string]s; SQLite compares TEXT bytewise (BINARY
      collation), which is [String.compare].  Timestamps are stored as the
      text produced by [utcnow().isoformat()] and are compared as text.
    - INTEGER columns and Python ints are [Z].
    - [utcnow] lives in utils.py, outside the modelled files: every
      operation takes the text [now] it would have read from the clock.
    - Python floats are modelled by their exact rational value ([Q]); rounding
      to binary64 is not modelled, overflow of the float range is.
    - Strings are byte strings: [err[:512]] is [substring 0 512 err], which
      agrees with Python on ASCII text. *)

From Stdlib Require Import ZArith List String Ascii Bool Lia QArith Qabs Qpower.
From Stdlib Require Import Sorted Permutation.
Import ListNotations.

Local Open Scope string_scope.
Local Open Scope list_scope.
Local Open Scope Z_scope.

(** ** Bytewise order on TEXT values *)

Module Text.

Definition le (a b : string) : Prop := String.compare a b <> Gt.
Definition lt (a b : string) : Prop := String.compare a b = Lt.

End Text.

(** ** storage.py *)

Module Storage.

(** The five values the code writes into [jobs.state]. *)
Inductive State := pending | processing | completed | failed | dead.

Definition State_eqb (a b : State) : bool :=
  match a, b with
  | pending, pending | processing, processing | completed, completed
  | failed, failed | dead, dead => true
  | _, _ => false
  end.

(** A row of [jobs]; [last_error] and [worker_id] are the nullable columns. *)
Record Job := mkJob {
  id : string;
  command : string;
  state : State;
  attempts : Z;
  max_retries : Z;
  created_at : string;
  updated_at : string;
  next_run_at : string;
  last_error : option string;
  priority : Z;
  worker_id : option string
}.

Definition Jobs := list Job.

(** [id TEXT PRIMARY KEY]: no two rows carry the same id. *)
Definition pk_unique (t : Jobs) : Prop := NoDup (map id t).

(** [UPDATE jobs SET ... WHERE p]: rows satisfying [p] are rewritten in
    place by [f], all others are kept. *)
Definition update_where (p : Job -> bool) (f : Job -> Job) (t : Jobs) : Jobs :=
  map (fun r => if p r then f r else r) t.

Definition has_id (i : string) (r : Job) : bool := String.eqb (id r) i.

(** [SELECT * FROM jobs WHERE id=?] followed by [fetchone()]. *)
Definition get_job (t : Jobs) (job_id : string) : option Job :=
  find (has_id job_id) t.

(** The [DO UPDATE SET] list of [upsert_job]: every column of the
    excluded row but [id] and [created_at]. *)
Definition on_conflict_update (excluded old : Job) : Job :=
  {| id := id old;
     command := command excluded;
     state := state excluded;
     attempts := attempts excluded;
     max_retries := max_retries excluded;
     created_at := created_at old;
     updated_at := updated_at excluded;
     next_run_at := next_run_at excluded;
     last_error := last_error excluded;
     priority := priority excluded;
     worker_id := worker_id excluded |}.

(** [INSERT ... ON CONFLICT(id) DO UPDATE SET ...]. *)
Definition upsert_job (t : Jobs) (job : Job) : Jobs :=
  if existsb (has_id (id job)) t
  then update_where (has_id (id job)) (on_conflict_update job) t
  else t ++ [job].

(** [state = ?] as a predicate on rows. *)
Definition in_state (s : State) (r : Job) : bool := State_eqb (state r) s.

Definition recovered (now : string) (r : Job) : Job :=
  {| id := id r; command := command r;
     state := failed;
     attempts := attempts r; max_retries := max_retries r;
     created_at := created_at r;
     updated_at := now;
     next_run_at := now;
     last_error := last_error r; priority := priority r;
     worker_id := None |}.

Definition recover_processing (t : Jobs) (now : string) : Jobs :=
  update_where (in_state processing) (recovered now) t.

(** [WHERE state IN ('pending','failed') AND next_run_at <= ?]. *)
Definition ready (now : string) (r : Job) : bool :=
  (in_state pending r || in_state failed r) && String.leb (next_run_at r) now.

Definition lex (c1 c2 : comparison) : comparison :=
  match c1 with Eq => c2 | _ => c1 end.

(** [ORDER BY priority DESC, next_run_at ASC, created_at ASC]. *)
Definition claim_order (a b : Job) : comparison :=
  lex (Z.compare (priority b) (priority a))
    (lex (String.compare (next_run_at a) (next_run_at b))
         (String.compare (created_at a) (created_at b))).

Definition sorts_before (a b : Job) : bool :=
  match claim_order a b with Lt => true | _ => false end.

(** [ORDER BY ... LIMIT 1] as one scan that keeps the least row seen; among
    rows that compare equal SQL leaves the choice open, the scan keeps the
    one met first in rowid order. *)
Fixpoint order_by_limit1 (rows : list Job) : option Job :=
  match rows with
  | [] => None
  | r :: rest =>
      match order_by_limit1 rest with
      | Some m => if sorts_before m r then Some m else Some r
      | None => Some r
      end
  end.

Definition claimed (w now : string) (r : Job) : Job :=
  {| id := id r; command := command r;
     state := processing;
     attempts := attempts r; max_retries := max_retries r;
     created_at := created_at r;
     updated_at := now;
     next_run_at := next_run_at r;
     last_error := last_error r; priority := priority r;
     worker_id := Some w |}.

(** The whole of [fetch_and_lock_next_job] runs between [BEGIN IMMEDIATE]
    and [COMMIT], so it is one atomic function on the table: it returns the
    table after the transaction and the fetched row. *)
Definition fetch_and_lock_next_job (t : Jobs) (now worker : string)
  : Jobs * option Job :=
  match order_by_limit1 (filter (ready now) t) with
  | None => (t, None)
  | Some row =>
      let job_id := id row in
      let t' := update_where (has_id job_id) (claimed worker now) t in
      (t', get_job t' job_id)
  end.

Definition completed_row (now : string) (r : Job) : Job :=
  {| id := id r; command := command r;
     state := completed;
     attempts := attempts r; max_retries := max_retries r;
     created_at := created_at r;
     updated_at := now;
     next_run_at := next_run_at r;
     last_error := last_error r; priority := priority r;
     worker_id := None |}.

Definition mark_completed (t : Jobs) (job_id now : string) : Jobs :=
  update_where (has_id job_id) (completed_row now) t.

Definition dead_row (n : Z) (err now : string) (r : Job) : Job :=
  {| id := id r; command := command r;
     state := dead;
     attempts := n; max_retries := max_retries r;
     created_at := created_at r;
     updated_at := now;
     next_run_at := next_run_at r;
     last_error := Some err; priority := priority r;
     worker_id := None |}.

Definition failed_row (n : Z) (err next now : string) (r : Job) : Job :=
  {| id := id r; command := command r;
     state := failed;
     attempts := n; max_retries := max_retries r;
     created_at := created_at r;
     updated_at := now;
     next_run_at := next;
     last_error := Some err; priority := priority r;
     worker_id := None |}.

(** [next_run_at] is [Optional[datetime]]: [Some text] stands for a datetime
    whose [isoformat()] is [text], [None] for Python's [None], on which the
    failed branch raises ([None] has no [isoformat]); the result [None]
    is that exception, raised before anything is written. *)
Definition mark_failed_or_dead (t : Jobs) (job_id : string)
    (n max : Z) (err : string) (next : option string) (now : string)
  : option Jobs :=
  if n >=? max
  then Some (update_where (has_id job_id) (dead_row n err now) t)
  else match next with
       | Some text =>
           Some (update_where (has_id job_id) (failed_row n err text now) t)
       | None => None
       end.

(** The [config] table, [key TEXT PRIMARY KEY]. *)
Definition Config := list (string * string).

Definition config_get (c : Config) (key default : string) : string :=
  match find (fun kv => String.eqb (fst kv) key) c with
  | Some kv => snd kv
  | None => default
  end.

Definition config_set (c : Config) (key value : string) : Config :=
  if existsb (fun kv => String.eqb (fst kv) key) c
  then map (fun kv => if String.eqb (fst kv) key then (key, value) else kv) c
  else c ++ [(key, value)].

(** The [workers] table. *)
Record WorkerRow := mkWorker {
  w_id : string;
  w_pid : Z;
  w_started_at : string;
  w_stopped_at : option string
}.

Definition Workers := list WorkerRow.

(** A plain [INSERT]: a second row with the same primary key raises
    ([None]). *)
Definition register_worker (ws : Workers) (wid : string) (pid : Z)
    (now : string) : option Workers :=
  if existsb (fun w => String.eqb (w_id w) wid) ws then None
  else Some (ws ++ [mkWorker wid pid now None]).

Definition stop_worker_record (ws : Workers) (wid now : string) : Workers :=
  map (fun w => if String.eqb (w_id w) wid
                then mkWorker (w_id w) (w_pid w) (w_started_at w) (Some now)
                else w) ws.

Definition list_workers (ws : Workers) : Workers :=
  filter (fun w => match w_stopped_at w with None => true | Some _ => false end) ws.

(** The three tables of [queue.db]. *)
Record DB := mkDB {
  jobs : Jobs;
  config : Config;
  workers : Workers
}.

Definition with_jobs (d : DB) (t : Jobs) : DB := mkDB t (config d) (workers d).
Definition with_workers (d : DB) (ws : Workers) : DB := mkDB (jobs d) (config d) ws.

(** The text stored in [jobs.state]. *)
Definition State_text (s : State) : string :=
  match s with
  | pending => "pending"
  | processing => "processing"
  | completed => "completed"
  | failed => "failed"
  | dead => "dead"
  end.

(** [ORDER BY created_at] as an insertion sort on the bytewise order of the
    text; rows with equal [created_at], whose order SQL leaves open, stay in
    rowid order. *)
Fixpoint insert_by_created_at (r : Job) (rows : list Job) : list Job :=
  match rows with
  | [] => [r]
  | x :: rest =>
      if String.leb (created_at r) (created_at x) then r :: rows
      else x :: insert_by_created_at r rest
  end.

Definition order_by_created_at (rows : list Job) : list Job :=
  fold_right insert_by_created_at [] rows.

(** Python's truth value of an [Optional[str]]: [None] and the empty string
    are false. *)
Definition truthy (s : option string) : bool :=
  match s with
  | Some x => negb (String.eqb x "")
  | None => false
  end.

(** [list_jobs]: the filter is applied only when [state] is truthy. *)
Definition list_jobs (t : Jobs) (state : option string) : list Job :=
  match state with
  | Some s =>
      if truthy state
      then order_by_created_at
             (filter (fun r => String.eqb (State_text (Storage.state r)) s) t)
      else order_by_created_at t
  | None => order_by_created_at t
  end.

Definition count_state (t : Jobs) (s : State) : Z :=
  Z.of_nat (List.length (filter (in_state s) t)).

(** [SELECT state, COUNT( * ) FROM jobs GROUP BY state]: one pair for every
    state that occurs.  SQL leaves the order of the groups open; they are
    listed here in the order of their text. *)
Definition counts_by_state (t : Jobs) : list (State * Z) :=
  filter (fun p => 0 <? snd p)
    (map (fun s => (s, count_state t s)) [completed; dead; failed; pending; processing]).

(** [DEFAULTS] of models.py, each value as [init_db] stores it, through
    [str]. *)
Definition DEFAULTS : list (string * string) :=
  [("max_retries", "3"); ("backoff_base", "2.0")].

(** [INSERT INTO config ... ON CONFLICT(key) DO NOTHING]. *)
Definition insert_do_nothing (c : Config) (key value : string) : Config :=
  if existsb (fun kv => String.eqb (fst kv) key) c then c
  else c ++ [(key, value)].

(** [init_db]: the tables are created if they do not exist (they are the
    three lists of [DB], empty in a new file), then the defaults and the
    shutdown flag are inserted where absent. *)
Definition init_db (d : DB) : DB :=
  mkDB (jobs d)
       (insert_do_nothing
          (fold_left (fun c kv => insert_do_nothing c (fst kv) (snd kv))
             DEFAULTS (config d))
          "shutdown" "false")
       (workers d).

End Storage.

(** ** config.py *)

Module ConfigFile.
Import Storage.

Definition get_config (c : Config) (key : string) : option string :=
  match find (fun kv => String.eqb (fst kv) key) c with
  | Some kv => Some (snd kv)
  | None => None
  end.

Definition set_config (c : Config) (key value : string) : Config :=
  if existsb (fun kv => String.eqb (fst kv) key) c
  then map (fun kv => if String.eqb (fst kv) key then (key, value) else kv) c
  else c ++ [(key, value)].

End ConfigFile.

(** ** worker.py *)

Module Worker.
Import Storage.

(** Largest finite binary64 value. *)
Definition DBL_MAX : Q := inject_Z (2 ^ 1024 - 2 ^ 971).

(** [x ** n] for a float [x] and an int [n].  [None] is a raised exception:
    the int does not fit a float (OverflowError), [0.0] to a negative
    power (ZeroDivisionError), or a result outside the float range
    (OverflowError). *)
Definition float_pow (x : Q) (n : Z) : option Q :=
  if negb (Qle_bool (inject_Z (Z.abs n)) DBL_MAX) then None
  else if Qeq_bool x 0 && (n <? 0) then None
  else if Qle_bool (Qabs (Qpower x n)) DBL_MAX then Some (Qpower x n)
  else None.

(** [base] is the outcome of the cast [float(base)]: [Some x] when it
    yields the finite float [x], [None] when it raises; [attempts] is
    already an int, so [int(attempts)] is the identity.  Any exception of
    the first line is caught and the second line is evaluated, whose own
    exception ([None]) reaches the caller. *)
Definition backoff_delay (base : option Q) (attempts : Z) : option Q :=
  match match base with
        | Some x => float_pow x attempts
        | None => None
        end with
  | Some delay => Some delay
  | None => float_pow 2 attempts
  end.

(** How one pass through the body of [while True] ends. *)
Inductive Outcome := Continue | Break | Raised.

(** The state a worker process acts on: the database, the number of clock
    readings and executor calls made so far, and (as a ghost log, for
    counting executions) the ids of the jobs whose command was run. *)
Record Loop := mkLoop {
  db : DB;
  tick : nat;
  runs : list string
}.

Section Environment.

(** The executor ([run_command], at its n-th use), the clock (the text of
    the n-th [utcnow().isoformat()]), the clock plus a delay (the text of
    [(utcnow() + timedelta(seconds=d)).isoformat()] at the n-th reading,
    [None] when the datetime arithmetic raises), and Python's [float] on
    a configuration text ([None] when it raises). *)
Variable run_command : nat -> string -> Z * string.
Variable clock : nat -> string.
Variable later : nat -> Q -> option string.
Variable py_float : string -> option Q.

(** One pass through the body of the [while True] loop.  When nothing is
    fetched the claim has written nothing and the pass only sleeps. *)
Definition iteration (worker : string) (st : Loop) : Outcome * Loop :=
  let d := db st in
  let n := tick st in
  if String.eqb (config_get (config d) "shutdown" "false") "true"
  then (Break, st)
  else
    match fetch_and_lock_next_job (jobs d) (clock n) worker with
    | (_, None) => (Continue, mkLoop d (S n) (runs st))
    | (t1, Some job) =>
        let (rc, err) := run_command n (command job) in
        let ran := runs st ++ [id job] in
        if rc =? 0
        then (Continue,
              mkLoop (with_jobs d (mark_completed t1 (id job) (clock (S n))))
                     (S (S n)) ran)
        else
          let attempts := attempts job + 1 in
          match py_float (config_get (config d) "backoff_base" "2") with
          | None => (Raised, mkLoop (with_jobs d t1) (S n) ran)
          | Some base =>
              match backoff_delay (Some base) attempts with
              | None => (Raised, mkLoop (with_jobs d t1) (S n) ran)
              | Some delay_sec =>
                  match later (S n) delay_sec with
                  | None => (Raised, mkLoop (with_jobs d t1) (S (S n)) ran)
                  | Some next_run =>
                      match mark_failed_or_dead t1 (id job) attempts
                              (max_retries job) (substring 0 512 err)
                              (Some next_run) (clock (S (S n))) with
                      | None => (Raised, mkLoop (with_jobs d t1) (S (S (S n))) ran)
                      | Some t2 =>
                          (Continue, mkLoop (with_jobs d t2) (S (S (S n))) ran)
                      end
                  end
              end
          end
    end.

(** The loop observed for [n] passes: it stops earlier on [break] or on
    an exception, and is still running ([Continue]) otherwise. *)
Fixpoint iterate (n : nat) (worker : string) (st : Loop) : Outcome * Loop :=
  match n with
  | O => (Continue, st)
  | S n' =>
      match iteration worker st with
      | (Continue, st') => iterate n' worker st'
      | stopped => stopped
      end
  end.

(** [worker_loop]: register, recover orphans, loop, and deregister in
    [finally] on every way out of the loop.  A failing registration
    raises before the [try]. *)
Definition worker_loop (worker : string) (pid : Z) (n : nat) (st : Loop)
  : Outcome * Loop :=
  let d := db st in
  match register_worker (workers d) worker pid (clock (tick st)) with
  | None => (Raised, mkLoop d (S (tick st)) (runs st))
  | Some ws =>
      let t := recover_processing (jobs d) (clock (S (tick st))) in
      let st0 := mkLoop (mkDB t (config d) ws) (S (S (tick st))) (runs st) in
      match iterate n worker st0 with
      | (Continue, st') => (Continue, st')
      | (o, st') =>
          (o, mkLoop (with_workers (db st')
                        (stop_worker_record (workers (db st')) worker
                           (clock (tick st'))))
                     (S (tick st')) (runs st'))
      end
  end.

End Environment.

End Worker.

(** ** cli.py *)

Module Cli.
Import Storage.

(** How a command ends: normally, or by [raise typer.Exit(code)]. *)
Inductive Result :=
  | Done
  | Exit (code : Z).

(** The dictionary [job] built by [enqueue]. *)
Definition enqueue_job (i cmd : string) (max prio : Z) (now : string) : Job :=
  {| id := i;
     command := cmd;
     state := pending;
     attempts := 0;
     max_retries := max;
     created_at := now;
     updated_at := now;
     next_run_at := now;
     last_error := None;
     priority := prio;
     worker_id := None |}.

(** [enqueue] from the point where [data] holds an id and a command;
    [py_int] is Python's [int] on the configuration text, [None] being its
    exception. *)
Definition enqueue (py_int : string -> option Z) (d : DB) (i cmd : string)
    (max : option Z) (prio : Z) (now : string) : option DB :=
  match match max with
        | Some m => Some m
        | None => py_int (config_get (config d) "max_retries" "3")
        end with
  | Some m => Some (with_jobs d (upsert_job (jobs d) (enqueue_job i cmd m prio now)))
  | None => None
  end.

(** [dict(row)] after [payload.update({...})]. *)
Definition retry_payload (now : string) (row : Job) : Job :=
  {| id := id row;
     command := command row;
     state := pending;
     attempts := 0;
     max_retries := max_retries row;
     created_at := created_at row;
     updated_at := now;
     next_run_at := now;
     last_error := None;
     priority := priority row;
     worker_id := None |}.

(** [dlq_retry] returns the table it leaves behind and how it ended. *)
Definition dlq_retry (t : Jobs) (job_id now : string) : Jobs * Result :=
  match get_job t job_id with
  | None => (t, Exit 1)
  | Some row =>
      if negb (in_state dead row) then (t, Exit 1)
      else (upsert_job t (retry_payload now row), Done)
  end.

(** [worker_stop] (and its aliases): the flag the workers poll. *)
Definition worker_stop (c : Config) : Config := config_set c "shutdown" "true".

(** What [worker_start] does before it spawns the workers. *)
Definition worker_start_flag (c : Config) (reset_shutdown : bool) : Config :=
  if reset_shutdown then config_set c "shutdown" "false" else c.

(** [config_cmd]: the configuration it leaves, the text it prints if any,
    and how it ends. *)
Definition config_cmd (c : Config) (get set value : option string)
  : Config * option string * Result :=
  match get with
  | Some g =>
      if truthy get then (c, Some (config_get c g ""), Done)
      else match set, value with
           | Some k, Some v =>
               (config_set c k v, Some ("set " ++ k ++ "=" ++ v)%string, Done)
           | _, _ => (c, None, Exit 2)
           end
  | None =>
      match set, value with
      | Some k, Some v =>
          (config_set c k v, Some ("set " ++ k ++ "=" ++ v)%string, Done)
      | _, _ => (c, None, Exit 2)
      end
  end.

(** [config_set_cmd] and [config_get_cmd], the subcommands. *)
Definition config_set_cmd (c : Config) (key value : string) : Config * string :=
  (config_set c key value, ("set " ++ key ++ "=" ++ value)%string).

Definition config_get_cmd (c : Config) (key : string) : string :=
  config_get c key "".

End Cli.

(** ** The engine as a transition system

    Every storage function commits one transaction, and SQLite admits one
    writer at a time, so the processes sharing [queue.db] (the command line
    and any number of workers) act on the [jobs] table as an interleaving of
    whole storage calls.  Between its claim and its finalization a worker
    keeps the row it fetched in its local variable [job], and between its
    two transactions a [dlq_retry] keeps the row it read.  A worker that is
    interrupted while its command runs leaves the loop without a
    finalization ([except KeyboardInterrupt: pass]).  Worker ids are fresh
    ([uuid4]), so the [workers] table plays no part here. *)

Module Engine.
Import Storage.

(** [table] is the [jobs] table.  [held] is the local variable [job] of
    every worker that is executing a command.  [retrying] is the local
    variable [row] of every [dlq_retry] process that has read its job and
    has not yet written it back: [get_job] and [upsert_job] are two
    transactions, and other processes may commit between them.
    [executed] is a ghost log: the ids of the jobs whose command was
    started, in order ([run_command] is the first thing a worker does with a
    job it has claimed). *)
Record Sys := mkSys {
  table : Jobs;
  held : list (string * Job);
  retrying : list (string * Job);
  executed : list string
}.

Inductive Event :=
  (** [enqueue] with its resolved [max_retries] *)
  | Enqueue (i cmd : string) (max prio : Z) (now : string)
  (** the process [p] runs [dlq_retry i] up to and including its check of
      the row that [get_job] returned *)
  | DlqRead (p i : string)
  (** the same process reads the clock and runs [upsert_job(payload)] *)
  | DlqWrite (p now : string)
  (** a worker enters [worker_loop]: [recover_processing()] *)
  | WorkerStart (w now : string)
  (** a worker at the top of its loop: [fetch_and_lock_next_job], and
      [run_command] on the job it returns, if any *)
  | Claim (w now : string)
  (** the command of the held job returned 0: [mark_completed] *)
  | Succeed (w now : string)
  (** it returned non-zero with [err]: [mark_failed_or_dead], [next] being
      the text of [utcnow() + timedelta(seconds=delay)] *)
  | Fail (w err next now : string)
  (** [KeyboardInterrupt] while the command of the held job runs: the worker
      leaves [worker_loop], the row of the job stays as it is *)
  | Interrupt (w : string).

Definition holding (h : list (string * Job)) (w : string) : option Job :=
  match find (fun e => String.eqb (fst e) w) h with
  | Some e => Some (snd e)
  | None => None
  end.

Definition release (h : list (string * Job)) (w : string) : list (string * Job) :=
  filter (fun e => negb (String.eqb (fst e) w)) h.

(** One event; [None] when the event cannot occur in that state (a worker
    claims only while it holds no job, and finalizes or abandons only the
    job it holds; a [dlq_retry] that exits with an error is no transition,
    and it writes only what it has read). *)
Definition step (s : Sys) (e : Event) : option Sys :=
  match e with
  | Enqueue i cmd max prio now =>
      Some (mkSys (upsert_job (table s) (Cli.enqueue_job i cmd max prio now))
                  (held s) (retrying s) (executed s))
  | DlqRead p i =>
      match holding (retrying s) p with
      | Some _ => None
      | None =>
          match get_job (table s) i with
          | None => None
          | Some row =>
              if negb (in_state dead row) then None
              else Some (mkSys (table s) (held s) ((p, row) :: retrying s)
                               (executed s))
          end
      end
  | DlqWrite p now =>
      match holding (retrying s) p with
      | None => None
      | Some row =>
          Some (mkSys (upsert_job (table s) (Cli.retry_payload now row))
                      (held s) (release (retrying s) p) (executed s))
      end
  | WorkerStart w now =>
      match holding (held s) w with
      | Some _ => None
      | None =>
          Some (mkSys (recover_processing (table s) now)
                      (held s) (retrying s) (executed s))
      end
  | Claim w now =>
      match holding (held s) w with
      | Some _ => None
      | None =>
          match fetch_and_lock_next_job (table s) now w with
          | (t, Some job) =>
              Some (mkSys t ((w, job) :: held s) (retrying s)
                          (executed s ++ [id job]))
          | (t, None) => Some (mkSys t (held s) (retrying s) (executed s))
          end
      end
  | Succeed w now =>
      match holding (held s) w with
      | None => None
      | Some job =>
          Some (mkSys (mark_completed (table s) (id job) now)
                      (release (held s) w) (retrying s) (executed s))
      end
  | Fail w err next now =>
      match holding (held s) w with
      | None => None
      | Some job =>
          match mark_failed_or_dead (table s) (id job) (attempts job + 1)
                  (max_retries job) (substring 0 512 err) (Some next) now with
          | Some t => Some (mkSys t (release (held s) w) (retrying s) (executed s))
          | None => None
          end
      end
  | Interrupt w =>
      match holding (held s) w with
      | None => None
      | Some _ =>
          Some (mkSys (table s) (release (held s) w) (retrying s) (executed s))
      end
  end.

Fixpoint run (s : Sys) (es : list Event) : option Sys :=
  match es with
  | [] => Some s
  | e :: rest =>
      match step s e with
      | Some s' => run s' rest
      | None => None
      end
  end.

Definition init : Sys := mkSys [] [] [] [].

(** The row that the [upsert_job] of an event writes: the job of an
    enqueue, the payload of a [dlq_retry]. *)
Definition upserted (s : Sys) (e : Event) : option Job :=
  match e with
  | Enqueue i cmd max prio now => Some (Cli.enqueue_job i cmd max prio now)
  | DlqWrite p now => option_map (Cli.retry_payload now) (holding (retrying s) p)
  | _ => None
  end.

(** An enqueue or a [dlq_retry] write that replaces the row of a job some
    worker is executing. *)
Definition replaces_held (s : Sys) (e : Event) : bool :=
  match upserted s e with
  | Some job => existsb (fun h => has_id (id job) (snd h)) (held s)
  | None => false
  end.

(** One that, besides, stores a smaller [max_retries] than the worker
    read. *)
Definition lowers_held_budget (s : Sys) (e : Event) : bool :=
  match upserted s e with
  | Some job =>
      existsb (fun h => has_id (id job) (snd h) &&
                        (max_retries job <? max_retries (snd h)))
              (held s)
  | None => false
  end.

(** How often the command of job [i] was started. *)
Definition executions (s : Sys) (i : string) : nat :=
  count_occ string_dec (executed s) i.

Inductive reachable_from (P : Sys -> Event -> Prop) : Sys -> Prop :=
  | reach_init : reachable_from P init
  | reach_step s e s' :
      reachable_from P s -> P s e -> step s e = Some s' ->
      reachable_from P s'.

End Engine.

(** ** Sample data *)

Module Sample.
Import Storage.

Definition t0 : string := "2025-01-01T00:00:00".
Definition t1 : string := "2025-01-01T00:00:05".
Definition t2 : string := "2025-01-01T00:00:10".
Definition t3 : string := "2025-01-01T00:00:20".

Definition job_a : Job := mkJob "a" "echo a" pending 0 3 t0 t0 t0 None 0 None.
Definition job_b : Job := mkJob "b" "echo b" failed 1 3 t0 t1 t1 (Some "boom") 5 None.
Definition job_c : Job := mkJob "c" "echo c" pending 0 3 t0 t0 t3 None 9 None.
Definition job_d : Job := mkJob "d" "false" dead 2 2 t0 t1 t1 (Some "exit 1") 0 None.
Definition job_e : Job := mkJob "e" "sleep 9" processing 0 3 t0 t1 t0 None 0 (Some "w-1").

Definition queue : Jobs := [job_a; job_b; job_c; job_d; job_e].

(** A job with no retry budget that fails once. *)
Definition zero_budget_run : list Engine.Event :=
  [Engine.Enqueue "z" "false" 0 0 t0;
   Engine.Claim "w-1" t1;
   Engine.Fail "w-1" "exit 1" t3 t2].

(** A job re-enqueued with a smaller budget while a worker executes it. *)
Definition replaced_while_held_run : list Engine.Event :=
  [Engine.Enqueue "r" "false" 2 0 t0;
   Engine.Claim "w-1" t0;
   Engine.Fail "w-1" "exit 1" t1 t0;
   Engine.Claim "w-1" t1;
   Engine.Enqueue "r" "false" 1 0 t2;
   Engine.Fail "w-1" "exit 1" t3 t2].

(** A job that fails up to its budget of one and lands in the DLQ. *)
Definition dead_letter_run : list Engine.Event :=
  [Engine.Enqueue "d" "false" 1 0 t0;
   Engine.Claim "w-1" t1;
   Engine.Fail "w-1" "exit 1" t3 t2].

(** One job, a worker that claims it, and a second worker that starts while
    the first is still executing the job. *)
Definition second_worker_run : list Engine.Event :=
  [Engine.Enqueue "j" "sleep 60" 3 0 t0;
   Engine.WorkerStart "w-a" t1;
   Engine.Claim "w-a" t1;
   Engine.WorkerStart "w-b" t2;
   Engine.Claim "w-b" t3].

(** A [dlq_retry] whose write lands late: between its read and its write
    the job is enqueued again with a larger budget and claimed twice. *)
Definition stale_retry_run : list Engine.Event :=
  [Engine.Enqueue "d" "false" 1 0 t0;
   Engine.Claim "w-1" t0;
   Engine.Fail "w-1" "exit 1" t1 t0;
   Engine.DlqRead "cli" "d";
   Engine.Enqueue "d" "false" 3 0 t1;
   Engine.Claim "w-1" t1;
   Engine.Fail "w-1" "exit 1" t1 t1;
   Engine.Claim "w-1" t2;
   Engine.DlqWrite "cli" t2;
   Engine.Fail "w-1" "exit 1" t3 t2].

(** Two overlapping [dlq_retry] calls on the same dead job: the second write
    lands after a worker has claimed the job that the first write requeued,
    and a second worker claims it too. *)
Definition overlapping_retries_run : list Engine.Event :=
  [Engine.Enqueue "d" "false" 1 0 t0;
   Engine.Claim "w-1" t0;
   Engine.Fail "w-1" "exit 1" t1 t0;
   Engine.DlqRead "cli-1" "d";
   Engine.DlqRead "cli-2" "d";
   Engine.DlqWrite "cli-1" t1;
   Engine.Claim "w-1" t1;
   Engine.DlqWrite "cli-2" t2;
   Engine.Claim "w-2" t2].

(** A worker that is interrupted while it executes a job; the next worker
    to start recovers the job and executes it again. *)
Definition interrupted_run : list Engine.Event :=
  [Engine.Enqueue "d" "false" 1 0 t0;
   Engine.Claim "w-1" t0;
   Engine.Interrupt "w-1";
   Engine.WorkerStart "w-2" t1;
   Engine.Claim "w-2" t1;
   Engine.Fail "w-2" "exit 1" t3 t2].

(** A worker that starts while another executes a job, claims the same job
    and completes it. *)
Definition stale_holder_run : list Engine.Event :=
  [Engine.Enqueue "j" "flaky" 3 0 t0;
   Engine.WorkerStart "w-a" t0;
   Engine.Claim "w-a" t0;
   Engine.WorkerStart "w-b" t1;
   Engine.Claim "w-b" t1;
   Engine.Succeed "w-b" t2].

(** The ids of the jobs held by the workers of a state. *)
Definition held_ids (s : Engine.Sys) : list (string * string) :=
  map (fun h => (fst h, id (snd h))) (Engine.held s).

Definition state_of (t : Jobs) (i : string) : option State :=
  option_map state (get_job t i).

(** An environment for the worker loop: a clock that advances one second
    per reading for ten seconds and then stands still, a backoff base of 1
    (every retry is due one second later), and two executors. *)
Definition clock (n : nat) : string :=
  match n with
  | 0%nat => "2025-01-01T00:00:00"
  | 1%nat => "2025-01-01T00:00:01"
  | 2%nat => "2025-01-01T00:00:02"
  | 3%nat => "2025-01-01T00:00:03"
  | 4%nat => "2025-01-01T00:00:04"
  | 5%nat => "2025-01-01T00:00:05"
  | 6%nat => "2025-01-01T00:00:06"
  | 7%nat => "2025-01-01T00:00:07"
  | 8%nat => "2025-01-01T00:00:08"
  | 9%nat => "2025-01-01T00:00:09"
  | _ => "2025-01-01T00:00:10"
  end.

Definition later (n : nat) (delay : Q) : option string := Some (clock (S n)).

Definition py_float (text : string) : option Q := Some 1%Q.

Definition py_int (text : string) : option Z := Some 3.

Definition always_fails (n : nat) (command : string) : Z * string := (1, "boom").

Definition always_succeeds (n : nat) (command : string) : Z * string := (0, "").

Definition empty_db : DB := mkDB [] [] [].

(** What the loop leaves behind: how it ended, the state, attempts and
    budget of every job, and the log of executions. *)
Definition summary (res : Worker.Outcome * Worker.Loop)
  : Worker.Outcome * list (State * Z * Z) * list string :=
  (fst res,
   map (fun r => (state r, attempts r, max_retries r)) (jobs (Worker.db (snd res))),
   Worker.runs (snd res)).

(** The state [dead_letter_run] ends in. *)
Definition dead_d : Job := mkJob "d" "false" dead 1 1 t0 t2 t0 (Some "exit 1") 0 None.

Definition after_dead_letter : Engine.Sys :=
  Engine.mkSys [dead_d] [] [] ["d"].

(** The claim of worker w-2 on [queue] at [t2]: job b, the ready row of
    highest priority. *)
Definition claimed_b : Job :=
  mkJob "b" "echo b" processing 1 3 t0 t2 t1 (Some "boom") 5 (Some "w-2").

Definition queue_after_claim : Jobs := [job_a; claimed_b; job_c; job_d; job_e].

(** A state of the engine in which worker w-1 holds job d. *)
Definition held_d : Job :=
  mkJob "d" "false" processing 0 1 t0 t1 t0 None 0 (Some "w-1").

Definition while_holding : Engine.Sys :=
  Engine.mkSys [held_d] [("w-1", held_d)] [] ["d"].

(** A state of the engine in which job d is in the DLQ while worker w-1
    executes job e. *)
Definition busy : Engine.Sys :=
  Engine.mkSys [dead_d; job_e] [("w-1", job_e)] [] ["d"; "e"].

(** An environment whose configured backoff base is no float. *)
Definition no_float (text : string) : option Q := None.

(** A worker entering its loop on [queue], with and without the shutdown
    flag set. *)
Definition at_start : Worker.Loop := Worker.mkLoop (mkDB queue [] []) 2 [].

Definition at_start_stopping : Worker.Loop :=
  Worker.mkLoop (mkDB queue [("shutdown", "true")] []) 2 [].

End Sample.

(** ** Vocabulary of the properties *)

Module Props.
Import Storage.

(** What a three-way comparison must satisfy to order rows. *)
Record Comparator {A : Type} (cmp : A -> A -> comparison) : Prop := {
  cmp_antisym : forall a b, cmp b a = CompOpp (cmp a b);
  cmp_lt_trans : forall a b c, cmp a b = Lt -> cmp b c = Lt -> cmp a c = Lt;
  cmp_eq_l : forall a b c, cmp a b = Eq -> cmp a c = cmp b c
}.

(** A ready job: in state pending or failed with [next_run_at] at most
    [now]. *)
Definition eligible (now : string) (r : Job) : Prop :=
  (state r = pending \/ state r = failed) /\ Text.le (next_run_at r) now.

(** [a] comes no later than [b] under
    [ORDER BY priority DESC, next_run_at ASC, created_at ASC]. *)
Definition no_later (a b : Job) : Prop :=
  priority a > priority b \/
  (priority a = priority b /\
   (Text.lt (next_run_at a) (next_run_at b) \/
    (next_run_at a = next_run_at b /\ Text.le (created_at a) (created_at b)))).

(** A call that returns the float of value [v] (and does not raise). *)
Definition returns (o : option Q) (v : Q) : Prop :=
  match o with
  | Some r => Qeq r v
  | None => False
  end.

(** A row that is in neither terminal state. *)
Definition live (r : Job) : Prop := state r <> completed /\ state r <> dead.

(** The bound on the attempt counter that the engine maintains; a row that
    can still be executed is strictly below it. *)
Definition row_ok (r : Job) : Prop :=
  0 <= attempts r <= Z.max 1 (max_retries r) /\
  (live r -> attempts r < Z.max 1 (max_retries r)).

(** What a worker holding the fetched row [j] can rely on: the counter it
    read leaves room for one more attempt, and the stored row of that id, if
    any, has at least the [max_retries] it read. *)
Definition snap_ok (t : Jobs) (j : Job) : Prop :=
  0 <= attempts j < Z.max 1 (max_retries j) /\
  forall r, In r t -> id r = id j -> max_retries j <= max_retries r.

Definition engine_inv (s : Engine.Sys) : Prop :=
  pk_unique (Engine.table s) /\
  (forall r, In r (Engine.table s) -> row_ok r) /\
  (forall w j, In (w, j) (Engine.held s) -> snap_ok (Engine.table s) j).

(** The runs in which no enqueue and no [dlq_retry] write lowers the
    [max_retries] of a job that a worker is executing. *)
Definition keeps_held_budget (s : Engine.Sys) (e : Engine.Event) : Prop :=
  Engine.lowers_held_budget s e = false.

(** A row in one of the two terminal states. *)
Definition terminal (r : Job) : Prop := state r = completed \/ state r = dead.

(** From some reading on, the clock is at or past [t]. *)
Definition eventually_past (clock : nat -> string) (t : string) : Prop :=
  exists m, forall m', (m <= m')%nat -> Text.le t (clock m').

(** [enqueue] stores the job with [max_retries = k]: given on the command
    line, or read from the configuration. *)
Definition enqueued_with (py_int : string -> option Z) (d : DB)
    (max : option Z) (k : Z) : Prop :=
  match max with
  | Some m => m = k
  | None => py_int (config_get (config d) "max_retries" "3") = Some k
  end.

(** The runs in which no worker enters [worker_loop] (and so runs
    [recover_processing]) while some worker is executing a job, and no
    enqueue and no [dlq_retry] write replaces the row of a job that a worker
    is executing. *)
Definition orderly (s : Engine.Sys) (e : Engine.Event) : Prop :=
  match e with
  | Engine.WorkerStart _ _ => Engine.held s = []
  | _ => Engine.replaces_held s e = false
  end.

(** Every held job has its row, in state processing under the holder. *)
Definition held_rows_locked (s : Engine.Sys) : Prop :=
  forall w j, In (w, j) (Engine.held s) ->
    exists r, In r (Engine.table s) /\ id r = id j /\
              state r = processing /\ worker_id r = Some w.

(** The [worker_id] column is set exactly on the rows in state
    processing. *)
Definition worker_id_matches_state (r : Job) : Prop :=
  (state r = processing -> exists w, worker_id r = Some w) /\
  (state r <> processing -> worker_id r = None).

(** The rows are in non-decreasing order of [created_at]. *)
Definition by_created_at (a b : Job) : Prop :=
  Text.le (created_at a) (created_at b).

(** Sum of the counts of a [counts_by_state] result. *)
Definition total (counts : list (State * Z)) : Z :=
  fold_right (fun p acc => snd p + acc) 0 counts.

(** The worker has no active record. *)
Definition deregistered (ws : Workers) (worker : string) : Prop :=
  forall x, In x (list_workers ws) -> w_id x <> worker.

(** The [next_run] a failing pass computes before it finalizes, at clock
    reading [n] for the attempt count [a]; [None] when [float], the power or
    the datetime arithmetic raises. *)
Definition retry_time (later : nat -> Q -> option string)
    (py_float : string -> option Q) (cfg : Config) (n : nat) (a : Z)
  : option string :=
  match py_float (config_get cfg "backoff_base" "2") with
  | None => None
  | Some base =>
      match Worker.backoff_delay (Some base) a with
      | None => None
      | Some delay => later n delay
      end
  end.

(** A job that waits to be executed. *)
Definition waits (r : Job) : Prop := state r = pending \/ state r = failed.

(** The executions that its budget still allows a waiting job; there is
    always one. *)
Definition remaining (r : Job) : nat :=
  match state r with
  | pending | failed => Z.to_nat (Z.max 1 (max_retries r - attempts r))
  | _ => 0%nat
  end.

Definition backlog (t : Jobs) : nat := list_sum (map remaining t).

(** The retry time of [r] can be computed for every attempt that its budget
    still allows. *)
Definition retriable (later : nat -> Q -> option string)
    (py_float : string -> option Q) (cfg : Config) (r : Job) : Prop :=
  forall n a, attempts r < a <= Z.max (attempts r + 1) (max_retries r) ->
    retry_time later py_float cfg n a <> None.

(** What lets the loop get past a job: its command always succeeds, or its
    retry times can be computed. *)
Definition serviceable (run_command : nat -> string -> Z * string)
    (later : nat -> Q -> option string) (py_float : string -> option Q)
    (cfg : Config) (r : Job) : Prop :=
  (forall n, fst (run_command n (command r)) = 0) \/
  retriable later py_float cfg r.

(** The loop can get past every waiting job of the queue. *)
Definition workable (run_command : nat -> string -> Z * string)
    (later : nat -> Q -> option string) (py_float : string -> option Q)
    (cfg : Config) (t : Jobs) : Prop :=
  forall r, In r t -> waits r -> serviceable run_command later py_float cfg r.

(** What stays true of a worker that runs alone, between two passes of its
    loop. *)
Record loop_ok (run_command : nat -> string -> Z * string)
    (later : nat -> Q -> option string) (py_float : string -> option Q)
    (cfg : Config) (st : Worker.Loop) : Prop := {
  ok_config : config (Worker.db st) = cfg;
  ok_pk : pk_unique (jobs (Worker.db st));
  ok_idle : forall r, In r (jobs (Worker.db st)) -> state r <> processing;
  ok_workable : workable run_command later py_float cfg (jobs (Worker.db st))
}.

(** A pass of the loop that executed the job of the row [row] and left
    [row'] in its place. *)
Record pass_result (run_command : nat -> string -> Z * string)
    (clock : nat -> string) (st st' : Worker.Loop) (l1 l2 : Jobs)
    (row row' : Job) : Prop := {
  pass_before : jobs (Worker.db st) = l1 ++ row :: l2;
  pass_after : jobs (Worker.db st') = l1 ++ row' :: l2;
  pass_config : config (Worker.db st') = config (Worker.db st);
  pass_tick : (Worker.tick st < Worker.tick st')%nat;
  pass_runs : Worker.runs st' = Worker.runs st ++ [id row];
  pass_waits : waits row;
  pass_id : id row' = id row;
  pass_command : command row' = command row;
  pass_max : max_retries row' = max_retries row;
  pass_outcome :
    (fst (run_command (Worker.tick st) (command row)) = 0 /\
     state row' = completed /\ attempts row' = attempts row) \/
    (fst (run_command (Worker.tick st) (command row)) <> 0 /\
     attempts row' = attempts row + 1 /\
     ((max_retries row <= attempts row + 1 /\ state row' = dead) \/
      (attempts row + 1 < max_retries row /\ state row' = failed /\
       eventually_past clock (next_run_at row'))))
}.

(** The row of job [i], with its command [cmd] and its budget [k], in the
    table of a worker. *)
Definition row_of (i cmd : string) (k : Z) (st : Worker.Loop) (row : Job) : Prop :=
  In row (jobs (Worker.db st)) /\ id row = i /\ command row = cmd /\
  max_retries row = k.

(** How often [i] occurs in a log of executions. *)
Definition times (i : string) (log : list string) : nat :=
  count_occ string_dec log i.

(** The executions of a job against its row, for the budget [k]: a waiting
    job was executed [attempts] times, a job that is being executed or is
    completed once more, and a dead job [max(1, k)] times. *)
Definition counted (k : Z) (c : nat) (r : Job) : Prop :=
  match state r with
  | pending | failed => Z.of_nat c = attempts r /\ attempts r < Z.max 1 k
  | processing | completed =>
      Z.of_nat c = attempts r + 1 /\ 0 <= attempts r < Z.max 1 k
  | dead => Z.of_nat c = Z.max 1 k /\ attempts r = Z.max 1 k
  end.

(** Job [i] as a worker that runs alone has it: the job has its row, the
    log has as many executions of it as the row tells, and [P] holds of the
    row. *)
Definition tracked (i cmd : string) (k : Z) (P : Job -> Prop)
    (st : Worker.Loop) : Prop :=
  exists row, row_of i cmd k st row /\
              counted k (times i (Worker.runs st)) row /\ P row.

(** How the job has ended: dead, or completed at the first attempt. *)
Definition ended_dead (r : Job) : Prop := state r = dead.

Definition ended_completed (r : Job) : Prop :=
  state r = completed /\ attempts r = 0.

(** The runs that follow job [i] from its first storing: the job is written
    once, with [max_retries = k] (it is not enqueued again and not retried
    from the DLQ), no worker enters [worker_loop] while a worker is
    executing the job, and no worker is interrupted while it executes the
    job. *)
Definition follows (i : string) (k : Z) (s : Engine.Sys) (e : Engine.Event)
  : Prop :=
  match e with
  | Engine.WorkerStart _ _ => forall w j, In (w, j) (Engine.held s) -> id j <> i
  | Engine.Interrupt w => forall j, Engine.holding (Engine.held s) w = Some j -> id j <> i
  | _ =>
      match Engine.upserted s e with
      | Some job =>
          id job = i -> max_retries job = k /\ get_job (Engine.table s) i = None
      | None => True
      end
  end.

(** What such runs maintain for job [i]. *)
Record job_inv (i : string) (k : Z) (s : Engine.Sys) : Prop := {
  ji_none : get_job (Engine.table s) i = None -> Engine.executions s i = 0%nat;
  ji_max : forall r, In r (Engine.table s) -> id r = i -> max_retries r = k;
  ji_counted : forall r, In r (Engine.table s) -> id r = i ->
    counted k (Engine.executions s i) r;
  ji_holder : forall r, In r (Engine.table s) -> id r = i ->
    state r = processing -> exists w, Engine.holding (Engine.held s) w = Some r;
  ji_held : forall w j, In (w, j) (Engine.held s) -> id j = i ->
    In j (Engine.table s) /\ state j = processing /\ worker_id j = Some w
}.

End Props.

Import Storage Props.

(** * Properties *)

Lemma State_eqb_eq a b : State_eqb a b = true <-> a = b.
Proof. destruct a, b; simpl; split; congruence. Qed.

(** ** The order on TEXT *)

Section TextOrder.
Import Text.

Lemma ascii_compare_refl a : Ascii.compare a a = Eq.
Proof. unfold Ascii.compare. apply N.compare_refl. Qed.

Lemma ascii_compare_lt_trans a b c :
  Ascii.compare a b = Lt -> Ascii.compare b c = Lt -> Ascii.compare a c = Lt.
Proof.
  unfold Ascii.compare. rewrite !N.compare_lt_iff. apply N.lt_trans.
Qed.

Lemma compare_refl s : String.compare s s = Eq.
Proof.
  induction s as [|x s IH]; simpl; [reflexivity|].
  now rewrite ascii_compare_refl.
Qed.

Lemma compare_lt_trans a : forall b c,
  String.compare a b = Lt -> String.compare b c = Lt -> String.compare a c = Lt.
Proof.
  induction a as [|x a IH]; intros [|y b] [|z c]; simpl; try congruence.
  destruct (Ascii.compare x y) eqn:Exy; try discriminate.
  - apply Ascii.compare_eq_iff in Exy. subst y.
    destruct (Ascii.compare x z); try congruence. apply IH.
  - intros _. destruct (Ascii.compare y z) eqn:Eyz; try discriminate.
    + apply Ascii.compare_eq_iff in Eyz. subst z. now rewrite Exy.
    + intros _. now rewrite (ascii_compare_lt_trans _ _ _ Exy Eyz).
Qed.

Lemma compare_gt_lt a b : String.compare a b = Gt <-> String.compare b a = Lt.
Proof.
  rewrite (String.compare_antisym a b).
  destruct (String.compare b a); simpl; split; congruence.
Qed.

Lemma leb_le a b : String.leb a b = true <-> le a b.
Proof.
  unfold String.leb, le. destruct (String.compare a b); split; congruence.
Qed.

Lemma leb_gt a b : String.leb a b = false <-> lt b a.
Proof.
  unfold String.leb, lt. rewrite <- compare_gt_lt.
  destruct (String.compare a b); split; congruence.
Qed.

Lemma le_refl a : le a a.
Proof. unfold le. now rewrite compare_refl. Qed.

Lemma le_trans a b c : le a b -> le b c -> le a c.
Proof.
  unfold le. intros Hab Hbc.
  destruct (String.compare a b) eqn:Eab; try congruence.
  - apply String.compare_eq_iff in Eab. now subst b.
  - destruct (String.compare b c) eqn:Ebc; try congruence.
    + apply String.compare_eq_iff in Ebc. subst c. now rewrite Eab.
    + now rewrite (compare_lt_trans _ _ _ Eab Ebc).
Qed.

Lemma lt_irrefl a : ~ lt a a.
Proof. unfold lt. rewrite compare_refl. discriminate. Qed.

End TextOrder.

(** ** The claim order is a total preorder *)

Section ClaimOrder.

Lemma cmp_eq_r {A} (cmp : A -> A -> comparison) (H : Comparator cmp) a b c :
  cmp b c = Eq -> cmp a b = cmp a c.
Proof.
  intros E. rewrite (cmp_antisym _ H b a), (cmp_antisym _ H c a).
  f_equal. apply (cmp_eq_l _ H). exact E.
Qed.

Lemma cmp_le_trans {A} (cmp : A -> A -> comparison) (H : Comparator cmp) a b c :
  cmp a b <> Gt -> cmp b c <> Gt -> cmp a c <> Gt.
Proof.
  intros Hab Hbc.
  destruct (cmp a b) eqn:Eab; try congruence.
  - now rewrite (cmp_eq_l _ H a b c Eab).
  - destruct (cmp b c) eqn:Ebc; try congruence.
    + rewrite <- (cmp_eq_r _ H a b c Ebc), Eab. discriminate.
    + rewrite (cmp_lt_trans _ H a b c Eab Ebc). discriminate.
Qed.

Lemma lex_comparator {A} (c1 c2 : A -> A -> comparison) :
  Comparator c1 -> Comparator c2 ->
  Comparator (fun a b => lex (c1 a b) (c2 a b)).
Proof.
  intros H1 H2. split.
  - intros a b. rewrite (cmp_antisym _ H1 a b), (cmp_antisym _ H2 a b).
    destruct (c1 a b); reflexivity.
  - intros a b c. unfold lex.
    destruct (c1 a b) eqn:Eab; try discriminate.
    + rewrite (cmp_eq_l _ H1 a b c Eab).
      destruct (c1 b c); try discriminate; [|reflexivity].
      apply (cmp_lt_trans _ H2).
    + intros _. destruct (c1 b c) eqn:Ebc; try discriminate.
      * intros _. now rewrite <- (cmp_eq_r _ H1 a b c Ebc), Eab.
      * intros _. now rewrite (cmp_lt_trans _ H1 a b c Eab Ebc).
  - intros a b c. unfold lex.
    destruct (c1 a b) eqn:Eab; try discriminate.
    intros E2. rewrite (cmp_eq_l _ H1 a b c Eab), (cmp_eq_l _ H2 a b c E2).
    reflexivity.
Qed.

Lemma text_comparator (f : Job -> string) :
  Comparator (fun a b => String.compare (f a) (f b)).
Proof.
  split.
  - intros a b. apply String.compare_antisym.
  - intros a b c. apply compare_lt_trans.
  - intros a b c E. apply String.compare_eq_iff in E. now rewrite E.
Qed.

Lemma priority_desc_comparator :
  Comparator (fun a b => Z.compare (priority b) (priority a)).
Proof.
  split.
  - intros a b. apply Z.compare_antisym.
  - intros a b c. rewrite !Z.compare_lt_iff. lia.
  - intros a b c E. apply Z.compare_eq in E. now rewrite E.
Qed.

Lemma claim_order_comparator : Comparator claim_order.
Proof.
  unfold claim_order.
  apply (lex_comparator (fun a b => Z.compare (priority b) (priority a))
           (fun a b => lex (String.compare (next_run_at a) (next_run_at b))
                           (String.compare (created_at a) (created_at b)))).
  - apply priority_desc_comparator.
  - apply (lex_comparator (fun a b => String.compare (next_run_at a) (next_run_at b))
             (fun a b => String.compare (created_at a) (created_at b)));
      apply text_comparator.
Qed.

Lemma claim_order_refl a : claim_order a a = Eq.
Proof.
  unfold claim_order. now rewrite Z.compare_refl, !compare_refl.
Qed.

Lemma claim_order_no_later a b : claim_order a b <> Gt <-> no_later a b.
Proof.
  unfold claim_order, no_later, lex, Text.lt, Text.le.
  destruct (Z.compare_spec (priority b) (priority a)) as [E|L|G].
  - destruct (String.compare (next_run_at a) (next_run_at b)) eqn:En.
    + apply String.compare_eq_iff in En. split.
      * intros Hc. right. split; [congruence|]. right. now split.
      * intros [Hp|[_ [Hn|[_ Hc]]]]; [lia|discriminate|exact Hc].
    + split; [|discriminate]. intros _. right. split; [congruence|]. now left.
    + split; [congruence|]. intros [Hp|[_ [Hn|[Hn _]]]]; [lia|discriminate|].
      rewrite Hn, compare_refl in En. discriminate.
  - split; [|discriminate]. intros _. left. lia.
  - split; [congruence|]. intros [Hp|[Hp _]]; lia.
Qed.

(** What the scan returns is a row of its input that no row of the input
    precedes. *)
Lemma order_by_limit1_least rows m :
  order_by_limit1 rows = Some m ->
  In m rows /\ forall r, In r rows -> claim_order m r <> Gt.
Proof.
  revert m. induction rows as [|r rest IH]; simpl; intros m Hm; [discriminate|].
  destruct (order_by_limit1 rest) as [m'|] eqn:Erest.
  - destruct (IH m' eq_refl) as [Hin Hle].
    unfold sorts_before in Hm.
    destruct (claim_order m' r) eqn:Ecmp; inversion Hm; subst m; clear Hm.
    + split; [now left|]. intros x [<-|Hx].
      * rewrite claim_order_refl. discriminate.
      * apply (cmp_le_trans _ claim_order_comparator r m' x); [|now apply Hle].
        rewrite (cmp_antisym _ claim_order_comparator m' r), Ecmp. discriminate.
    + split; [now right|]. intros x [<-|Hx]; [congruence|now apply Hle].
    + split; [now left|]. intros x [<-|Hx].
      * rewrite claim_order_refl. discriminate.
      * apply (cmp_le_trans _ claim_order_comparator r m' x); [|now apply Hle].
        rewrite (cmp_antisym _ claim_order_comparator m' r), Ecmp. discriminate.
  - inversion Hm; subst m. destruct rest as [|y rest'].
    + split; [now left|]. intros x [<-|[]]. rewrite claim_order_refl. discriminate.
    + simpl in Erest. destruct (order_by_limit1 rest') as [z|];
        [destruct (sorts_before z y)|]; discriminate.
Qed.

Lemma order_by_limit1_none rows : order_by_limit1 rows = None -> rows = [].
Proof.
  destruct rows as [|r rest]; [reflexivity|]. simpl.
  destruct (order_by_limit1 rest) as [m|]; [destruct (sorts_before m r)|]; discriminate.
Qed.

End ClaimOrder.

(** ** Rows addressed through the primary key *)

Section PrimaryKey.

Lemma has_id_true i r : has_id i r = true <-> id r = i.
Proof. unfold has_id. apply String.eqb_eq. Qed.

Lemma has_id_false i r : has_id i r = false <-> id r <> i.
Proof. unfold has_id. apply String.eqb_neq. Qed.

Lemma update_where_miss p f t :
  (forall x, In x t -> p x = false) -> update_where p f t = t.
Proof.
  unfold update_where. induction t as [|x t IH]; simpl; intros H; [reflexivity|].
  rewrite (H x (or_introl eq_refl)). f_equal. apply IH. intros y Hy. apply H. now right.
Qed.

Lemma update_where_app p f t1 t2 :
  update_where p f (t1 ++ t2) = update_where p f t1 ++ update_where p f t2.
Proof. apply map_app. Qed.

(** A row of a table with a primary key splits the table into the rows
    before and after it, none of which has its id. *)
Lemma pk_split t r :
  pk_unique t -> In r t ->
  exists l1 l2, t = l1 ++ r :: l2 /\ forall x, In x (l1 ++ l2) -> id x <> id r.
Proof.
  unfold pk_unique. intros Hnd Hin.
  destruct (in_split r t Hin) as (l1 & l2 & ->).
  exists l1, l2. split; [reflexivity|].
  rewrite map_app in Hnd. simpl in Hnd.
  apply NoDup_remove_2 in Hnd. rewrite <- map_app in Hnd.
  intros x Hx E. apply Hnd. rewrite <- E. now apply in_map.
Qed.

Lemma update_where_split i f l1 r l2 :
  (forall x, In x (l1 ++ l2) -> id x <> i) -> id r = i ->
  update_where (has_id i) f (l1 ++ r :: l2) = l1 ++ f r :: l2.
Proof.
  intros Hne Hr. rewrite update_where_app. simpl.
  assert (Hi : has_id i r = true) by now apply has_id_true.
  rewrite Hi.
  rewrite !update_where_miss; [reflexivity| |].
  - intros x Hx. apply has_id_false. apply Hne. apply in_or_app. now right.
  - intros x Hx. apply has_id_false. apply Hne. apply in_or_app. now left.
Qed.

Lemma get_job_split i l1 r l2 :
  (forall x, In x l1 -> id x <> i) -> id r = i ->
  get_job (l1 ++ r :: l2) i = Some r.
Proof.
  unfold get_job. intros Hne Hr. induction l1 as [|x l1 IH]; simpl.
  - assert (Hi : has_id i r = true) by now apply has_id_true. now rewrite Hi.
  - assert (Hx : has_id i x = false).
    { apply has_id_false. apply Hne. now left. }
    rewrite Hx. apply IH. intros y Hy. apply Hne. now right.
Qed.

Lemma get_job_some t i r : get_job t i = Some r -> In r t /\ id r = i.
Proof.
  unfold get_job. intros H. apply find_some in H.
  destruct H as [Hin Hid]. split; [exact Hin|now apply has_id_true].
Qed.

Lemma get_job_none t i : get_job t i = None -> forall x, In x t -> id x <> i.
Proof.
  unfold get_job. intros H x Hx. apply has_id_false.
  exact (find_none _ _ H x Hx).
Qed.

Lemma existsb_has_id t i : existsb (has_id i) t = true <-> exists r, In r t /\ id r = i.
Proof.
  rewrite existsb_exists. split; intros (r & Hin & H); exists r; split; auto;
    now apply has_id_true.
Qed.

Lemma update_where_ids p f t :
  (forall r, id (f r) = id r) -> map id (update_where p f t) = map id t.
Proof.
  intros Hf. unfold update_where. rewrite map_map. apply map_ext.
  intros r. destruct (p r); [apply Hf|reflexivity].
Qed.

End PrimaryKey.

(** ** The claim protocol *)

Section Claim.

Lemma in_state_true s r : in_state s r = true <-> state r = s.
Proof. unfold in_state. apply State_eqb_eq. Qed.

Lemma ready_eligible now r : ready now r = true <-> eligible now r.
Proof.
  unfold ready, eligible. rewrite andb_true_iff, orb_true_iff, !in_state_true.
  now rewrite leb_le.
Qed.

(** The two ways [fetch_and_lock_next_job] ends. *)
Lemma fetch_and_lock_cases (t : Jobs) (now w : string) :
  pk_unique t ->
  match fetch_and_lock_next_job t now w with
  | (t', None) =>
      t' = t /\ forall r, In r t -> ~ eligible now r
  | (t', Some job) =>
      exists row l1 l2,
        t = l1 ++ row :: l2 /\
        (forall x, In x (l1 ++ l2) -> id x <> id row) /\
        eligible now row /\
        (forall r, In r t -> eligible now r -> no_later row r) /\
        job = claimed w now row /\
        t' = l1 ++ job :: l2
  end.
Proof.
  intros Hpk. unfold fetch_and_lock_next_job.
  destruct (order_by_limit1 (filter (ready now) t)) as [row|] eqn:Esel.
  - apply order_by_limit1_least in Esel. destruct Esel as [Hin Hleast].
    apply filter_In in Hin. destruct Hin as [Hin Hready].
    destruct (pk_split t row Hpk Hin) as (l1 & l2 & Ht & Hne).
    subst t. cbv zeta.
    rewrite (update_where_split (id row) (claimed w now) l1 row l2 Hne eq_refl).
    rewrite (get_job_split (id row) l1 (claimed w now row) l2); [|..].
    + exists row, l1, l2. repeat split; try assumption; try reflexivity.
      * apply ready_eligible in Hready. apply Hready.
      * apply ready_eligible in Hready. apply Hready.
      * intros r Hr Hel. apply claim_order_no_later. apply Hleast.
        apply filter_In. split; [exact Hr|now apply ready_eligible].
    + intros x Hx. apply Hne. apply in_or_app. now left.
    + reflexivity.
  - apply order_by_limit1_none in Esel. split; [reflexivity|].
    intros r Hr Hel. apply ready_eligible in Hel.
    assert (Hf : In r (filter (ready now) t)) by (apply filter_In; now split).
    rewrite Esel in Hf. exact Hf.
Qed.

(** C1: [fetch_and_lock_next_job] picks, among the rows in state pending or
    failed whose [next_run_at] is at most [now], one that no such row
    precedes in the order (priority DESC, next_run_at ASC, created_at ASC).
    Without such a row it returns nothing and the table is as before;
    otherwise that row alone is rewritten to state processing with the
    caller's worker id and [updated_at = now], every other column and every
    other row being kept, and the rewritten row is returned. *)
Theorem fetch_and_lock_next_job_spec (t : Jobs) (now w : string) :
  pk_unique t ->
  match fetch_and_lock_next_job t now w with
  | (t', None) =>
      t' = t /\ forall r, In r t -> ~ eligible now r
  | (t', Some job) =>
      exists row l1 l2,
        t = l1 ++ row :: l2 /\
        eligible now row /\
        (forall r, In r t -> eligible now r -> no_later row r) /\
        job = mkJob (id row) (command row) processing (attempts row)
                (max_retries row) (created_at row) now (next_run_at row)
                (last_error row) (priority row) (Some w) /\
        t' = l1 ++ job :: l2
  end.
Proof.
  intros Hpk. pose proof (fetch_and_lock_cases t now w Hpk) as H.
  destruct (fetch_and_lock_next_job t now w) as [t' [job|]]; [|exact H].
  destruct H as (row & l1 & l2 & Ht & _ & Hel & Hleast & Hjob & Ht').
  exists row, l1, l2.
  split; [exact Ht|]. split; [exact Hel|]. split; [exact Hleast|].
  split; [exact Hjob|exact Ht'].
Qed.

End Claim.

(** ** Finalization *)

Section Finalize.

(** C3: on a table holding a row with the given id, [mark_failed_or_dead]
    writes state dead, the supplied attempts and error and a null worker id
    when [attempts >= max_retries] (equality included), and otherwise state
    failed with the supplied attempts, error and next run time and a null
    worker id; no other row changes. *)
Theorem mark_failed_or_dead_spec (t : Jobs) (i : string) (n max : Z)
    (err next now : string) (row : Job) :
  pk_unique t -> get_job t i = Some row ->
  exists l1 l2, t = l1 ++ row :: l2 /\
    (n >= max -> forall nxt,
       mark_failed_or_dead t i n max err nxt now =
       Some (l1 ++ mkJob i (command row) dead n (max_retries row)
                     (created_at row) now (next_run_at row) (Some err)
                     (priority row) None :: l2)) /\
    (n < max ->
       mark_failed_or_dead t i n max err (Some next) now =
       Some (l1 ++ mkJob i (command row) failed n (max_retries row)
                     (created_at row) now next (Some err)
                     (priority row) None :: l2)).
Proof.
  intros Hpk Hget. apply get_job_some in Hget. destruct Hget as [Hin Hid].
  destruct (pk_split t row Hpk Hin) as (l1 & l2 & Ht & Hne).
  exists l1, l2. split; [exact Ht|]. rewrite Hid in Hne.
  unfold mark_failed_or_dead. split.
  - intros Hge nxt. destruct (Z.geb_spec n max) as [_|Hlt]; [|lia].
    rewrite Ht, (update_where_split i _ l1 row l2 Hne Hid).
    unfold dead_row. now rewrite Hid.
  - intros Hlt. destruct (Z.geb_spec n max) as [Hge|_]; [lia|].
    rewrite Ht, (update_where_split i _ l1 row l2 Hne Hid).
    unfold failed_row. now rewrite Hid.
Qed.

End Finalize.

(** ** Upsert, re-enqueue and DLQ retry *)

Section Upsert.

Lemma existsb_has_id_get t i :
  existsb (has_id i) t = true <-> exists r, get_job t i = Some r.
Proof.
  unfold get_job. split.
  - intros H. apply existsb_exists in H. destruct H as (r & Hin & Hid).
    destruct (find (has_id i) t) as [x|] eqn:E; [now exists x|].
    rewrite (find_none _ _ E r Hin) in Hid. discriminate.
  - intros [r H]. apply find_some in H. apply existsb_exists. now exists r.
Qed.

(** On a conflicting id the stored row takes every column of the new job
    but [created_at], which stays as stored, and no other row changes. *)
Lemma upsert_job_conflict t job old :
  pk_unique t -> get_job t (id job) = Some old ->
  exists l1 l2, t = l1 ++ old :: l2 /\
    (forall x, In x (l1 ++ l2) -> id x <> id job) /\
    upsert_job t job =
    l1 ++ mkJob (id job) (command job) (state job) (attempts job)
            (max_retries job) (created_at old) (updated_at job)
            (next_run_at job) (last_error job) (priority job)
            (worker_id job) :: l2.
Proof.
  intros Hpk Hget. unfold upsert_job.
  assert (Hex : existsb (has_id (id job)) t = true).
  { apply existsb_has_id_get. now exists old. }
  rewrite Hex. apply get_job_some in Hget. destruct Hget as [Hin Hid].
  destruct (pk_split t old Hpk Hin) as (l1 & l2 & Ht & Hne).
  rewrite Hid in Hne. exists l1, l2. split; [exact Ht|]. split; [exact Hne|].
  rewrite Ht, (update_where_split (id job) _ l1 old l2 Hne Hid).
  unfold on_conflict_update. now rewrite Hid.
Qed.

Lemma upsert_job_fresh t job :
  get_job t (id job) = None -> upsert_job t job = t ++ [job].
Proof.
  intros Hget. unfold upsert_job.
  destruct (existsb (has_id (id job)) t) eqn:Hex; [|reflexivity].
  apply existsb_has_id_get in Hex. destruct Hex as [r Hr]. congruence.
Qed.

(** C8 (as the code has it): re-enqueueing an existing id replaces every
    column of the stored row by the supplied value except [created_at],
    which keeps the value of the row that was there; the row is pending with
    zero attempts afterwards, and no other row changes. *)
Theorem reenqueue_replaces_all_but_created_at
    (py_int : string -> option Z) (d d' : DB) (i cmd : string)
    (max : option Z) (prio : Z) (now : string) (old : Job) :
  pk_unique (jobs d) -> get_job (jobs d) i = Some old ->
  Cli.enqueue py_int d i cmd max prio now = Some d' ->
  exists l1 l2 m,
    jobs d = l1 ++ old :: l2 /\
    jobs d' = l1 ++ mkJob i cmd pending 0 m (created_at old) now now None prio None
                 :: l2 /\
    (max = Some m \/
     max = None /\ py_int (config_get (config d) "max_retries" "3") = Some m).
Proof.
  intros Hpk Hget Henq. unfold Cli.enqueue in Henq.
  destruct (match max with Some m => Some m | None => _ end) as [m|] eqn:Em;
    [|discriminate].
  inversion Henq; subst d'; clear Henq. simpl.
  destruct (upsert_job_conflict (jobs d) (Cli.enqueue_job i cmd m prio now) old Hpk Hget)
    as (l1 & l2 & Ht & _ & Hup).
  exists l1, l2, m. split; [exact Ht|]. split; [exact Hup|].
  destruct max as [m'|]; [left; congruence|right; now split].
Qed.

(** C7: [dlq_retry] ends normally exactly when the table holds the job in
    state dead, and then rewrites that row to state pending, zero attempts,
    no error and [next_run_at = now]; otherwise it exits with code 1 and the
    table is as before. *)
Theorem dlq_retry_spec (t : Jobs) (i now : string) :
  pk_unique t ->
  match Cli.dlq_retry t i now with
  | (t', Cli.Done) =>
      exists row l1 l2,
        t = l1 ++ row :: l2 /\ id row = i /\ state row = dead /\
        t' = l1 ++ mkJob i (command row) pending 0 (max_retries row)
                     (created_at row) now now None (priority row) None :: l2
  | (t', Cli.Exit code) =>
      code = 1 /\ t' = t /\
      forall r, In r t -> id r = i -> state r <> dead
  end.
Proof.
  intros Hpk. unfold Cli.dlq_retry.
  destruct (get_job t i) as [row|] eqn:Hget.
  - destruct (in_state dead row) eqn:Hdead; simpl.
    + apply in_state_true in Hdead.
      assert (Hid : id row = i) by (apply (get_job_some t i row Hget)).
      assert (Hget' : get_job t (id (Cli.retry_payload now row)) = Some row)
        by (simpl; now rewrite Hid).
      destruct (upsert_job_conflict t (Cli.retry_payload now row) row Hpk Hget')
        as (l1 & l2 & Ht & _ & Hup).
      exists row, l1, l2. repeat split; try assumption.
      rewrite Hup. simpl. now rewrite Hid.
    + repeat split. intros r Hr Hid Hst.
      destruct (get_job_some t i row Hget) as [Hin Hrow].
      destruct (pk_split t row Hpk Hin) as (l1 & l2 & Ht & Hne).
      assert (r = row).
      { rewrite Ht in Hr. apply in_app_or in Hr. destruct Hr as [Hr|[Hr|Hr]].
        - exfalso. apply (Hne r); [apply in_or_app; now left|congruence].
        - now symmetry.
        - exfalso. apply (Hne r); [apply in_or_app; now right|congruence]. }
      subst r. apply in_state_true in Hst. congruence.
  - repeat split. intros r Hr Hid _. exact (get_job_none t i Hget r Hr Hid).
Qed.

(** C10: a [dlq_retry] that goes through leaves the job's id, command,
    priority, [max_retries] and [created_at] as they were (only state,
    attempts, [last_error], [next_run_at], [updated_at] and [worker_id] are
    rewritten), and leaves every other row as it was. *)
Theorem dlq_retry_frame (t : Jobs) (i now : string) (row : Job) :
  pk_unique t -> get_job t i = Some row -> state row = dead ->
  exists t' row' l1 l2,
    Cli.dlq_retry t i now = (t', Cli.Done) /\
    t = l1 ++ row :: l2 /\ t' = l1 ++ row' :: l2 /\
    get_job t' i = Some row' /\
    id row' = id row /\ command row' = command row /\
    priority row' = priority row /\ max_retries row' = max_retries row /\
    created_at row' = created_at row.
Proof.
  intros Hpk Hget Hdead. unfold Cli.dlq_retry. rewrite Hget.
  assert (Hin : in_state dead row = true) by now apply in_state_true.
  rewrite Hin. simpl.
  assert (Hid : id row = i) by (apply (get_job_some t i row Hget)).
  assert (Hget' : get_job t (id (Cli.retry_payload now row)) = Some row)
    by (simpl; now rewrite Hid).
  destruct (upsert_job_conflict t (Cli.retry_payload now row) row Hpk Hget')
    as (l1 & l2 & Ht & Hne & Hup).
  simpl in Hup, Hne. rewrite Hid in Hup, Hne. rewrite Hup.
  eexists _, _, l1, l2. split; [reflexivity|]. split; [exact Ht|].
  split; [reflexivity|]. split.
  - apply get_job_split; [|reflexivity].
    intros x Hx. apply Hne. apply in_or_app. now left.
  - simpl. repeat split. now symmetry.
Qed.

End Upsert.

(** ** Backoff *)

Section Backoff.
Import Worker.
Local Open Scope Q_scope.

Lemma float_pow_in_range (x : Q) (n : Z) :
  (0 <= n)%Z -> inject_Z n <= DBL_MAX -> Qabs (x ^ n) <= DBL_MAX ->
  float_pow x n = Some (x ^ n).
Proof.
  intros Hn Hfit Hr. unfold float_pow.
  rewrite Z.abs_eq by exact Hn.
  apply Qle_bool_iff in Hfit. rewrite Hfit. simpl.
  assert (Hneg : (n <? 0)%Z = false) by (apply Z.ltb_ge; exact Hn).
  rewrite Hneg, andb_false_r.
  apply Qle_bool_iff in Hr. now rewrite Hr.
Qed.

Lemma float_pow_overflow (x : Q) (n : Z) :
  (0 <= n)%Z -> ~ Qabs (x ^ n) <= DBL_MAX -> float_pow x n = None.
Proof.
  intros Hn Hr. unfold float_pow.
  destruct (negb (Qle_bool (inject_Z (Z.abs n)) DBL_MAX)); [reflexivity|].
  destruct (Qeq_bool x 0 && (n <? 0)%Z); [reflexivity|].
  destruct (Qle_bool (Qabs (x ^ n)) DBL_MAX) eqn:E; [|reflexivity].
  apply Qle_bool_iff in E. contradiction.
Qed.

Lemma two_pow_in_range (n : Z) :
  (0 <= n < 1024)%Z -> inject_Z n <= DBL_MAX /\ Qabs (2 ^ n) <= DBL_MAX.
Proof.
  intros [H0 H1].
  assert (Hz : (2 ^ n <= 2 ^ 1024 - 2 ^ 971)%Z).
  { apply Z.le_trans with (2 ^ 1023)%Z.
    - apply Z.pow_le_mono_r; lia.
    - now vm_compute. }
  assert (Hn : (n <= 2 ^ n)%Z).
  { apply Z.lt_le_incl. apply Z.pow_gt_lin_r; lia. }
  unfold DBL_MAX. split.
  - rewrite <- Zle_Qle. lia.
  - assert (E : 2 ^ n == inject_Z (2 ^ n)).
    { rewrite Zpower_Qpower by exact H0. reflexivity. }
    rewrite E, Qabs_pos.
    + rewrite <- Zle_Qle. exact Hz.
    + change 0 with (inject_Z 0). rewrite <- Zle_Qle. apply Z.pow_nonneg. lia.
Qed.



End Backoff.

(** ** The engine: rows in a terminal state *)

Section EngineFrame.
Import Engine.

Lemma in_update_where p f t r' :
  In r' (update_where p f t) ->
  (In r' t /\ p r' = false) \/ exists r, In r t /\ p r = true /\ r' = f r.
Proof.
  unfold update_where. rewrite in_map_iff. intros (r & Hr & Hin).
  destruct (p r) eqn:Hp.
  - right. exists r. now repeat split.
  - left. subst r'. now split.
Qed.

Lemma update_where_keeps p f t r :
  In r t -> p r = false -> In r (update_where p f t).
Proof.
  intros Hin Hp. unfold update_where. apply in_map_iff. exists r.
  now rewrite Hp.
Qed.

Lemma in_upsert_job t job r' :
  In r' (upsert_job t job) ->
  (In r' t /\ id r' <> id job) \/
  r' = job \/
  exists old, In old t /\ id old = id job /\ r' = on_conflict_update job old.
Proof.
  unfold upsert_job. destruct (existsb (has_id (id job)) t) eqn:Hex.
  - intros H. apply in_update_where in H. destruct H as [[Hin Hp]|(r & Hin & Hp & E)].
    + left. split; [exact Hin|now apply has_id_false].
    + right. right. exists r. repeat split; [exact Hin|now apply has_id_true|exact E].
  - intros H. apply in_app_or in H. destruct H as [H|[H|[]]].
    + left. split; [exact H|]. intros E.
      assert (Hc : existsb (has_id (id job)) t = true).
      { apply existsb_has_id. now exists r'. }
      congruence.
    + right. left. now symmetry.
Qed.

Lemma upsert_job_keeps t job r :
  In r t -> id r <> id job -> In r (upsert_job t job).
Proof.
  intros Hin Hne. unfold upsert_job. destruct (existsb (has_id (id job)) t).
  - apply update_where_keeps; [exact Hin|now apply has_id_false].
  - apply in_or_app. now left.
Qed.

Lemma pk_same_id t a b :
  pk_unique t -> In a t -> In b t -> id a = id b -> a = b.
Proof.
  intros Hpk Ha Hb E.
  destruct (pk_split t a Hpk Ha) as (l1 & l2 & Ht & Hne).
  rewrite Ht in Hb. apply in_app_or in Hb. destruct Hb as [Hb|[Hb|Hb]].
  - exfalso. apply (Hne b); [apply in_or_app; now left|now symmetry].
  - exact Hb.
  - exfalso. apply (Hne b); [apply in_or_app; now right|now symmetry].
Qed.

Lemma holding_in h w job : holding h w = Some job -> In (w, job) h.
Proof.
  unfold holding. destruct (find _ h) as [e|] eqn:E; [|discriminate].
  intros H. inversion H; subst job. apply find_some in E. destruct E as [Hin Hw].
  apply String.eqb_eq in Hw. subst w. now destruct e.
Qed.

Lemma in_release h w e : In e (release h w) -> In e h.
Proof. unfold release. intros H. apply filter_In in H. apply H. Qed.

(** The selected row of a claim is ready, so it is not in a terminal state. *)
Lemma fetch_and_lock_keeps_terminal t now w r :
  pk_unique t -> In r t -> (state r = completed \/ state r = dead) ->
  In r (fst (fetch_and_lock_next_job t now w)).
Proof.
  intros Hpk Hin Hterm. pose proof (fetch_and_lock_cases t now w Hpk) as H.
  destruct (fetch_and_lock_next_job t now w) as [t' [job|]]; simpl.
  - destruct H as (row & l1 & l2 & Ht & _ & [Hst _] & _ & _ & Ht').
    subst t t'. apply in_app_or in Hin. apply in_or_app.
    destruct Hin as [Hin|[Hin|Hin]]; [now left| |right; now right].
    subst r. destruct Hst, Hterm; congruence.
  - destruct H as [-> _]. exact Hin.
Qed.

(** A claim never returns a job whose row is in state processing (nor a
    finished one): the row it returns was pending or failed. *)
Lemma fetch_and_lock_skips_processing t now w job r :
  pk_unique t -> snd (fetch_and_lock_next_job t now w) = Some job ->
  In r t -> id r = id job -> state r = pending \/ state r = failed.
Proof.
  intros Hpk Hjob Hin Hid. pose proof (fetch_and_lock_cases t now w Hpk) as H.
  destruct (fetch_and_lock_next_job t now w) as [t' [j|]]; simpl in Hjob;
    [|discriminate].
  inversion Hjob; subst j; clear Hjob.
  destruct H as (row & l1 & l2 & Ht & _ & [Hst _] & _ & Hclaimed & _).
  assert (Hrow : In row t) by (rewrite Ht; apply in_or_app; right; now left).
  assert (E : r = row).
  { apply (pk_same_id t r row Hpk Hin Hrow). rewrite Hid, Hclaimed. reflexivity. }
  now rewrite E.
Qed.


End EngineFrame.

(** ** The engine: the attempt counter *)

Section EngineInvariant.
Import Engine.

Lemma pk_update_where p f t :
  (forall r, id (f r) = id r) -> pk_unique t -> pk_unique (update_where p f t).
Proof.
  intros Hf. unfold pk_unique. now rewrite (update_where_ids p f t Hf).
Qed.

Lemma pk_upsert_job t job : pk_unique t -> pk_unique (upsert_job t job).
Proof.
  intros Hpk. unfold upsert_job.
  destruct (existsb (has_id (id job)) t) eqn:Hex.
  - apply pk_update_where; [reflexivity|exact Hpk].
  - unfold pk_unique. rewrite map_app. simpl. apply NoDup_app.
    + exact Hpk.
    + constructor; [intros []|constructor].
    + intros a Ha [<-|[]]. apply in_map_iff in Ha. destruct Ha as (r & Hid & Hin).
      assert (Hc : existsb (has_id (id job)) t = true).
      { apply existsb_has_id. now exists r. }
      congruence.
Qed.

(** Rewriting rows in place keeps what the held rows rely on, as long as
    ids and [max_retries] are kept. *)
Lemma snap_ok_update_where p f t j :
  (forall r, id (f r) = id r /\ max_retries (f r) = max_retries r) ->
  snap_ok t j -> snap_ok (update_where p f t) j.
Proof.
  intros Hf [Hj Hrows]. split; [exact Hj|].
  intros r' Hin Hid. apply in_update_where in Hin.
  destruct Hin as [[Hin _]|(r & Hin & _ & ->)].
  - now apply Hrows.
  - destruct (Hf r) as [Ei Em]. rewrite Em. apply Hrows; [exact Hin|congruence].
Qed.

Lemma rows_ok_update_where p f t :
  (forall r, In r t -> row_ok r) ->
  (forall r, In r t -> p r = true -> row_ok r -> row_ok (f r)) ->
  forall r', In r' (update_where p f t) -> row_ok r'.
Proof.
  intros Hok Hf r' Hin. apply in_update_where in Hin.
  destruct Hin as [[Hin _]|(r & Hin & Hp & ->)]; [now apply Hok|].
  apply Hf; auto.
Qed.

Lemma engine_inv_init : engine_inv init.
Proof.
  unfold engine_inv, init; simpl. split; [constructor|]. split; intros; contradiction.
Qed.

(** What [enqueue] and [dlq_retry] write is a pending row with the counter
    at zero. *)
Lemma upserted_fresh s e job :
  upserted s e = Some job -> state job = pending /\ attempts job = 0.
Proof.
  destruct e; simpl; try discriminate.
  - intros H. inversion H. now split.
  - destruct (holding (retrying s) p); simpl; [|discriminate].
    intros H. inversion H. now split.
Qed.

Lemma engine_inv_upsert s e job rt ex :
  engine_inv s -> keeps_held_budget s e -> upserted s e = Some job ->
  engine_inv (mkSys (upsert_job (table s) job) (held s) rt ex).
Proof.
  intros (Hpk & Hrows & Hsnaps) Hkeep Hup.
  destruct (upserted_fresh s e job Hup) as [Hst Hat].
  unfold keeps_held_budget, lowers_held_budget in Hkeep. rewrite Hup in Hkeep.
  unfold engine_inv; simpl.
  split; [now apply pk_upsert_job|]. split.
  - intros r' Hin. apply in_upsert_job in Hin.
    destruct Hin as [[Hin _]|[->|(old & _ & _ & ->)]].
    + now apply Hrows.
    + unfold row_ok. rewrite Hat. split; [lia|intros _; lia].
    + unfold row_ok; simpl. rewrite Hat. split; [lia|intros _; lia].
  - intros w j Hin. destruct (Hsnaps w j Hin) as [Hj Hr]. split; [exact Hj|].
    assert (Hsame : id j = id job -> max_retries j <= max_retries job).
    { intros E. destruct (Z.ltb_spec (max_retries job) (max_retries j)) as [Em|Em];
        [|exact Em].
      assert (Hc : existsb (fun h => has_id (id job) (snd h) &&
                       (max_retries job <? max_retries (snd h))) (held s) = true).
      { apply existsb_exists. exists (w, j). split; [exact Hin|]. simpl.
        rewrite (proj2 (has_id_true (id job) j) E).
        now rewrite (proj2 (Z.ltb_lt _ _) Em). }
      congruence. }
    intros r' Hin' Hid. apply in_upsert_job in Hin'.
    destruct Hin' as [[Hin' _]|[->|(old & _ & Hold & ->)]].
    + now apply Hr.
    + apply Hsame. now symmetry.
    + simpl in *. apply Hsame. congruence.
Qed.

Lemma engine_inv_recover s now rt ex :
  engine_inv s -> engine_inv (mkSys (recover_processing (table s) now) (held s) rt ex).
Proof.
  intros (Hpk & Hrows & Hsnaps). unfold engine_inv, recover_processing; simpl.
  split; [apply pk_update_where; [reflexivity|exact Hpk]|]. split.
  - apply rows_ok_update_where; [exact Hrows|].
    intros r _ Hp [Hb Hl]. apply in_state_true in Hp.
    assert (Hlive : live r) by (unfold live; rewrite Hp; split; discriminate).
    unfold row_ok; simpl. split; [exact Hb|intros _; now apply Hl].
  - intros w j Hin. apply snap_ok_update_where; [now split|now apply (Hsnaps w)].
Qed.

Lemma engine_inv_claim s now w rt ex (ex' : Job -> list string) :
  engine_inv s ->
  engine_inv
    (match fetch_and_lock_next_job (table s) now w with
     | (t, Some job) => mkSys t ((w, job) :: held s) rt (ex' job)
     | (t, None) => mkSys t (held s) rt ex
     end).
Proof.
  intros (Hpk & Hrows & Hsnaps).
  pose proof (fetch_and_lock_cases (table s) now w Hpk) as Hc.
  destruct (fetch_and_lock_next_job (table s) now w) as [t' [job|]].
  - destruct Hc as (row & l1 & l2 & Ht & Hne & [Hst _] & _ & Hjob & Ht').
    assert (Hrow : In row (table s)).
    { rewrite Ht. apply in_or_app. right. now left. }
    assert (Hin' : forall r, In r t' -> r = job \/ (In r (table s) /\ id r <> id row)).
    { intros r Hr. rewrite Ht' in Hr. apply in_app_or in Hr.
      destruct Hr as [Hr|[Hr|Hr]].
      - right. split; [rewrite Ht; apply in_or_app; now left|].
        apply Hne. apply in_or_app. now left.
      - left. now symmetry.
      - right. split; [rewrite Ht; apply in_or_app; right; now right|].
        apply Hne. apply in_or_app. now right. }
    assert (Hlive : live row) by (unfold live; destruct Hst as [-> | ->]; split; discriminate).
    destruct (Hrows row Hrow) as [Hb Hl]. specialize (Hl Hlive).
    unfold engine_inv; simpl. split; [|split].
    + unfold pk_unique in *. rewrite Ht', map_app. simpl.
      rewrite Ht, map_app in Hpk. simpl in Hpk. now rewrite Hjob.
    + intros r Hr. destruct (Hin' r Hr) as [->|[Hr' _]]; [|now apply Hrows].
      rewrite Hjob. unfold row_ok; simpl. split; [exact Hb|intros _; exact Hl].
    + intros w' j [E|Hin].
      * inversion E; subst w' j. split.
        -- rewrite Hjob; simpl. lia.
        -- intros r Hr Hid. destruct (Hin' r Hr) as [->|[_ Hne']]; [reflexivity|].
           rewrite Hjob in Hid. simpl in Hid. contradiction.
      * destruct (Hsnaps w' j Hin) as [Hj Hr]. split; [exact Hj|].
        intros r Hr' Hid. destruct (Hin' r Hr') as [->|[Hr'' _]]; [|now apply Hr].
        rewrite Hjob in *. simpl in *. now apply Hr.
  - destruct Hc as [-> _]. unfold engine_inv; simpl.
    split; [exact Hpk|split; [exact Hrows|exact Hsnaps]].
Qed.

Lemma engine_inv_succeed s w now job rt ex :
  engine_inv s -> holding (held s) w = Some job ->
  engine_inv (mkSys (mark_completed (table s) (id job) now) (release (held s) w) rt ex).
Proof.
  intros (Hpk & Hrows & Hsnaps) Hh. unfold engine_inv, mark_completed; simpl.
  split; [apply pk_update_where; [reflexivity|exact Hpk]|]. split.
  - apply rows_ok_update_where; [exact Hrows|].
    intros r _ _ [Hb _]. unfold row_ok; simpl. split; [exact Hb|].
    intros [Hc _]. now contradiction Hc.
  - intros w' j Hin. apply in_release in Hin.
    apply snap_ok_update_where; [now split|now apply (Hsnaps w')].
Qed.

Lemma engine_inv_fail s w err next now job t' rt ex :
  engine_inv s -> holding (held s) w = Some job ->
  mark_failed_or_dead (table s) (id job) (attempts job + 1) (max_retries job)
    (substring 0 512 err) (Some next) now = Some t' ->
  engine_inv (mkSys t' (release (held s) w) rt ex).
Proof.
  intros (Hpk & Hrows & Hsnaps) Hh Hm.
  destruct (Hsnaps w job (holding_in _ _ _ Hh)) as [Hj Hsame].
  unfold mark_failed_or_dead in Hm.
  destruct (Z.geb_spec (attempts job + 1) (max_retries job)) as [Hge|Hlt];
    inversion Hm; subst t'; clear Hm; unfold engine_inv; simpl.
  - split; [apply pk_update_where; [reflexivity|exact Hpk]|]. split.
    + apply rows_ok_update_where; [exact Hrows|].
      intros r Hr Hp _. apply has_id_true in Hp.
      pose proof (Hsame r Hr Hp) as Hm. unfold row_ok; simpl. split; [lia|].
      intros [_ Hc]. now contradiction Hc.
    + intros w' j Hin. apply in_release in Hin.
      apply snap_ok_update_where; [now split|now apply (Hsnaps w')].
  - split; [apply pk_update_where; [reflexivity|exact Hpk]|]. split.
    + apply rows_ok_update_where; [exact Hrows|].
      intros r Hr Hp _. apply has_id_true in Hp.
      pose proof (Hsame r Hr Hp) as Hm. unfold row_ok; simpl.
      split; [lia|intros _; lia].
    + intros w' j Hin. apply in_release in Hin.
      apply snap_ok_update_where; [now split|now apply (Hsnaps w')].
Qed.

Lemma engine_inv_step s e s' :
  engine_inv s -> keeps_held_budget s e -> step s e = Some s' -> engine_inv s'.
Proof.
  intros Hinv Hkeep Hstep.
  destruct e as [i cmd max prio now|p i|p now|w now|w now|w now|w err next now|w];
    simpl in Hstep.
  - inversion Hstep; subst s'.
    now apply (engine_inv_upsert s (Enqueue i cmd max prio now)).
  - destruct (holding (retrying s) p); [discriminate|].
    destruct (get_job (table s) i) as [row|]; [|discriminate].
    destruct (negb (in_state dead row)); [discriminate|].
    inversion Hstep; subst s'. exact Hinv.
  - destruct (holding (retrying s) p) as [row|] eqn:Hp; [|discriminate].
    inversion Hstep; subst s'.
    apply (engine_inv_upsert s (DlqWrite p now)); [exact Hinv|exact Hkeep|].
    simpl. now rewrite Hp.
  - destruct (holding (held s) w); [discriminate|].
    inversion Hstep; subst s'. now apply engine_inv_recover.
  - destruct (holding (held s) w); [discriminate|].
    pose proof (engine_inv_claim s now w (retrying s) (executed s)
                  (fun job => executed s ++ [id job]) Hinv) as Hc.
    destruct (fetch_and_lock_next_job (table s) now w) as [t' [job|]];
      inversion Hstep; subst s'; exact Hc.
  - destruct (holding (held s) w) as [job|] eqn:Hh; [|discriminate].
    inversion Hstep; subst s'. now apply engine_inv_succeed.
  - destruct (holding (held s) w) as [job|] eqn:Hh; [|discriminate].
    destruct (mark_failed_or_dead _ _ _ _ _ _ _) as [t'|] eqn:Hm; [|discriminate].
    inversion Hstep; subst s'. now apply (engine_inv_fail s w err next now job).
  - destruct (holding (held s) w) as [job|]; [|discriminate].
    inversion Hstep; subst s'. destruct Hinv as (Hpk & Hrows & Hsnaps).
    split; [exact Hpk|]. split; [exact Hrows|].
    intros w' j' Hin. apply in_release in Hin. now apply (Hsnaps w').
Qed.

Lemma engine_inv_reachable s : reachable_from keeps_held_budget s -> engine_inv s.
Proof.
  induction 1 as [|s e s' _ IH Hkeep Hstep]; [apply engine_inv_init|].
  exact (engine_inv_step s e s' IH Hkeep Hstep).
Qed.

(** C5 (as the code has it): in every state the engine reaches from the
    empty queue by enqueues, DLQ retries (their read and their write apart),
    worker start-ups, claims, finalizations and interruptions, in any
    interleaving in which no enqueue and no DLQ retry lowers the
    [max_retries] of a job that a worker is executing, every row has
    [0 <= attempts <= max(1, max_retries)]; so [attempts <= max_retries] for
    every job whose [max_retries] is at least one. *)
Theorem attempts_within_budget (s : Sys) (r : Job) :
  reachable_from keeps_held_budget s -> In r (table s) ->
  0 <= attempts r <= Z.max 1 (max_retries r) /\
  (1 <= max_retries r -> attempts r <= max_retries r).
Proof.
  intros Hreach Hin. apply engine_inv_reachable in Hreach.
  destruct Hreach as (_ & Hrows & _). destruct (Hrows r Hin) as [Hb _].
  split; [exact Hb|lia].
Qed.

End EngineInvariant.

(** ** Runs of the engine *)

Section EngineRuns.
Import Engine.

(** C2 fails on the code: [worker_loop] calls [recover_processing] on entry,
    which rewrites every processing row, also the row another worker is
    executing; the worker that starts second then claims the same job, and
    both workers hold it. *)
Theorem second_worker_claims_held_job :
  option_map Sample.held_ids (run init Sample.second_worker_run) =
  Some [("w-b", "j"); ("w-a", "j")].
Proof. reflexivity. Qed.

(** C5 fails as stated: a job enqueued with [max_retries = 0] is executed
    once and its failure is recorded with [attempts = 1]. *)
Lemma attempts_exceed_zero_budget :
  option_map (fun s => map (fun r => (state r, attempts r, max_retries r)) (table s))
    (run init Sample.zero_budget_run) = Some [(dead, 1, 0)] /\
  ~ (0 <= 1 <= 0).
Proof. split; [reflexivity|lia]. Qed.

(** The bound also fails when a job is re-enqueued with a smaller budget
    while a worker executes it: the worker finalizes with the counter and
    the budget it read. *)
Lemma attempts_exceed_replaced_budget :
  option_map (fun s => map (fun r => (state r, attempts r, max_retries r)) (table s))
    (run init Sample.replaced_while_held_run) = Some [(dead, 2, 1)] /\
  ~ (2 <= Z.max 1 1).
Proof. split; [reflexivity|lia]. Qed.

(** So it does when the write of a [dlq_retry] lands on a job that was
    enqueued again with a larger budget and is being executed: the row gets
    the budget the retry read, the worker finalizes with the one it read. *)
Lemma attempts_exceed_after_stale_retry :
  option_map (fun s => map (fun r => (state r, attempts r, max_retries r)) (table s))
    (run init Sample.stale_retry_run) = Some [(failed, 2, 1)] /\
  ~ (2 <= Z.max 1 1).
Proof. split; [reflexivity|lia]. Qed.


(** A worker that holds a job it no longer owns overwrites a completed row
    when it finalizes: the finalizing [UPDATE]s select by id alone.  The
    double claim that leads there is what [second_worker_run] shows. *)
Lemma stale_holder_overwrites_completed :
  exists s s',
    run init Sample.stale_holder_run = Some s /\
    Sample.state_of (table s) "j" = Some completed /\
    step s (Fail "w-a" "exit 1" Sample.t3 Sample.t2) = Some s' /\
    Sample.state_of (table s') "j" = Some failed.
Proof. eexists _, _. repeat split. Qed.

(** The write of a [dlq_retry] that lands on a job in execution makes the
    job claimable again, and two workers hold it. *)
Lemma overlapping_retries_double_claim :
  option_map Sample.held_ids (run init Sample.overlapping_retries_run) =
  Some [("w-2", "d"); ("w-1", "d")].
Proof. reflexivity. Qed.

(** An execution that is interrupted is not counted in [attempts]: the job
    is executed again after its recovery, here twice on a budget of one. *)
Lemma interrupted_job_runs_again :
  option_map
    (fun s => (executions s "d",
               map (fun r => (state r, attempts r, max_retries r)) (table s)))
    (run init Sample.interrupted_run) = Some (2%nat, [(dead, 1, 1)]).
Proof. reflexivity. Qed.

(** [dlq_retry] run without interruption is its read followed by its
    write. *)
Lemma dlq_read_then_write (s s1 s2 : Sys) (p i now : string) :
  step s (DlqRead p i) = Some s1 -> step s1 (DlqWrite p now) = Some s2 ->
  Cli.dlq_retry (table s) i now = (table s2, Cli.Done).
Proof.
  simpl. unfold Cli.dlq_retry.
  destruct (holding (retrying s) p); [discriminate|].
  destruct (get_job (table s) i) as [row|]; [|discriminate].
  destruct (negb (in_state dead row)); [discriminate|].
  intros H1. inversion H1; subst s1; clear H1. unfold holding. simpl.
  rewrite String.eqb_refl. simpl. intros H2. inversion H2; subst s2. reflexivity.
Qed.

(** C8 fails as stated: the [created_at] of the stored row survives a
    re-enqueue, the newly supplied one is dropped. *)
Lemma reenqueue_keeps_created_at :
  let job := Cli.enqueue_job "a" "echo again" 3 0 Sample.t3 in
  option_map created_at (get_job (upsert_job [Sample.job_a] job) "a") = Some Sample.t0 /\
  created_at job = Sample.t3 /\
  Sample.t0 <> Sample.t3.
Proof. repeat split. discriminate. Qed.

End EngineRuns.

(** ** Passes of the worker loop *)

Section Passes.
Import Worker.

Variable run_command : nat -> string -> Z * string.
Variable clock : nat -> string.
Variable later : nat -> Q -> option string.
Variable py_float : string -> option Q.

Lemma iterate_add worker n m st :
  iterate run_command clock later py_float (n + m) worker st =
  match iterate run_command clock later py_float n worker st with
  | (Continue, st') => iterate run_command clock later py_float m worker st'
  | stopped => stopped
  end.
Proof.
  revert st. induction n as [|n IH]; intros st; simpl; [reflexivity|].
  destruct (iteration run_command clock later py_float worker st) as [[| |] st'];
    try reflexivity.
  apply IH.
Qed.

Lemma register_worker_new ws worker pid now :
  (forall w, In w ws -> w_id w <> worker) ->
  register_worker ws worker pid now = Some (ws ++ [mkWorker worker pid now None]).
Proof.
  intros Hnew. unfold register_worker.
  destruct (existsb _ ws) eqn:E; [|reflexivity].
  apply existsb_exists in E. destruct E as (w & Hin & Hw).
  apply String.eqb_eq in Hw. now destruct (Hnew w Hin).
Qed.

End Passes.

(** ** Concrete runs of the worker loop *)

Section LoopRuns.
Import Worker.


Example three_failures_then_dead :
  option_map
    (fun d1 => Sample.summary
       (worker_loop Sample.always_fails Sample.clock Sample.later Sample.py_float
          "w-1" 100 9 (mkLoop d1 1 [])))
    (Cli.enqueue Sample.py_int Sample.empty_db "z" "false" None 0 (Sample.clock 0))
  = Some (Continue, [(dead, 3, 3)], ["z"; "z"; "z"]).
Proof. reflexivity. Qed.

Example success_then_completed :
  option_map
    (fun d1 => Sample.summary
       (worker_loop Sample.always_succeeds Sample.clock Sample.later Sample.py_float
          "w-1" 100 9 (mkLoop d1 1 [])))
    (Cli.enqueue Sample.py_int Sample.empty_db "z" "true" None 0 (Sample.clock 0))
  = Some (Continue, [(completed, 0, 3)], ["z"]).
Proof. reflexivity. Qed.

End LoopRuns.

(** ** The theorems at concrete inputs *)

Section Instances.
Import Worker Engine.

Lemma sample_queue_pk : pk_unique Sample.queue.
Proof.
  unfold pk_unique. simpl.
  repeat (constructor; [simpl; intuition discriminate|]). constructor.
Qed.

Lemma fetch_and_lock_next_job_spec_witness :
  pk_unique Sample.queue /\
  match fetch_and_lock_next_job Sample.queue Sample.t2 "w-2" with
  | (t', None) =>
      t' = Sample.queue /\ forall r, In r Sample.queue -> ~ eligible Sample.t2 r
  | (t', Some job) =>
      exists row l1 l2,
        Sample.queue = l1 ++ row :: l2 /\
        eligible Sample.t2 row /\
        (forall r, In r Sample.queue -> eligible Sample.t2 r -> no_later row r) /\
        job = mkJob (id row) (command row) processing (attempts row)
                (max_retries row) (created_at row) Sample.t2 (next_run_at row)
                (last_error row) (priority row) (Some "w-2") /\
        t' = l1 ++ job :: l2
  end.
Proof.
  split; [exact sample_queue_pk|].
  exact (fetch_and_lock_next_job_spec Sample.queue Sample.t2 "w-2" sample_queue_pk).
Defined.

Lemma mark_failed_or_dead_spec_witness :
  pk_unique Sample.queue /\ get_job Sample.queue "e" = Some Sample.job_e /\
  exists l1 l2, Sample.queue = l1 ++ Sample.job_e :: l2 /\
    (3 >= 3 -> forall nxt,
       mark_failed_or_dead Sample.queue "e" 3 3 "boom" nxt Sample.t2 =
       Some (l1 ++ mkJob "e" (command Sample.job_e) dead 3 (max_retries Sample.job_e)
                     (created_at Sample.job_e) Sample.t2 (next_run_at Sample.job_e)
                     (Some "boom") (priority Sample.job_e) None :: l2)) /\
    (3 < 3 ->
       mark_failed_or_dead Sample.queue "e" 3 3 "boom" (Some Sample.t3) Sample.t2 =
       Some (l1 ++ mkJob "e" (command Sample.job_e) failed 3 (max_retries Sample.job_e)
                     (created_at Sample.job_e) Sample.t2 Sample.t3
                     (Some "boom") (priority Sample.job_e) None :: l2)).
Proof.
  split; [exact sample_queue_pk|]. split; [reflexivity|].
  exact (mark_failed_or_dead_spec Sample.queue "e" 3 3 "boom" Sample.t3 Sample.t2
           Sample.job_e sample_queue_pk eq_refl).
Defined.

Lemma dlq_retry_spec_witness :
  pk_unique Sample.queue /\
  match Cli.dlq_retry Sample.queue "d" Sample.t3 with
  | (t', Cli.Done) =>
      exists row l1 l2,
        Sample.queue = l1 ++ row :: l2 /\ id row = "d" /\ state row = dead /\
        t' = l1 ++ mkJob "d" (command row) pending 0 (max_retries row)
                     (created_at row) Sample.t3 Sample.t3 None (priority row) None :: l2
  | (t', Cli.Exit code) =>
      code = 1 /\ t' = Sample.queue /\
      forall r, In r Sample.queue -> id r = "d" -> state r <> dead
  end.
Proof.
  split; [exact sample_queue_pk|].
  exact (dlq_retry_spec Sample.queue "d" Sample.t3 sample_queue_pk).
Defined.

Lemma dlq_retry_frame_witness :
  exists t' row' l1 l2,
    Cli.dlq_retry Sample.queue "d" Sample.t3 = (t', Cli.Done) /\
    Sample.queue = l1 ++ Sample.job_d :: l2 /\ t' = l1 ++ row' :: l2 /\
    get_job t' "d" = Some row' /\
    id row' = id Sample.job_d /\ command row' = command Sample.job_d /\
    priority row' = priority Sample.job_d /\
    max_retries row' = max_retries Sample.job_d /\
    created_at row' = created_at Sample.job_d.
Proof.
  exact (dlq_retry_frame Sample.queue "d" Sample.t3 Sample.job_d
           sample_queue_pk eq_refl eq_refl).
Defined.

Lemma reenqueue_replaces_all_but_created_at_witness :
  exists l1 l2 m,
    Sample.queue = l1 ++ Sample.job_b :: l2 /\
    upsert_job Sample.queue (Cli.enqueue_job "b" "echo again" 7 2 Sample.t3) =
    l1 ++ mkJob "b" "echo again" pending 0 m (created_at Sample.job_b)
            Sample.t3 Sample.t3 None 2 None :: l2 /\
    (Some 7 = Some m \/
     Some 7 = None /\ Sample.py_int (config_get [] "max_retries" "3") = Some m).
Proof.
  exact (reenqueue_replaces_all_but_created_at Sample.py_int
           (mkDB Sample.queue [] []) _ "b" "echo again" (Some 7) 2 Sample.t3
           Sample.job_b sample_queue_pk eq_refl eq_refl).
Defined.


Lemma busy_pk : pk_unique (table Sample.busy).
Proof.
  unfold pk_unique; simpl. repeat constructor; simpl; intuition discriminate.
Qed.

Lemma busy_locked : held_rows_locked Sample.busy.
Proof.
  intros w j [E|[]]. inversion E; subst w j. exists Sample.job_e.
  split; [right; now left|]. now repeat split.
Qed.


Lemma after_dead_letter_reachable :
  reachable_from keeps_held_budget Sample.after_dead_letter.
Proof.
  eapply reach_step with (e := Fail "w-1" "exit 1" Sample.t3 Sample.t2).
  - eapply reach_step with (e := Claim "w-1" Sample.t1).
    + eapply reach_step with (e := Enqueue "d" "false" 1 0 Sample.t0).
      * apply reach_init.
      * reflexivity.
      * reflexivity.
    + reflexivity.
    + reflexivity.
  - reflexivity.
  - reflexivity.
Qed.

Lemma attempts_within_budget_witness :
  In Sample.dead_d (table Sample.after_dead_letter) /\
  0 <= attempts Sample.dead_d <= Z.max 1 (max_retries Sample.dead_d) /\
  (1 <= max_retries Sample.dead_d -> attempts Sample.dead_d <= max_retries Sample.dead_d).
Proof.
  split; [now left|].
  apply (attempts_within_budget Sample.after_dead_letter Sample.dead_d).
  - exact after_dead_letter_reachable.
  - now left.
Defined.

Lemma sample_clock_late m : (10 <= m)%nat -> Sample.clock m = Sample.clock 10.
Proof.
  intros H. do 10 (destruct m as [|m]; [lia|]). reflexivity.
Qed.

Lemma sample_clock_past n : eventually_past Sample.clock (Sample.clock n).
Proof.
  exists 10%nat. intros m Hm. rewrite (sample_clock_late m Hm).
  do 10 (destruct n as [|n]; [vm_compute; discriminate|]).
  vm_compute; discriminate.
Qed.

Lemma sample_later_past n delay t :
  Sample.later n delay = Some t -> eventually_past Sample.clock t.
Proof.
  unfold Sample.later. intros H.
  assert (E : t = Sample.clock (S n)) by congruence.
  rewrite E. apply sample_clock_past.
Qed.

End Instances.

(** * Further properties of the storage layer *)

(** ** Orphan recovery *)

Section Recovery.

(** X1: after [recover_processing] no row is in state processing; the rows
    that were not are kept as they are, every row that was is now failed,
    due at [now], with a null worker id and its other columns kept; and a
    second recovery changes nothing. *)
Theorem recover_processing_spec (t : Jobs) (now : string) :
  (forall r, In r (recover_processing t now) -> state r <> processing) /\
  (forall r, In r t -> state r <> processing -> In r (recover_processing t now)) /\
  (forall r, In r t -> state r = processing ->
     In (mkJob (id r) (command r) failed (attempts r) (max_retries r)
           (created_at r) now now (last_error r) (priority r) None)
        (recover_processing t now)) /\
  (forall now', recover_processing (recover_processing t now) now' =
                recover_processing t now) /\
  List.length (recover_processing t now) = List.length t.
Proof.
  unfold recover_processing. repeat split.
  - intros r Hin. apply in_update_where in Hin.
    destruct Hin as [[_ Hp]|(x & _ & _ & ->)]; [|discriminate].
    intros E. apply in_state_true in E. congruence.
  - intros r Hin Hst. apply update_where_keeps; [exact Hin|].
    destruct (in_state processing r) eqn:E; [|reflexivity].
    apply in_state_true in E. contradiction.
  - intros r Hin Hst. unfold update_where. apply in_map_iff. exists r.
    split; [|exact Hin]. apply in_state_true in Hst. now rewrite Hst.
  - intros now'. apply update_where_miss. intros r Hin.
    apply in_update_where in Hin.
    destruct Hin as [[_ Hp]|(x & _ & _ & ->)]; [exact Hp|reflexivity].
  - unfold update_where. apply length_map.
Qed.

End Recovery.

(** ** The configuration table *)

Section Configuration.
Import ConfigFile.

Lemma find_key_map (c : Config) (k k' v : string) :
  find (fun kv => String.eqb (fst kv) k')
       (map (fun kv => if String.eqb (fst kv) k then (k, v) else kv) c) =
  option_map (fun kv => if String.eqb (fst kv) k then (k, v) else kv)
             (find (fun kv => String.eqb (fst kv) k') c).
Proof.
  induction c as [|[a b] c IH]; simpl; [reflexivity|].
  destruct (String.eqb a k) eqn:Eak; simpl.
  - apply String.eqb_eq in Eak. subst a.
    destruct (String.eqb k k'); [simpl; now rewrite String.eqb_refl|exact IH].
  - destruct (String.eqb a k'); [simpl; now rewrite Eak|exact IH].
Qed.

Lemma find_key_app (c : Config) (k k' v : string) :
  find (fun kv => String.eqb (fst kv) k') (c ++ [(k, v)]) =
  match find (fun kv => String.eqb (fst kv) k') c with
  | Some kv => Some kv
  | None => if String.eqb k k' then Some (k, v) else None
  end.
Proof.
  induction c as [|[a b] c IH]; simpl; [reflexivity|].
  destruct (String.eqb a k'); [reflexivity|exact IH].
Qed.

Lemma existsb_key_find (c : Config) (k : string) :
  existsb (fun kv => String.eqb (fst kv) k) c = true <->
  exists kv, find (fun kv => String.eqb (fst kv) k) c = Some kv /\ fst kv = k.
Proof.
  induction c as [|[a b] c IH]; simpl.
  - split; [discriminate|intros (kv & H & _); discriminate].
  - destruct (String.eqb a k) eqn:E; simpl.
    + split; [|reflexivity]. intros _. exists (a, b). split; [reflexivity|].
      now apply String.eqb_eq.
    + exact IH.
Qed.

(** What a lookup finds after [config_set]. *)
Lemma find_key_config_set (c : Config) (k k' v : string) :
  find (fun kv => String.eqb (fst kv) k') (config_set c k v) =
  if String.eqb k k' then Some (k, v)
  else find (fun kv => String.eqb (fst kv) k') c.
Proof.
  unfold config_set.
  destruct (existsb (fun kv => String.eqb (fst kv) k) c) eqn:Hex.
  - rewrite find_key_map.
    destruct (String.eqb k k') eqn:Ekk.
    + apply String.eqb_eq in Ekk. subst k'.
      apply existsb_key_find in Hex. destruct Hex as (kv & Hfind & Hk).
      rewrite Hfind. simpl. rewrite Hk, String.eqb_refl. reflexivity.
    + destruct (find (fun kv => String.eqb (fst kv) k') c) as [kv|] eqn:Hfind;
        [|reflexivity].
      simpl. apply find_some in Hfind. destruct Hfind as [_ Hk'].
      apply String.eqb_eq in Hk'.
      destruct (String.eqb (fst kv) k) eqn:E; [|reflexivity].
      apply String.eqb_eq in E. apply String.eqb_neq in Ekk. congruence.
  - rewrite find_key_app.
    destruct (String.eqb k k') eqn:Ekk.
    + apply String.eqb_eq in Ekk. subst k'.
      destruct (find (fun kv => String.eqb (fst kv) k) c) as [kv|] eqn:Hfind;
        [|reflexivity].
      assert (Hc : existsb (fun kv => String.eqb (fst kv) k) c = true).
      { apply existsb_key_find. exists kv. split; [exact Hfind|].
        apply String.eqb_eq. exact (proj2 (find_some _ _ Hfind)). }
      congruence.
    + now destruct (find (fun kv => String.eqb (fst kv) k') c).
Qed.

(** X2: a value written with [config_set] (or [set_config]) is the one
    [config_get] (or [get_config]) reads back, whatever the default, and the
    write leaves the value of every other key as it was. *)
Theorem config_set_then_get (c : Config) (k v k' default : string) :
  k' <> k ->
  config_get (config_set c k v) k default = v /\
  get_config (set_config c k v) k = Some v /\
  config_get (config_set c k v) k' default = config_get c k' default /\
  get_config (set_config c k v) k' = get_config c k'.
Proof.
  intros Hne. apply not_eq_sym in Hne. apply String.eqb_neq in Hne.
  unfold config_get, get_config.
  change (set_config c k v) with (config_set c k v).
  rewrite !find_key_config_set, String.eqb_refl, Hne. now repeat split.
Qed.

End Configuration.

(** ** Defaults written by [init_db] *)

Section Initialization.
Import ConfigFile.

Lemma get_config_insert_do_nothing (c : Config) (k v k' : string) :
  get_config (insert_do_nothing c k v) k' =
  match get_config c k' with
  | Some x => Some x
  | None => if String.eqb k k' then Some v else None
  end.
Proof.
  unfold insert_do_nothing, get_config.
  destruct (existsb (fun kv => String.eqb (fst kv) k) c) eqn:Hex.
  - destruct (find (fun kv => String.eqb (fst kv) k') c) as [kv|] eqn:Hfind;
      [reflexivity|].
    destruct (String.eqb k k') eqn:Ekk; [|reflexivity].
    apply String.eqb_eq in Ekk. subst k'.
    apply existsb_key_find in Hex. destruct Hex as (kv & Hkv & _). congruence.
  - rewrite find_key_app.
    destruct (find (fun kv => String.eqb (fst kv) k') c) as [kv|]; [reflexivity|].
    now destruct (String.eqb k k').
Qed.

Lemma insert_do_nothing_present (c : Config) (k v x : string) :
  get_config c k = Some x -> insert_do_nothing c k v = c.
Proof.
  unfold insert_do_nothing, get_config. intros H.
  destruct (find (fun kv => String.eqb (fst kv) k) c) as [kv|] eqn:Hfind;
    [|discriminate].
  assert (Hex : existsb (fun kv => String.eqb (fst kv) k) c = true).
  { apply existsb_key_find. exists kv. split; [exact Hfind|].
    apply String.eqb_eq. exact (proj2 (find_some _ _ Hfind)). }
  now rewrite Hex.
Qed.

(** What every key reads as after [init_db]. *)
Lemma init_db_lookup (d : DB) (k : string) :
  get_config (config (init_db d)) k =
  match get_config (config d) k with
  | Some x => Some x
  | None =>
      if String.eqb "max_retries" k then Some "3"
      else if String.eqb "backoff_base" k then Some "2.0"
      else if String.eqb "shutdown" k then Some "false"
      else None
  end.
Proof.
  unfold init_db, DEFAULTS. cbn [config fold_left fst snd].
  rewrite !get_config_insert_do_nothing.
  destruct (get_config (config d) k); [reflexivity|].
  destruct (String.eqb "max_retries" k); [reflexivity|].
  now destruct (String.eqb "backoff_base" k).
Qed.

(** X3: [init_db] keeps every value the configuration already holds, gives
    [max_retries], [backoff_base] and [shutdown] the values 3, 2.0 and false
    where they are absent, adds no other key, leaves jobs and workers alone,
    and run again (as it is on every new connection) changes nothing. *)
Theorem init_db_spec (d : DB) :
  (forall k v, get_config (config d) k = Some v ->
     get_config (config (init_db d)) k = Some v) /\
  (forall k v, In (k, v) (DEFAULTS ++ [("shutdown", "false")]) ->
     get_config (config d) k = None ->
     get_config (config (init_db d)) k = Some v) /\
  (forall k, get_config (config d) k = None ->
     ~ In k ["max_retries"; "backoff_base"; "shutdown"] ->
     get_config (config (init_db d)) k = None) /\
  init_db (init_db d) = init_db d /\
  jobs (init_db d) = jobs d /\ workers (init_db d) = workers d.
Proof.
  split; [|split; [|split; [|split; [|split; reflexivity]]]].
  - intros k v H. now rewrite init_db_lookup, H.
  - intros k v Hin H. rewrite init_db_lookup, H.
    simpl in Hin. destruct Hin as [E|[E|[E|[]]]]; inversion E; subst; reflexivity.
  - intros k H Hnot. rewrite init_db_lookup, H.
    destruct (String.eqb "max_retries" k) eqn:E1.
    { apply String.eqb_eq in E1. exfalso. apply Hnot. now left. }
    destruct (String.eqb "backoff_base" k) eqn:E2.
    { apply String.eqb_eq in E2. exfalso. apply Hnot. right. now left. }
    destruct (String.eqb "shutdown" k) eqn:E3; [|reflexivity].
    apply String.eqb_eq in E3. exfalso. apply Hnot. right. right. now left.
  - assert (H1 : exists x, get_config (config (init_db d)) "max_retries" = Some x).
    { rewrite init_db_lookup. destruct (get_config (config d) "max_retries");
        eexists; reflexivity. }
    assert (H2 : exists x, get_config (config (init_db d)) "backoff_base" = Some x).
    { rewrite init_db_lookup. destruct (get_config (config d) "backoff_base");
        eexists; reflexivity. }
    assert (H3 : exists x, get_config (config (init_db d)) "shutdown" = Some x).
    { rewrite init_db_lookup. destruct (get_config (config d) "shutdown");
        eexists; reflexivity. }
    destruct H1 as [x1 H1], H2 as [x2 H2], H3 as [x3 H3].
    unfold init_db at 1. unfold DEFAULTS. cbn [fold_left fst snd].
    rewrite (insert_do_nothing_present _ "max_retries" "3" x1 H1).
    rewrite (insert_do_nothing_present _ "backoff_base" "2.0" x2 H2).
    rewrite (insert_do_nothing_present _ "shutdown" "false" x3 H3).
    now destruct d.
Qed.

End Initialization.

(** ** Insert and lookup *)

Section Lookup.

Lemma get_job_update_where (t : Jobs) (j i : string) (f : Job -> Job) :
  (forall r, id (f r) = id r) -> i <> j ->
  get_job (update_where (has_id j) f t) i = get_job t i.
Proof.
  intros Hf Hne. unfold get_job, update_where.
  induction t as [|x t IH]; simpl; [reflexivity|].
  destruct (has_id j x) eqn:Hj.
  - apply has_id_true in Hj.
    assert (E1 : has_id i (f x) = false).
    { apply has_id_false. rewrite Hf. congruence. }
    assert (E2 : has_id i x = false) by (apply has_id_false; congruence).
    now rewrite E1, E2.
  - destruct (has_id i x); [reflexivity|exact IH].
Qed.

Lemma get_job_app_other (t : Jobs) (job : Job) (i : string) :
  i <> id job -> get_job (t ++ [job]) i = get_job t i.
Proof.
  intros Hne. unfold get_job. induction t as [|x t IH]; simpl.
  - assert (E : has_id i job = false) by (apply has_id_false; congruence).
    now rewrite E.
  - destruct (has_id i x); [reflexivity|exact IH].
Qed.

Lemma on_conflict_update_same (job : Job) : on_conflict_update job job = job.
Proof. now destruct job. Qed.

(** X4: [upsert_job] leaves the lookup of every other id as it was; a new
    id adds one row, which [get_job] then returns as supplied; an existing
    id adds none; and upserting the same job twice is upserting it once. *)
Theorem upsert_job_lookup (t : Jobs) (job : Job) (i : string) :
  i <> id job ->
  get_job (upsert_job t job) i = get_job t i /\
  (get_job t (id job) = None ->
     get_job (upsert_job t job) (id job) = Some job /\
     List.length (upsert_job t job) = S (List.length t)) /\
  (forall old, get_job t (id job) = Some old ->
     List.length (upsert_job t job) = List.length t) /\
  upsert_job (upsert_job t job) job = upsert_job t job.
Proof.
  intros Hne. split; [|split; [|split]].
  - unfold upsert_job. destruct (existsb (has_id (id job)) t).
    + now apply get_job_update_where.
    + now apply get_job_app_other.
  - intros Hnone. rewrite (upsert_job_fresh t job Hnone). split.
    + rewrite <- (app_nil_r (t ++ [job])), <- app_assoc. simpl.
      apply get_job_split; [|reflexivity]. exact (get_job_none t _ Hnone).
    + rewrite length_app. simpl. lia.
  - intros old Hold. unfold upsert_job.
    assert (Hex : existsb (has_id (id job)) t = true)
      by (apply existsb_has_id_get; now exists old).
    rewrite Hex. unfold update_where. apply length_map.
  - destruct (existsb (has_id (id job)) t) eqn:Hex.
    + assert (E : upsert_job t job =
                  update_where (has_id (id job)) (on_conflict_update job) t)
        by (unfold upsert_job; now rewrite Hex).
      rewrite E. unfold upsert_job.
      assert (Hex' : existsb (has_id (id job))
                       (update_where (has_id (id job)) (on_conflict_update job) t) = true).
      { apply existsb_has_id in Hex. destruct Hex as (r & Hin & Hid).
        apply existsb_has_id. exists (on_conflict_update job r). split; [|exact Hid].
        unfold update_where. apply in_map_iff. exists r. split; [|exact Hin].
        apply has_id_true in Hid. now rewrite Hid. }
      rewrite Hex'. unfold update_where. rewrite map_map. apply map_ext.
      intros r. destruct (has_id (id job) r) eqn:Hr; [|now rewrite Hr].
      assert (Hr' : has_id (id job) (on_conflict_update job r) = true) by exact Hr.
      now rewrite Hr'.
    + assert (E : upsert_job t job = t ++ [job])
        by (unfold upsert_job; now rewrite Hex).
      rewrite E. unfold upsert_job.
      assert (Hex' : existsb (has_id (id job)) (t ++ [job]) = true).
      { rewrite existsb_app. simpl. unfold has_id at 2.
        rewrite String.eqb_refl. now rewrite orb_true_r. }
      rewrite Hex', update_where_app. simpl.
      assert (Hj : has_id (id job) job = true) by (apply has_id_true; reflexivity).
      rewrite Hj, on_conflict_update_same. f_equal.
      apply update_where_miss. intros x Hx.
      destruct (has_id (id job) x) eqn:E'; [|reflexivity].
      assert (Hc : existsb (has_id (id job)) t = true).
      { apply existsb_exists. now exists x. }
      congruence.
Qed.

(** X5: [mark_completed] rewrites the row of the given id to state
    completed with [updated_at = now] and a null worker id, and nothing
    else: attempts and the last error stay as they were (a success after
    failures keeps both), as does every other row. *)
Theorem mark_completed_spec (t : Jobs) (i now : string) (row : Job) :
  pk_unique t -> get_job t i = Some row ->
  exists l1 l2, t = l1 ++ row :: l2 /\
    mark_completed t i now =
    l1 ++ mkJob i (command row) completed (attempts row) (max_retries row)
            (created_at row) now (next_run_at row) (last_error row)
            (priority row) None :: l2.
Proof.
  intros Hpk Hget. apply get_job_some in Hget. destruct Hget as [Hin Hid].
  destruct (pk_split t row Hpk Hin) as (l1 & l2 & Ht & Hne).
  exists l1, l2. split; [exact Ht|]. rewrite Hid in Hne.
  unfold mark_completed.
  rewrite Ht, (update_where_split i _ l1 row l2 Hne Hid).
  unfold completed_row. now rewrite Hid.
Qed.

(** X6: finalizing a job whose row does not exist is silent: neither
    [mark_completed] nor [mark_failed_or_dead] changes the table, and neither
    raises when a next run time is supplied. *)
Theorem finalize_unknown_id (t : Jobs) (i : string) (n max : Z)
    (err next now : string) :
  get_job t i = None ->
  mark_completed t i now = t /\
  mark_failed_or_dead t i n max err (Some next) now = Some t.
Proof.
  intros Hnone.
  assert (Hmiss : forall x, In x t -> has_id i x = false).
  { intros x Hx. apply has_id_false. exact (get_job_none t i Hnone x Hx). }
  split.
  - unfold mark_completed. now apply update_where_miss.
  - unfold mark_failed_or_dead.
    destruct (n >=? max); now rewrite update_where_miss.
Qed.

End Lookup.

(** ** What a claim leaves behind, and when a job can be claimed *)

Section ClaimAfter.

Lemma pk_replace_row (l1 l2 : Jobs) (r r' : Job) :
  id r' = id r -> pk_unique (l1 ++ r :: l2) -> pk_unique (l1 ++ r' :: l2).
Proof.
  unfold pk_unique. rewrite !map_app. simpl. now intros ->.
Qed.

Lemma pk_fetch_and_lock (t : Jobs) (now w : string) :
  pk_unique t -> pk_unique (fst (fetch_and_lock_next_job t now w)).
Proof.
  intros Hpk. unfold fetch_and_lock_next_job.
  destruct (order_by_limit1 (filter (ready now) t)); [|exact Hpk].
  simpl. apply pk_update_where; [reflexivity|exact Hpk].
Qed.

Lemma lt_not_le (a b : string) : Text.lt a b -> ~ Text.le b a.
Proof.
  unfold Text.lt, Text.le. intros H Hle. apply Hle.
  now apply compare_gt_lt.
Qed.

Lemma claimed_not_ready (w now now' : string) (r : Job) :
  ready now' (claimed w now r) = false.
Proof. reflexivity. Qed.

(** X7: a claim that returns a job takes it out of the ready set: the
    stored row is the returned one, it is ready at no time, the number of
    ready rows drops by exactly one, and no later claim on the resulting
    table, by any worker at any time, returns that job again. *)
Theorem claim_takes_job_out (t t' : Jobs) (now w : string) (job : Job) :
  pk_unique t -> fetch_and_lock_next_job t now w = (t', Some job) ->
  pk_unique t' /\
  get_job t' (id job) = Some job /\
  (forall now', ready now' job = false) /\
  S (List.length (filter (ready now) t')) = List.length (filter (ready now) t) /\
  (forall now' w' job',
     snd (fetch_and_lock_next_job t' now' w') = Some job' -> id job' <> id job).
Proof.
  intros Hpk Hfetch.
  pose proof (fetch_and_lock_cases t now w Hpk) as Hc. rewrite Hfetch in Hc.
  destruct Hc as (row & l1 & l2 & Ht & Hne & Hel & _ & Hjob & Ht').
  assert (Hid : id job = id row) by (rewrite Hjob; reflexivity).
  assert (Hpk' : pk_unique t').
  { rewrite Ht'. apply (pk_replace_row l1 l2 row job Hid). now rewrite <- Ht. }
  assert (Hget : get_job t' (id job) = Some job).
  { rewrite Ht'. apply get_job_split; [|reflexivity].
    intros x Hx. rewrite Hid. apply Hne. apply in_or_app. now left. }
  split; [exact Hpk'|]. split; [exact Hget|].
  split; [intros now'; rewrite Hjob; apply claimed_not_ready|]. split.
  - rewrite Ht, Ht', !filter_app. simpl.
    assert (Hr : ready now row = true) by now apply ready_eligible.
    rewrite Hr, Hjob, claimed_not_ready, !length_app. simpl. lia.
  - intros now' w' job' Hjob' E.
    destruct (get_job_some _ _ _ Hget) as [Hin _].
    destruct (fetch_and_lock_skips_processing t' now' w' job' job Hpk' Hjob' Hin
                (eq_sym E)) as [Hst|Hst];
      rewrite Hjob in Hst; discriminate.
Qed.

(** X8: a job recorded as failed is not claimed before its [next_run_at]:
    a claim at an earlier time never returns it, whatever else it returns,
    while from [next_run_at] on the job is ready. *)
Theorem failed_job_waits (t : Jobs) (i : string) (n max : Z)
    (err next now now' w : string) (row : Job) :
  pk_unique t -> get_job t i = Some row -> n < max ->
  exists t1,
    mark_failed_or_dead t i n max err (Some next) now = Some t1 /\
    (Text.lt now' next ->
       forall job, snd (fetch_and_lock_next_job t1 now' w) = Some job -> id job <> i) /\
    (Text.le next now' ->
       exists r, get_job t1 i = Some r /\ eligible now' r).
Proof.
  intros Hpk Hget Hlt.
  destruct (get_job_some _ _ _ Hget) as [Hin Hid].
  destruct (pk_split t row Hpk Hin) as (l1 & l2 & Ht & Hne). rewrite Hid in Hne.
  unfold mark_failed_or_dead.
  destruct (Z.geb_spec n max) as [Hge|_]; [lia|].
  rewrite Ht, (update_where_split i _ l1 row l2 Hne Hid).
  set (r1 := failed_row n err next now row).
  assert (Hid1 : id r1 = i) by exact Hid.
  assert (Hpk1 : pk_unique (l1 ++ r1 :: l2)).
  { apply (pk_replace_row l1 l2 row r1); [now rewrite Hid|now rewrite <- Ht]. }
  assert (Hget1 : get_job (l1 ++ r1 :: l2) i = Some r1).
  { apply get_job_split; [|exact Hid1].
    intros x Hx. apply Hne. apply in_or_app. now left. }
  exists (l1 ++ r1 :: l2). split; [reflexivity|]. split.
  - intros Hearly job Hjob E.
    pose proof (fetch_and_lock_cases (l1 ++ r1 :: l2) now' w Hpk1) as Hc.
    destruct (fetch_and_lock_next_job (l1 ++ r1 :: l2) now' w) as [t2 [j|]];
      simpl in Hjob; [|discriminate].
    inversion Hjob; subst j; clear Hjob.
    destruct Hc as (row' & l1' & l2' & Ht' & _ & [_ Hdue] & _ & Hclaimed & _).
    assert (Hrow' : In row' (l1 ++ r1 :: l2))
      by (rewrite Ht'; apply in_or_app; right; now left).
    assert (Er : row' = r1).
    { apply (pk_same_id _ row' r1 Hpk1 Hrow').
      - apply in_or_app. right. now left.
      - rewrite Hid1, <- E, Hclaimed. reflexivity. }
    rewrite Er in Hdue. exact (lt_not_le _ _ Hearly Hdue).
  - intros Hdue. exists r1. split; [exact Hget1|]. split; [now right|exact Hdue].
Qed.

(** X9: a job that was just enqueued can be claimed at once: at any time
    from the enqueue on it is pending and ready, and a claim returns a job
    rather than nothing. *)
Theorem enqueued_job_is_claimable (py_int : string -> option Z) (d d1 : DB)
    (i cmd : string) (max : option Z) (prio : Z) (now now' w : string) :
  pk_unique (jobs d) ->
  Cli.enqueue py_int d i cmd max prio now = Some d1 ->
  Text.le now now' ->
  (exists r, get_job (jobs d1) i = Some r /\ state r = pending /\
             attempts r = 0 /\ eligible now' r) /\
  snd (fetch_and_lock_next_job (jobs d1) now' w) <> None.
Proof.
  intros Hpk Henq Hle. unfold Cli.enqueue in Henq.
  destruct (match max with Some m => Some m | None => _ end) as [m|];
    [|discriminate].
  inversion Henq; subst d1; clear Henq. cbn [jobs with_jobs].
  set (job := Cli.enqueue_job i cmd m prio now).
  assert (Hr : exists r, get_job (upsert_job (jobs d) job) i = Some r /\
                 state r = pending /\ attempts r = 0 /\ next_run_at r = now).
  { destruct (get_job (jobs d) (id job)) as [old|] eqn:Hget.
    - destruct (upsert_job_conflict (jobs d) job old Hpk Hget)
        as (l1 & l2 & _ & Hne & Hup).
      rewrite Hup. match type of Hup with _ = _ ++ ?r :: _ => exists r end.
      split; [|repeat split; reflexivity].
      apply get_job_split; [|reflexivity].
      intros x Hx. apply Hne. apply in_or_app. now left.
    - rewrite (upsert_job_fresh _ job Hget). exists job.
      split; [|repeat split; reflexivity].
      rewrite <- (app_nil_r (jobs d ++ [job])), <- app_assoc. simpl.
      apply get_job_split; [|reflexivity]. exact (get_job_none _ _ Hget). }
  destruct Hr as (r & Hget & Hst & Hatt & Hnext).
  assert (Hel : eligible now' r) by (split; [now left|now rewrite Hnext]).
  split; [exists r; split; [exact Hget|split; [exact Hst|split; [exact Hatt|exact Hel]]]|].
  pose proof (fetch_and_lock_cases _ now' w (pk_upsert_job (jobs d) job Hpk)) as Hc.
  destruct (fetch_and_lock_next_job (upsert_job (jobs d) job) now' w) as [t' [j|]];
    simpl; [discriminate|].
  destruct Hc as [_ Hnone]. exfalso.
  exact (Hnone r (proj1 (get_job_some _ _ _ Hget)) Hel).
Qed.

(** X10: a job taken out of the DLQ can be claimed at once: after a
    [dlq_retry] that goes through, at any time from then on the job is ready
    and a claim returns a job rather than nothing. *)
Theorem retried_job_is_claimable (t t' : Jobs) (i now now' w : string) :
  pk_unique t -> Cli.dlq_retry t i now = (t', Cli.Done) -> Text.le now now' ->
  (exists r, get_job t' i = Some r /\ eligible now' r) /\
  snd (fetch_and_lock_next_job t' now' w) <> None.
Proof.
  intros Hpk Hretry Hle. unfold Cli.dlq_retry in Hretry.
  destruct (get_job t i) as [row|] eqn:Hget; [|discriminate].
  destruct (negb (in_state dead row)); [discriminate|].
  inversion Hretry; subst t'; clear Hretry.
  assert (Hid : id row = i) by (apply (get_job_some t i row Hget)).
  assert (Hget' : get_job t (id (Cli.retry_payload now row)) = Some row)
    by (simpl; now rewrite Hid).
  destruct (upsert_job_conflict t (Cli.retry_payload now row) row Hpk Hget')
    as (l1 & l2 & _ & Hne & Hup).
  set (r := mkJob (id row) (command row) pending 0 (max_retries row)
              (created_at row) now now None (priority row) None).
  assert (Hr : get_job (upsert_job t (Cli.retry_payload now row)) i = Some r).
  { rewrite Hup. apply get_job_split; [|exact Hid].
    intros x Hx. rewrite <- Hid. apply Hne. apply in_or_app. now left. }
  assert (Hel : eligible now' r) by (split; [now left|exact Hle]).
  split; [exists r; now split|].
  pose proof (fetch_and_lock_cases _ now' w
                (pk_upsert_job t (Cli.retry_payload now row) Hpk)) as Hc.
  destruct (fetch_and_lock_next_job (upsert_job t (Cli.retry_payload now row)) now' w)
    as [t' [j|]]; simpl; [discriminate|].
  destruct Hc as [_ Hnone]. exfalso.
  exact (Hnone r (proj1 (get_job_some _ _ _ Hr)) Hel).
Qed.

End ClaimAfter.

(** ** Listing and counting *)

Section Listing.

Lemma lt_le (a b : string) : Text.lt a b -> Text.le a b.
Proof. unfold Text.lt, Text.le. intros ->. discriminate. Qed.

Lemma insert_by_created_at_hd (x r : Job) (rows : list Job) :
  HdRel by_created_at x rows -> by_created_at x r ->
  HdRel by_created_at x (insert_by_created_at r rows).
Proof.
  intros Hhd Hxr. destruct rows as [|y rows]; simpl; [now constructor|].
  destruct (String.leb (created_at r) (created_at y)); constructor;
    [exact Hxr|now inversion Hhd].
Qed.

Lemma insert_by_created_at_sorted (r : Job) (rows : list Job) :
  Sorted by_created_at rows -> Sorted by_created_at (insert_by_created_at r rows).
Proof.
  induction 1 as [|x rows Hs IH Hhd]; simpl.
  - repeat constructor.
  - destruct (String.leb (created_at r) (created_at x)) eqn:E.
    + constructor; [now constructor|]. constructor. now apply leb_le.
    + constructor; [exact IH|].
      apply insert_by_created_at_hd; [exact Hhd|].
      apply lt_le. now apply leb_gt.
Qed.

Lemma insert_by_created_at_perm (r : Job) (rows : list Job) :
  Permutation (insert_by_created_at r rows) (r :: rows).
Proof.
  induction rows as [|x rows IH]; simpl; [reflexivity|].
  destruct (String.leb (created_at r) (created_at x)); [reflexivity|].
  rewrite IH. apply perm_swap.
Qed.

Lemma order_by_created_at_sorted (rows : list Job) :
  Sorted by_created_at (order_by_created_at rows).
Proof.
  induction rows as [|r rows IH]; simpl; [constructor|].
  now apply insert_by_created_at_sorted.
Qed.

Lemma order_by_created_at_perm (rows : list Job) :
  Permutation (order_by_created_at rows) rows.
Proof.
  induction rows as [|r rows IH]; simpl; [reflexivity|].
  rewrite insert_by_created_at_perm. now constructor.
Qed.

Lemma State_text_eqb (a b : State) :
  String.eqb (State_text a) (State_text b) = State_eqb a b.
Proof. destruct a, b; reflexivity. Qed.

(** X11: [list_jobs] returns its rows in non-decreasing order of
    [created_at]; without a filter, or with the empty text as filter, these
    are all the rows of the table; with the text of a state they are the
    rows in that state; and with any other text the list is empty, which is
    not reported as an error. *)
Theorem list_jobs_spec (t : Jobs) :
  (forall filter, Sorted by_created_at (list_jobs t filter)) /\
  Permutation (list_jobs t None) t /\
  Permutation (list_jobs t (Some "")) t /\
  (forall s, Permutation (list_jobs t (Some (State_text s)))
                         (filter (in_state s) t)) /\
  (forall text, text <> "" -> (forall s, State_text s <> text) ->
     list_jobs t (Some text) = []).
Proof.
  split; [|split; [|split; [|split]]].
  - intros [s|]; unfold list_jobs; [destruct (truthy (Some s))|];
      apply order_by_created_at_sorted.
  - apply order_by_created_at_perm.
  - apply order_by_created_at_perm.
  - intros s. unfold list_jobs.
    assert (Htrue : truthy (Some (State_text s)) = true) by now destruct s.
    rewrite Htrue, order_by_created_at_perm.
    assert (E : filter (fun r => String.eqb (State_text (state r)) (State_text s)) t
                = filter (in_state s) t).
    { apply filter_ext. intros r. apply State_text_eqb. }
    now rewrite E.
  - intros text Hne Hunknown. unfold list_jobs.
    assert (Htrue : truthy (Some text) = true).
    { simpl. apply String.eqb_neq in Hne. now rewrite Hne. }
    rewrite Htrue.
    assert (E : filter (fun r => String.eqb (State_text (state r)) text) t = []).
    { induction t as [|r t IH]; simpl; [reflexivity|].
      destruct (String.eqb (State_text (state r)) text) eqn:Er; [|exact IH].
      apply String.eqb_eq in Er. now destruct (Hunknown (state r)). }
    now rewrite E.
Qed.

Lemma count_state_cons (r : Job) (t : Jobs) (s : State) :
  count_state (r :: t) s = count_state t s + (if in_state s r then 1 else 0).
Proof.
  unfold count_state. simpl. destruct (in_state s r); simpl; lia.
Qed.

Lemma count_state_nonneg (t : Jobs) (s : State) : 0 <= count_state t s.
Proof. unfold count_state. lia. Qed.

Lemma total_filter_positive (l : list (State * Z)) :
  (forall p, In p l -> 0 <= snd p) ->
  total (filter (fun p => 0 <? snd p) l) = total l.
Proof.
  induction l as [|p l IH]; simpl; intros H; [reflexivity|].
  assert (Hp : 0 <= snd p) by (apply H; now left).
  assert (IH' : total (filter (fun p => 0 <? snd p) l) = total l)
    by (apply IH; intros q Hq; apply H; now right).
  destruct (Z.ltb_spec 0 (snd p)); simpl; lia.
Qed.

(** X12: [counts_by_state] lists a state exactly when some row is in it,
    once, with the number of rows in that state; the counts add up to the
    number of rows of the table. *)
Theorem counts_by_state_spec (t : Jobs) :
  (forall s n, In (s, n) (counts_by_state t) <-> n = count_state t s /\ 0 < n) /\
  NoDup (map fst (counts_by_state t)) /\
  total (counts_by_state t) = Z.of_nat (List.length t).
Proof.
  split; [|split].
  - intros s n. unfold counts_by_state. rewrite filter_In, in_map_iff. simpl.
    split.
    + intros [(s' & E & _) Hpos]. inversion E; subst. split; [reflexivity|].
      now apply Z.ltb_lt.
    + intros [-> Hpos]. split; [|now apply Z.ltb_lt].
      exists s. split; [reflexivity|]. destruct s; simpl; tauto.
  - unfold counts_by_state. simpl.
    repeat match goal with
           | |- context [0 <? ?x] => destruct (0 <? x)
           end; simpl;
      repeat (constructor; [simpl; intuition discriminate|]); constructor.
  - unfold counts_by_state. rewrite total_filter_positive.
    + induction t as [|r t IH]; [reflexivity|].
      cbn [map total fold_right snd] in *. rewrite !count_state_cons.
      change (List.length (r :: t)) with (S (List.length t)).
      rewrite Nat2Z.inj_succ, <- IH. unfold in_state.
      destruct (state r); simpl; lia.
    + intros p Hp. apply in_map_iff in Hp. destruct Hp as (s & <- & _).
      apply count_state_nonneg.
Qed.

End Listing.

(** ** The worker registry *)

Section Registry.

Lemma stop_worker_record_others (ws : Workers) (wid now : string) :
  (forall x, In x ws -> w_id x <> wid) -> stop_worker_record ws wid now = ws.
Proof.
  intros Hnew. unfold stop_worker_record.
  induction ws as [|x ws IH]; simpl; [reflexivity|].
  assert (E : String.eqb (w_id x) wid = false).
  { apply String.eqb_neq. apply Hnew. now left. }
  rewrite E. f_equal. apply IH. intros y Hy. apply Hnew. now right.
Qed.

Lemma stop_worker_record_deregisters (ws : Workers) (wid now : string) :
  deregistered (stop_worker_record ws wid now) wid.
Proof.
  unfold deregistered, list_workers, stop_worker_record. intros x Hx.
  apply filter_In in Hx. destruct Hx as [Hin Hactive].
  apply in_map_iff in Hin. destruct Hin as (y & Hy & _).
  destruct (String.eqb (w_id y) wid) eqn:E.
  - subst x. simpl in Hactive. discriminate.
  - subst x. now apply String.eqb_neq.
Qed.

(** X13: a worker id that is not in the table is registered as one more
    active record; stopping it stamps that record and takes it out of the
    active list, which is then what it was before; and the id cannot be
    registered a second time, stopped or not. *)
Theorem worker_registry_lifecycle (ws : Workers) (wid : string) (pid pid' : Z)
    (now now' now'' : string) :
  (forall x, In x ws -> w_id x <> wid) ->
  register_worker ws wid pid now = Some (ws ++ [mkWorker wid pid now None]) /\
  list_workers (ws ++ [mkWorker wid pid now None]) =
    list_workers ws ++ [mkWorker wid pid now None] /\
  stop_worker_record (ws ++ [mkWorker wid pid now None]) wid now' =
    ws ++ [mkWorker wid pid now (Some now')] /\
  list_workers (stop_worker_record (ws ++ [mkWorker wid pid now None]) wid now') =
    list_workers ws /\
  register_worker (ws ++ [mkWorker wid pid now None]) wid pid' now'' = None /\
  register_worker (stop_worker_record (ws ++ [mkWorker wid pid now None]) wid now')
    wid pid' now'' = None.
Proof.
  intros Hnew.
  assert (Hstop : stop_worker_record (ws ++ [mkWorker wid pid now None]) wid now' =
                  ws ++ [mkWorker wid pid now (Some now')]).
  { unfold stop_worker_record. rewrite map_app. simpl.
    rewrite String.eqb_refl. f_equal.
    exact (stop_worker_record_others ws wid now' Hnew). }
  split; [now apply register_worker_new|]. split.
  - unfold list_workers. now rewrite filter_app.
  - split; [exact Hstop|]. split.
    + rewrite Hstop. unfold list_workers. rewrite filter_app. simpl.
      now rewrite app_nil_r.
    + split.
      * unfold register_worker. rewrite existsb_app. simpl.
        rewrite String.eqb_refl. now rewrite orb_true_r.
      * rewrite Hstop. unfold register_worker. rewrite existsb_app. simpl.
        rewrite String.eqb_refl. now rewrite orb_true_r.
Qed.

End Registry.

(** ** How the worker loop ends *)

Section LoopEnds.
Import Worker.

Variable run_command : nat -> string -> Z * string.
Variable clock : nat -> string.
Variable later : nat -> Q -> option string.
Variable py_float : string -> option Q.

(** X14: whenever [worker_loop], entered under a worker id that is not yet
    registered, leaves its loop (by the shutdown flag or by an exception),
    the worker has no active record afterwards. *)
Theorem worker_loop_deregisters (worker : string) (pid : Z) (n : nat)
    (st st' : Loop) (o : Outcome) :
  (forall x, In x (workers (db st)) -> w_id x <> worker) ->
  worker_loop run_command clock later py_float worker pid n st = (o, st') ->
  o <> Continue ->
  deregistered (workers (db st')) worker.
Proof.
  intros Hnew Hloop Ho. unfold worker_loop in Hloop.
  rewrite (register_worker_new _ _ _ _ Hnew) in Hloop.
  destruct (iterate run_command clock later py_float n worker _) as [o1 st1].
  destruct o1; inversion Hloop; subst; try congruence; simpl;
    apply stop_worker_record_deregisters.
Qed.

(** X15: after [worker_stop], a worker that enters [worker_loop] claims and
    executes nothing: it registers, rewrites the processing rows as
    [recover_processing] does, finds the flag on its first pass, and leaves
    with its record stopped. *)
Theorem stopped_worker_runs_nothing (c : Config) (t : Jobs) (ws : Workers)
    (worker : string) (pid : Z) (n tk : nat) (log : list string) :
  (forall x, In x ws -> w_id x <> worker) ->
  worker_loop run_command clock later py_float worker pid (S n)
    (mkLoop (mkDB t (Cli.worker_stop c) ws) tk log) =
  (Break,
   mkLoop (mkDB (recover_processing t (clock (S tk))) (Cli.worker_stop c)
             (ws ++ [mkWorker worker pid (clock tk) (Some (clock (S (S tk))))]))
          (S (S (S tk))) log).
Proof.
  intros Hnew.
  assert (Hflag : config_get (Cli.worker_stop c) "shutdown" "false" = "true").
  { unfold Cli.worker_stop, config_get. rewrite find_key_config_set.
    now rewrite String.eqb_refl. }
  unfold worker_loop. cbn [db tick runs workers config jobs].
  rewrite (register_worker_new _ _ _ _ Hnew).
  set (st0 := mkLoop _ _ _).
  assert (Hpass : iteration run_command clock later py_float worker st0 = (Break, st0)).
  { unfold iteration, st0. cbn [db config]. now rewrite Hflag. }
  assert (Hiter : iterate run_command clock later py_float (S n) worker st0
                  = (Break, st0)).
  { cbn [iterate]. now rewrite Hpass. }
  cbv zeta. rewrite Hiter. unfold st0. cbn [db tick runs workers with_workers jobs config].
  unfold stop_worker_record. rewrite map_app. simpl map.
  rewrite String.eqb_refl. cbn [w_id w_pid w_started_at].
  change (map _ ws) with (stop_worker_record ws worker (clock (S (S tk)))).
  now rewrite (stop_worker_record_others ws worker _ Hnew).
Qed.

(** X16: when the retry time of a failed execution cannot be computed (the
    configured [backoff_base] is no float, or the power or the date
    overflows), the pass ends in that exception after the command has run:
    nothing is recorded, and the job stays in state processing under the
    worker that is about to exit. *)
Theorem unschedulable_retry_strands_job (worker : string) (st : Loop)
    (t1 : Jobs) (job : Job) :
  pk_unique (jobs (db st)) ->
  config_get (config (db st)) "shutdown" "false" <> "true" ->
  fetch_and_lock_next_job (jobs (db st)) (clock (tick st)) worker = (t1, Some job) ->
  fst (run_command (tick st) (command job)) <> 0 ->
  retry_time later py_float (config (db st)) (S (tick st)) (attempts job + 1) = None ->
  exists st',
    iteration run_command clock later py_float worker st = (Raised, st') /\
    jobs (db st') = t1 /\ runs st' = runs st ++ [id job] /\
    get_job t1 (id job) = Some job /\
    state job = processing /\ worker_id job = Some worker.
Proof.
  intros Hpk Hrun Hfetch Hrc Hretry.
  pose proof (fetch_and_lock_cases _ (clock (tick st)) worker Hpk) as Hc.
  rewrite Hfetch in Hc.
  destruct Hc as (row & l1 & l2 & Ht & Hne & _ & _ & Hjob & Ht').
  assert (Hget : get_job t1 (id job) = Some job).
  { rewrite Ht'. apply get_job_split; [|reflexivity].
    intros x Hx. rewrite Hjob. apply Hne. apply in_or_app. now left. }
  assert (Hst : state job = processing /\ worker_id job = Some worker)
    by (rewrite Hjob; now split).
  unfold iteration. rewrite (proj2 (String.eqb_neq _ _) Hrun), Hfetch.
  destruct (run_command (tick st) (command job)) as [rc err].
  simpl in Hrc. rewrite (proj2 (Z.eqb_neq _ _) Hrc).
  unfold retry_time in Hretry.
  destruct (py_float _) as [base|];
    [|eexists; split; [reflexivity|]; now repeat split].
  destruct (backoff_delay (Some base) (attempts job + 1)) as [delay|];
    [|eexists; split; [reflexivity|]; now repeat split].
  rewrite Hretry. eexists. split; [reflexivity|]. now repeat split.
Qed.

End LoopEnds.

(** ** A worker alone leaves no job in state processing *)

Section NothingLeftBehind.
Import Worker.

Variable run_command : nat -> string -> Z * string.
Variable clock : nat -> string.
Variable later : nat -> Q -> option string.
Variable py_float : string -> option Q.

Lemma none_processing_after_recover (t : Jobs) (now : string) (r : Job) :
  In r (recover_processing t now) -> state r <> processing.
Proof.
  unfold recover_processing. intros Hin. apply in_update_where in Hin.
  destruct Hin as [[_ Hp]|(x & _ & _ & ->)]; [|discriminate].
  intros E. apply in_state_true in E. congruence.
Qed.

Lemma in_replaced_row (l1 l2 : Jobs) (r r' x : Job) :
  In x (l1 ++ r' :: l2) -> x = r' \/ In x (l1 ++ r :: l2).
Proof.
  intros H. apply in_app_or in H. destruct H as [H|[H|H]].
  - right. apply in_or_app. now left.
  - left. now symmetry.
  - right. apply in_or_app. right. now right.
Qed.

(** A pass that does not raise finalizes the job it claimed. *)
Lemma iteration_leaves_none_processing (worker : string) (st st' : Loop)
    (o : Outcome) :
  pk_unique (jobs (db st)) ->
  (forall r, In r (jobs (db st)) -> state r <> processing) ->
  iteration run_command clock later py_float worker st = (o, st') ->
  o <> Raised ->
  pk_unique (jobs (db st')) /\
  (forall r, In r (jobs (db st')) -> state r <> processing).
Proof.
  intros Hpk Hnone Hit Ho. unfold iteration in Hit.
  destruct (String.eqb _ "true").
  { inversion Hit; subst. now split. }
  pose proof (fetch_and_lock_cases (jobs (db st)) (clock (tick st)) worker Hpk) as Hc.
  destruct (fetch_and_lock_next_job (jobs (db st)) (clock (tick st)) worker)
    as [t1 [job|]].
  2:{ inversion Hit; subst. now split. }
  destruct Hc as (row & l1 & l2 & Ht & Hne & _ & _ & Hjob & Ht').
  assert (Hid : id job = id row) by (rewrite Hjob; reflexivity).
  assert (Hne' : forall x, In x (l1 ++ l2) -> id x <> id job)
    by (intros x Hx; rewrite Hid; now apply Hne).
  assert (Hdone : forall r', id r' = id job -> state r' <> processing ->
            pk_unique (l1 ++ r' :: l2) /\
            (forall r, In r (l1 ++ r' :: l2) -> state r <> processing)).
  { intros r' Hid' Hst'. split.
    - apply (pk_replace_row l1 l2 row r'); [congruence|now rewrite <- Ht].
    - intros r Hr. destruct (in_replaced_row l1 l2 row r' r Hr) as [->|Hr'];
        [exact Hst'|]. apply Hnone. now rewrite Ht. }
  destruct (run_command (tick st) (command job)) as [rc err].
  destruct (rc =? 0).
  - inversion Hit; subst o st'; clear Hit. cbn [db jobs with_jobs].
    unfold mark_completed.
    rewrite Ht', (update_where_split (id job) _ l1 job l2 Hne' eq_refl).
    apply Hdone; [reflexivity|discriminate].
  - destruct (py_float _) as [base|]; [|inversion Hit; congruence].
    destruct (backoff_delay _ _) as [delay|]; [|inversion Hit; congruence].
    destruct (later _ _) as [next|]; [|inversion Hit; congruence].
    unfold mark_failed_or_dead in Hit.
    destruct (attempts job + 1 >=? max_retries job);
      inversion Hit; subst o st'; clear Hit; cbn [db jobs with_jobs];
      rewrite Ht', (update_where_split (id job) _ l1 job l2 Hne' eq_refl);
      apply Hdone; try reflexivity; discriminate.
Qed.

Lemma iterate_leaves_none_processing (worker : string) (n : nat) :
  forall (st st' : Loop) (o : Outcome),
  pk_unique (jobs (db st)) ->
  (forall r, In r (jobs (db st)) -> state r <> processing) ->
  iterate run_command clock later py_float n worker st = (o, st') ->
  o <> Raised ->
  forall r, In r (jobs (db st')) -> state r <> processing.
Proof.
  induction n as [|n IH]; intros st st' o Hpk Hnone Hit Ho; simpl in Hit.
  - inversion Hit; subst. exact Hnone.
  - destruct (iteration run_command clock later py_float worker st)
      as [o1 st1] eqn:E1.
    destruct o1.
    + destruct (iteration_leaves_none_processing worker st st1 Continue Hpk Hnone E1)
        as [Hpk1 Hnone1]; [discriminate|].
      exact (IH st1 st' o Hpk1 Hnone1 Hit Ho).
    + inversion Hit; subst.
      exact (proj2 (iteration_leaves_none_processing worker st st' Break Hpk Hnone E1
                      ltac:(discriminate))).
    + inversion Hit; subst. congruence.
Qed.

(** X17: a worker that runs alone and does not end in an exception leaves
    no job in state processing: whether [worker_loop] is still polling or
    has left on the shutdown flag, every job it claimed has been finalized
    and every row it found in processing has been recovered. *)
Theorem worker_loop_leaves_none_processing (worker : string) (pid : Z)
    (n : nat) (st st' : Loop) (o : Outcome) :
  pk_unique (jobs (db st)) ->
  worker_loop run_command clock later py_float worker pid n st = (o, st') ->
  o <> Raised ->
  forall r, In r (jobs (db st')) -> state r <> processing.
Proof.
  intros Hpk Hloop Ho. unfold worker_loop in Hloop.
  destruct (register_worker _ _ _ _) as [ws|]; [|inversion Hloop; congruence].
  cbv zeta in Hloop.
  destruct (iterate run_command clock later py_float n worker _) as [o1 st1] eqn:E1.
  assert (H1 : o1 <> Raised -> forall r, In r (jobs (db st1)) -> state r <> processing).
  { intros Ho1.
    refine (iterate_leaves_none_processing worker n _ st1 o1 _ _ E1 Ho1).
    - cbn [db jobs]. apply pk_update_where; [reflexivity|exact Hpk].
    - cbn [db jobs]. intros r. apply none_processing_after_recover. }
  destruct o1; inversion Hloop; subst; try congruence.
  - apply H1. discriminate.
  - cbn [db jobs with_workers]. apply H1. discriminate.
Qed.

End NothingLeftBehind.

(** ** Invariants of every run of the engine *)

Section EngineAlways.
Import Engine.

Lemma step_keeps_pk (s s' : Sys) (e : Event) :
  pk_unique (table s) -> step s e = Some s' -> pk_unique (table s').
Proof.
  intros Hpk Hstep.
  destruct e as [i cmd max prio now|p i|p now|w now|w now|w now|w err next now|w];
    simpl in Hstep.
  - inversion Hstep; subst s'. now apply pk_upsert_job.
  - destruct (holding (retrying s) p); [discriminate|].
    destruct (get_job (table s) i) as [row|]; [|discriminate].
    destruct (negb (in_state dead row)); [discriminate|].
    inversion Hstep; subst s'. exact Hpk.
  - destruct (holding (retrying s) p); [|discriminate].
    inversion Hstep; subst s'. now apply pk_upsert_job.
  - destruct (holding (held s) w); [discriminate|].
    inversion Hstep; subst s'. apply pk_update_where; [reflexivity|exact Hpk].
  - destruct (holding (held s) w); [discriminate|].
    pose proof (pk_fetch_and_lock (table s) now w Hpk) as H.
    destruct (fetch_and_lock_next_job (table s) now w) as [t' [job|]];
      inversion Hstep; subst s'; exact H.
  - destruct (holding (held s) w); [|discriminate].
    inversion Hstep; subst s'. apply pk_update_where; [reflexivity|exact Hpk].
  - destruct (holding (held s) w); [|discriminate].
    unfold mark_failed_or_dead in Hstep.
    destruct (_ >=? _); inversion Hstep; subst s';
      (apply pk_update_where; [reflexivity|exact Hpk]).
  - destruct (holding (held s) w); [|discriminate].
    inversion Hstep; subst s'. exact Hpk.
Qed.

(** X18: no sequence of engine operations (enqueues, DLQ retries, worker
    start-ups, claims, finalizations, in any interleaving) ever gives two
    rows the same job id. *)
Theorem engine_keeps_primary_key (es : list Event) :
  forall s s', pk_unique (table s) -> run s es = Some s' -> pk_unique (table s').
Proof.
  induction es as [|e es IH]; intros s s' Hpk Hrun; simpl in Hrun.
  - inversion Hrun; now subst.
  - destruct (step s e) as [s1|] eqn:E; [|discriminate].
    exact (IH s1 s' (step_keeps_pk s s1 e Hpk E) Hrun).
Qed.

Lemma step_keeps_worker_id (s s' : Sys) (e : Event) :
  (forall r, In r (table s) -> worker_id_matches_state r) ->
  step s e = Some s' ->
  forall r, In r (table s') -> worker_id_matches_state r.
Proof.
  intros Hall Hstep.
  assert (Hnew : forall r, state r <> processing -> worker_id r = None ->
                   worker_id_matches_state r).
  { intros r Hst Hw. split; [intros E; contradiction|intros _; exact Hw]. }
  destruct e as [i cmd max prio now|p i|p now|w now|w now|w now|w err next now|w];
    simpl in Hstep.
  - inversion Hstep; subst s'; simpl. intros r Hin. apply in_upsert_job in Hin.
    destruct Hin as [[Hin _]|[->|(old & _ & _ & ->)]];
      [now apply Hall| |]; apply Hnew; (discriminate || reflexivity).
  - destruct (holding (retrying s) p); [discriminate|].
    destruct (get_job (table s) i) as [row|]; [|discriminate].
    destruct (negb (in_state dead row)); [discriminate|].
    inversion Hstep; subst s'. exact Hall.
  - destruct (holding (retrying s) p); [|discriminate].
    inversion Hstep; subst s'; simpl. intros r Hin. apply in_upsert_job in Hin.
    destruct Hin as [[Hin _]|[->|(old & _ & _ & ->)]];
      [now apply Hall| |]; apply Hnew; (discriminate || reflexivity).
  - destruct (holding (held s) w); [discriminate|].
    inversion Hstep; subst s'; simpl. intros r Hin.
    apply in_update_where in Hin. destruct Hin as [[Hin _]|(x & _ & _ & ->)];
      [now apply Hall|]. apply Hnew; (discriminate || reflexivity).
  - destruct (holding (held s) w); [discriminate|].
    assert (Hf : forall r, In r (fst (fetch_and_lock_next_job (table s) now w)) ->
                   worker_id_matches_state r).
    { unfold fetch_and_lock_next_job.
      destruct (order_by_limit1 _) as [row|]; simpl; [|exact Hall].
      intros r Hin. apply in_update_where in Hin.
      destruct Hin as [[Hin _]|(x & _ & _ & ->)]; [now apply Hall|].
      split; [intros _; now exists w|intros E; now contradiction E]. }
    destruct (fetch_and_lock_next_job (table s) now w) as [t' [job|]];
      inversion Hstep; subst s'; exact Hf.
  - destruct (holding (held s) w); [|discriminate].
    inversion Hstep; subst s'; simpl. intros r Hin.
    apply in_update_where in Hin. destruct Hin as [[Hin _]|(x & _ & _ & ->)];
      [now apply Hall|]. apply Hnew; (discriminate || reflexivity).
  - destruct (holding (held s) w); [|discriminate].
    unfold mark_failed_or_dead in Hstep.
    destruct (_ >=? _); inversion Hstep; subst s'; simpl; intros r Hin;
      apply in_update_where in Hin;
      (destruct Hin as [[Hin _]|(x & _ & _ & ->)];
       [now apply Hall|]; apply Hnew; (discriminate || reflexivity)).
  - destruct (holding (held s) w); [|discriminate].
    inversion Hstep; subst s'. exact Hall.
Qed.

(** X19: however the engine's operations interleave, [worker_id] is set on
    exactly the rows in state processing: every operation that takes a row
    out of processing nulls it, and only the claim sets it. *)
Theorem engine_keeps_worker_id (es : list Event) :
  forall s s',
  (forall r, In r (table s) -> worker_id_matches_state r) ->
  run s es = Some s' ->
  forall r, In r (table s') -> worker_id_matches_state r.
Proof.
  induction es as [|e es IH]; intros s s' Hall Hrun; simpl in Hrun.
  - inversion Hrun; now subst.
  - destruct (step s e) as [s1|] eqn:E; [|discriminate].
    exact (IH s1 s' (step_keeps_worker_id s s1 e Hall E) Hrun).
Qed.

End EngineAlways.

(** ** Single claim *)

Section SingleClaim.
Import Engine.

Lemma in_release_other (h : list (string * Job)) (w w' : string) (j : Job) :
  In (w', j) (release h w) -> In (w', j) h /\ w' <> w.
Proof.
  unfold release. intros H. apply filter_In in H. destruct H as [Hin Hw].
  split; [exact Hin|]. simpl in Hw. apply negb_true_iff in Hw.
  now apply String.eqb_neq.
Qed.

Lemma locked_rows_survive_finalize (s : Sys) (w : string) (job : Job)
    (f : Job -> Job) (rt : list (string * Job)) (ex : list string) :
  pk_unique (table s) -> held_rows_locked s ->
  holding (held s) w = Some job ->
  held_rows_locked
    (mkSys (update_where (has_id (id job)) f (table s)) (release (held s) w) rt ex).
Proof.
  intros Hpk Hlocked Hh w' j Hin. simpl in Hin.
  apply in_release_other in Hin. destruct Hin as [Hin Hw].
  destruct (Hlocked w' j Hin) as (r & Hr & Hid & Hst & Hwid).
  destruct (Hlocked w job (holding_in _ _ _ Hh)) as (rj & Hrj & Hidj & _ & Hwj).
  exists r. simpl. split; [|now repeat split].
  apply update_where_keeps; [exact Hr|]. apply has_id_false. intros E.
  assert (Er : r = rj) by (apply (pk_same_id _ r rj Hpk Hr Hrj); congruence).
  subst r. congruence.
Qed.

Lemma locked_rows_survive_upsert (s : Sys) (e : Event) (job : Job)
    (rt : list (string * Job)) (ex : list string) :
  held_rows_locked s -> replaces_held s e = false -> upserted s e = Some job ->
  held_rows_locked (mkSys (upsert_job (table s) job) (held s) rt ex).
Proof.
  intros Hlocked Hq Hup w j Hin. simpl in Hin.
  destruct (Hlocked w j Hin) as (r & Hr & Hid & Hst & Hwid).
  exists r. simpl. split; [|now repeat split].
  apply upsert_job_keeps; [exact Hr|]. intros E.
  unfold replaces_held in Hq. rewrite Hup in Hq.
  assert (Hc : existsb (fun h => has_id (id job) (snd h)) (held s) = true).
  { apply existsb_exists. exists (w, j). split; [exact Hin|].
    simpl. apply has_id_true. congruence. }
  congruence.
Qed.

Lemma orderly_step (s s' : Sys) (e : Event) :
  pk_unique (table s) -> held_rows_locked s -> orderly s e ->
  step s e = Some s' -> held_rows_locked s'.
Proof.
  intros Hpk Hlocked Hq Hstep.
  destruct e as [i cmd max prio now|p i|p now|w now|w now|w now|w err next now|w];
    simpl in Hstep.
  - inversion Hstep; subst s'; clear Hstep.
    now apply (locked_rows_survive_upsert s (Enqueue i cmd max prio now)).
  - destruct (holding (retrying s) p); [discriminate|].
    destruct (get_job (table s) i) as [row|]; [|discriminate].
    destruct (negb (in_state dead row)); [discriminate|].
    inversion Hstep; subst s'. exact Hlocked.
  - destruct (holding (retrying s) p) as [row|] eqn:Hp; [|discriminate].
    inversion Hstep; subst s'; clear Hstep.
    apply (locked_rows_survive_upsert s (DlqWrite p now)); [exact Hlocked|exact Hq|].
    simpl. now rewrite Hp.
  - destruct (holding (held s) w); [discriminate|].
    inversion Hstep; subst s'; clear Hstep. simpl in Hq.
    intros w' j Hin. simpl in Hin. rewrite Hq in Hin. contradiction.
  - destruct (holding (held s) w); [discriminate|].
    pose proof (fetch_and_lock_cases (table s) now w Hpk) as Hc.
    destruct (fetch_and_lock_next_job (table s) now w) as [t' [job|]];
      inversion Hstep; subst s'; clear Hstep.
    + destruct Hc as (row & l1 & l2 & Ht & _ & [Hst _] & _ & Hjob & Ht').
      intros w' j [E|Hin].
      * inversion E; subst w' j. exists job. simpl. split.
        -- rewrite Ht'. apply in_or_app. right. now left.
        -- rewrite Hjob. now repeat split.
      * destruct (Hlocked w' j Hin) as (r & Hr & Hid & Hstr & Hwid).
        exists r. simpl. split; [|now repeat split].
        rewrite Ht in Hr. rewrite Ht'. apply in_app_or in Hr. apply in_or_app.
        destruct Hr as [Hr|[Hr|Hr]]; [now left| |right; now right].
        subst r. destruct Hst; congruence.
    + destruct Hc as [-> _]. exact Hlocked.
  - destruct (holding (held s) w) as [job|] eqn:Hh; [|discriminate].
    inversion Hstep; subst s'; clear Hstep.
    now apply locked_rows_survive_finalize.
  - destruct (holding (held s) w) as [job|] eqn:Hh; [|discriminate].
    unfold mark_failed_or_dead in Hstep.
    destruct (_ >=? _); inversion Hstep; subst s'; clear Hstep;
      now apply locked_rows_survive_finalize.
  - destruct (holding (held s) w) as [job|]; [|discriminate].
    inversion Hstep; subst s'; clear Hstep.
    intros w' j Hin. simpl in Hin. apply in_release in Hin.
    exact (Hlocked w' j Hin).
Qed.

Lemma orderly_reachable (s : Sys) :
  reachable_from orderly s -> pk_unique (table s) /\ held_rows_locked s.
Proof.
  induction 1 as [|s e s' _ [Hpk Hlocked] Hq Hstep].
  - split; [constructor|]. intros w j [].
  - split; [exact (step_keeps_pk s s' e Hpk Hstep)|].
    exact (orderly_step s s' e Hpk Hlocked Hq Hstep).
Qed.

(** X20: claims are exclusive in every run of the engine in which no worker
    enters [worker_loop] (and so runs [recover_processing]) while a job is
    being executed, and no enqueue and no [dlq_retry] write replaces the row
    of a job that is being executed: every job a worker holds has its row in
    state processing under that worker's id, and two workers never hold the
    same job. *)
Theorem claims_stay_exclusive (s : Sys) :
  reachable_from orderly s ->
  held_rows_locked s /\
  (forall w1 j1 w2 j2,
     In (w1, j1) (held s) -> In (w2, j2) (held s) -> id j1 = id j2 -> w1 = w2).
Proof.
  intros Hreach. destruct (orderly_reachable s Hreach) as [Hpk Hlocked].
  split; [exact Hlocked|].
  intros w1 j1 w2 j2 H1 H2 E.
  destruct (Hlocked w1 j1 H1) as (r1 & Hr1 & Hid1 & _ & Hw1).
  destruct (Hlocked w2 j2 H2) as (r2 & Hr2 & Hid2 & _ & Hw2).
  assert (Er : r1 = r2) by (apply (pk_same_id _ r1 r2 Hpk Hr1 Hr2); congruence).
  subst r2. congruence.
Qed.

End SingleClaim.

(** ** More on the backoff delay *)

Section BackoffRange.
Import Worker.
Local Open Scope Q_scope.

Lemma two_pow_overflows (n : Z) : (1024 <= n)%Z -> float_pow 2 n = None.
Proof.
  intros Hn. unfold float_pow.
  destruct (negb (Qle_bool (inject_Z (Z.abs n)) DBL_MAX)); [reflexivity|].
  destruct (Qeq_bool 2 0 && (n <? 0)%Z); [reflexivity|].
  destruct (Qle_bool (Qabs (2 ^ n)) DBL_MAX) eqn:E; [|reflexivity].
  exfalso. apply Qle_bool_iff in E.
  assert (E2 : 2 ^ n == inject_Z (2 ^ n)).
  { rewrite Zpower_Qpower by lia. reflexivity. }
  assert (Hpos : (0 < 2 ^ 971)%Z) by (apply Z.pow_pos_nonneg; lia).
  assert (Hmono : (2 ^ 1024 <= 2 ^ n)%Z) by (apply Z.pow_le_mono_r; lia).
  rewrite E2, Qabs_pos in E.
  - unfold DBL_MAX in E. rewrite <- Zle_Qle in E.
    remember (2 ^ 1024)%Z as big. remember (2 ^ 971)%Z as small.
    remember (2 ^ n)%Z as p. lia.
  - change 0 with (inject_Z 0). rewrite <- Zle_Qle. apply Z.pow_nonneg. lia.
Qed.

(** X21: from 1024 attempts on the fallback [2.0 ** attempts] itself
    overflows, so [backoff_delay] raises instead of returning a delay
    whenever the base cannot be cast or its own power raises, and always for
    the default base 2. *)
Theorem backoff_delay_raises_from_1024 (attempts : Z) :
  (1024 <= attempts)%Z ->
  backoff_delay None attempts = None /\
  backoff_delay (Some 2) attempts = None /\
  (forall x, float_pow x attempts = None ->
     backoff_delay (Some x) attempts = None).
Proof.
  intros Hn. pose proof (two_pow_overflows attempts Hn) as H2.
  unfold backoff_delay. split; [exact H2|]. split.
  - now rewrite H2.
  - intros x Hx. now rewrite Hx.
Qed.

(** X22: for a base of at least 1 the delay does not shrink from one
    attempt to the next, as long as the later power is within the float
    range: both calls return, the second at least what the first does. *)
Theorem backoff_delay_grows (x : Q) (a : Z) :
  (0 <= a)%Z -> 1 <= x ->
  inject_Z (a + 1) <= DBL_MAX -> Qabs (x ^ (a + 1)) <= DBL_MAX ->
  backoff_delay (Some x) a = Some (x ^ a) /\
  backoff_delay (Some x) (a + 1) = Some (x ^ (a + 1)) /\
  x ^ a <= x ^ (a + 1).
Proof.
  intros Ha Hx Hfit Hr.
  assert (Hx0 : 0 <= x) by (apply Qle_trans with 1; [discriminate|exact Hx]).
  assert (Hnz : ~ x == 0).
  { intros E. rewrite E in Hx. now apply Hx. }
  assert (Hpa : 0 <= x ^ a) by now apply Qpower_0_le.
  assert (Hstep : x ^ a <= x ^ (a + 1)).
  { rewrite (Qpower_plus x a 1 Hnz), Qpower_1_r.
    rewrite <- (Qmult_1_r (x ^ a)) at 1.
    apply Qmult_le_compat_nonneg; split; try assumption.
    - apply Qle_refl.
    - discriminate. }
  assert (Hra : Qabs (x ^ a) <= DBL_MAX).
  { rewrite Qabs_pos by exact Hpa.
    apply Qle_trans with (x ^ (a + 1)); [exact Hstep|].
    rewrite <- (Qabs_pos (x ^ (a + 1))); [exact Hr|].
    now apply Qpower_0_le. }
  assert (Hfa : inject_Z a <= DBL_MAX).
  { apply Qle_trans with (inject_Z (a + 1)); [|exact Hfit].
    rewrite <- Zle_Qle. lia. }
  unfold backoff_delay.
  rewrite (float_pow_in_range x a Ha Hfa Hra).
  rewrite (float_pow_in_range x (a + 1) ltac:(lia) Hfit Hr).
  now repeat split.
Qed.

End BackoffRange.

(** ** The configuration commands *)

Section ConfigCommands.
Import ConfigFile.

(** X23: [config --set k --value v] stores the value and a later
    [config --get k] (or [config get k]) prints it and writes nothing;
    [--get] takes precedence over [--set] when both are given; a key that is
    not stored prints as the empty text without an error; and a [--get] of
    the empty key, like a [--set] without a value, ends with exit code 2 and
    writes nothing. *)
Theorem config_cmd_spec (c : Config) (k v k2 v2 : string) :
  k <> "" ->
  Cli.config_cmd c None (Some k) (Some v) =
    (config_set c k v, Some ("set " ++ k ++ "=" ++ v)%string, Cli.Done) /\
  Cli.config_cmd (config_set c k v) (Some k) None None =
    (config_set c k v, Some v, Cli.Done) /\
  Cli.config_get_cmd (fst (Cli.config_set_cmd c k v)) k = v /\
  Cli.config_cmd c (Some k) (Some k2) (Some v2) =
    (c, Some (config_get c k ""), Cli.Done) /\
  (get_config c k = None ->
     Cli.config_cmd c (Some k) None None = (c, Some "", Cli.Done)) /\
  Cli.config_cmd c (Some "") None None = (c, None, Cli.Exit 2) /\
  Cli.config_cmd c None (Some k) None = (c, None, Cli.Exit 2).
Proof.
  intros Hk.
  assert (Ht : truthy (Some k) = true).
  { simpl. apply String.eqb_neq in Hk. now rewrite Hk. }
  assert (Hget : config_get (config_set c k v) k "" = v).
  { unfold config_get. now rewrite find_key_config_set, String.eqb_refl. }
  unfold Cli.config_cmd, Cli.config_get_cmd, Cli.config_set_cmd.
  rewrite Ht. cbn [fst]. rewrite Hget.
  repeat split.
  intros Hnone. unfold config_get. unfold get_config in Hnone.
  now destruct (find (fun kv => String.eqb (fst kv) k) c).
Qed.

End ConfigCommands.

(** ** The further properties at concrete inputs *)

Section MoreInstances.
Import Worker Engine ConfigFile.

Lemma config_set_then_get_witness :
  config_get (config_set [("shutdown", "false")] "max_retries" "5") "max_retries" "3"
    = "5" /\
  get_config (set_config [("shutdown", "false")] "max_retries" "5") "max_retries"
    = Some "5" /\
  config_get (config_set [("shutdown", "false")] "max_retries" "5") "shutdown" "3"
    = config_get [("shutdown", "false")] "shutdown" "3" /\
  get_config (set_config [("shutdown", "false")] "max_retries" "5") "shutdown"
    = get_config [("shutdown", "false")] "shutdown".
Proof.
  apply (config_set_then_get [("shutdown", "false")] "max_retries" "5" "shutdown" "3").
  discriminate.
Defined.

Lemma upsert_job_lookup_witness :
  get_job (upsert_job Sample.queue (Cli.enqueue_job "n" "echo n" 3 0 Sample.t3)) "a"
  = get_job Sample.queue "a".
Proof.
  apply (upsert_job_lookup Sample.queue (Cli.enqueue_job "n" "echo n" 3 0 Sample.t3) "a").
  discriminate.
Defined.

Lemma mark_completed_spec_witness :
  exists l1 l2, Sample.queue = l1 ++ Sample.job_e :: l2 /\
    mark_completed Sample.queue "e" Sample.t2 =
    l1 ++ mkJob "e" (command Sample.job_e) completed (attempts Sample.job_e)
            (max_retries Sample.job_e) (created_at Sample.job_e) Sample.t2
            (next_run_at Sample.job_e) (last_error Sample.job_e)
            (priority Sample.job_e) None :: l2.
Proof.
  exact (mark_completed_spec Sample.queue "e" Sample.t2 Sample.job_e
           sample_queue_pk eq_refl).
Defined.

Lemma finalize_unknown_id_witness :
  mark_completed Sample.queue "nope" Sample.t2 = Sample.queue /\
  mark_failed_or_dead Sample.queue "nope" 1 3 "boom" (Some Sample.t3) Sample.t2
  = Some Sample.queue.
Proof.
  exact (finalize_unknown_id Sample.queue "nope" 1 3 "boom" Sample.t3 Sample.t2 eq_refl).
Defined.

Lemma claim_takes_job_out_witness :
  pk_unique Sample.queue_after_claim /\
  get_job Sample.queue_after_claim "b" = Some Sample.claimed_b /\
  (forall now', ready now' Sample.claimed_b = false) /\
  S (List.length (filter (ready Sample.t2) Sample.queue_after_claim))
  = List.length (filter (ready Sample.t2) Sample.queue) /\
  (forall now' w' job',
     snd (fetch_and_lock_next_job Sample.queue_after_claim now' w') = Some job' ->
     id job' <> "b").
Proof.
  exact (claim_takes_job_out Sample.queue Sample.queue_after_claim Sample.t2 "w-2"
           Sample.claimed_b sample_queue_pk eq_refl).
Defined.

Lemma failed_job_waits_witness :
  exists t1,
    mark_failed_or_dead Sample.queue "e" 1 3 "boom" (Some Sample.t3) Sample.t2
    = Some t1.
Proof.
  destruct (failed_job_waits Sample.queue "e" 1 3 "boom" Sample.t3 Sample.t2
              Sample.t2 "w-2" Sample.job_e sample_queue_pk eq_refl eq_refl)
    as (t1 & H & _).
  exists t1. exact H.
Defined.

Lemma sample_t2_le_t3 : Text.le Sample.t2 Sample.t3.
Proof. vm_compute. discriminate. Qed.

Lemma enqueued_job_is_claimable_witness :
  exists r,
    get_job (upsert_job Sample.queue (Cli.enqueue_job "n" "echo n" 3 0 Sample.t2)) "n"
    = Some r /\
    state r = pending /\ attempts r = 0 /\ eligible Sample.t3 r.
Proof.
  exact (proj1 (enqueued_job_is_claimable Sample.py_int (mkDB Sample.queue [] []) _
                  "n" "echo n" (Some 3) 0 Sample.t2 Sample.t3 "w-2"
                  sample_queue_pk eq_refl sample_t2_le_t3)).
Defined.

Lemma retried_job_is_claimable_witness :
  exists r,
    get_job (fst (Cli.dlq_retry Sample.queue "d" Sample.t2)) "d" = Some r /\
    eligible Sample.t3 r.
Proof.
  exact (proj1 (retried_job_is_claimable Sample.queue _ "d" Sample.t2 Sample.t3 "w-2"
                  sample_queue_pk eq_refl sample_t2_le_t3)).
Defined.

Lemma worker_registry_lifecycle_witness :
  register_worker [] "w-1" 100 Sample.t0 = Some ([] ++ [mkWorker "w-1" 100 Sample.t0 None]) /\
  list_workers ([] ++ [mkWorker "w-1" 100 Sample.t0 None]) =
    list_workers [] ++ [mkWorker "w-1" 100 Sample.t0 None] /\
  stop_worker_record ([] ++ [mkWorker "w-1" 100 Sample.t0 None]) "w-1" Sample.t1 =
    [] ++ [mkWorker "w-1" 100 Sample.t0 (Some Sample.t1)] /\
  list_workers (stop_worker_record ([] ++ [mkWorker "w-1" 100 Sample.t0 None])
                  "w-1" Sample.t1) = list_workers [] /\
  register_worker ([] ++ [mkWorker "w-1" 100 Sample.t0 None]) "w-1" 101 Sample.t2 = None /\
  register_worker (stop_worker_record ([] ++ [mkWorker "w-1" 100 Sample.t0 None])
                     "w-1" Sample.t1) "w-1" 101 Sample.t2 = None.
Proof.
  exact (worker_registry_lifecycle [] "w-1" 100 101 Sample.t0 Sample.t1 Sample.t2
           (fun x (H : In x []) => False_ind _ H)).
Defined.

Lemma worker_loop_deregisters_witness :
  deregistered
    (workers (db (snd (worker_loop Sample.always_fails Sample.clock Sample.later
                         Sample.py_float "w-9" 100 3 Sample.at_start_stopping))))
    "w-9".
Proof.
  apply (worker_loop_deregisters Sample.always_fails Sample.clock Sample.later
           Sample.py_float "w-9" 100 3 Sample.at_start_stopping _ Break).
  - intros x [].
  - reflexivity.
  - discriminate.
Defined.

Lemma stopped_worker_runs_nothing_witness :
  worker_loop Sample.always_fails Sample.clock Sample.later Sample.py_float
    "w-9" 100 1 (mkLoop (mkDB Sample.queue (Cli.worker_stop []) []) 0 []) =
  (Break,
   mkLoop (mkDB (recover_processing Sample.queue (Sample.clock 1)) (Cli.worker_stop [])
             ([] ++ [mkWorker "w-9" 100 (Sample.clock 0) (Some (Sample.clock 2))]))
          3 []).
Proof.
  exact (stopped_worker_runs_nothing Sample.always_fails Sample.clock Sample.later
           Sample.py_float [] Sample.queue [] "w-9" 100 0 0 []
           (fun x (H : In x []) => False_ind _ H)).
Defined.

Lemma unschedulable_retry_strands_job_witness :
  exists st',
    iteration Sample.always_fails Sample.clock Sample.later Sample.no_float
      "w-9" Sample.at_start = (Raised, st') /\
    Sample.state_of (jobs (db st')) "a" = Some processing.
Proof.
  destruct (unschedulable_retry_strands_job Sample.always_fails Sample.clock
              Sample.later Sample.no_float "w-9" Sample.at_start
              [claimed "w-9" (Sample.clock 2) Sample.job_a; Sample.job_b;
               Sample.job_c; Sample.job_d; Sample.job_e]
              (claimed "w-9" (Sample.clock 2) Sample.job_a)
              sample_queue_pk ltac:(discriminate) eq_refl ltac:(discriminate) eq_refl)
    as (st' & Hit & Hjobs & _).
  exists st'. split; [exact Hit|].
  unfold Sample.state_of. now rewrite Hjobs.
Defined.

Lemma worker_loop_leaves_none_processing_witness :
  Forall (fun r => state r <> processing)
    (jobs (db (snd (worker_loop Sample.always_fails Sample.clock Sample.later
                      Sample.py_float "w-9" 100 4 Sample.at_start)))).
Proof.
  apply Forall_forall.
  apply (worker_loop_leaves_none_processing Sample.always_fails Sample.clock
           Sample.later Sample.py_float "w-9" 100 4 Sample.at_start _ Continue).
  - exact sample_queue_pk.
  - reflexivity.
  - discriminate.
Defined.

Lemma engine_keeps_primary_key_witness : pk_unique (table Sample.after_dead_letter).
Proof.
  exact (engine_keeps_primary_key Sample.dead_letter_run init Sample.after_dead_letter
           (NoDup_nil _) eq_refl).
Defined.

Lemma engine_keeps_worker_id_witness : worker_id_matches_state Sample.dead_d.
Proof.
  apply (engine_keeps_worker_id Sample.dead_letter_run init Sample.after_dead_letter).
  - intros r [].
  - reflexivity.
  - now left.
Defined.

Lemma while_holding_reachable : reachable_from orderly Sample.while_holding.
Proof.
  eapply reach_step with (e := Claim "w-1" Sample.t1).
  - eapply reach_step with (e := WorkerStart "w-1" Sample.t0).
    + eapply reach_step with (e := Enqueue "d" "false" 1 0 Sample.t0).
      * apply reach_init.
      * reflexivity.
      * reflexivity.
    + reflexivity.
    + reflexivity.
  - reflexivity.
  - reflexivity.
Qed.

Lemma claims_stay_exclusive_witness :
  held_rows_locked Sample.while_holding /\
  (forall w1 j1 w2 j2,
     In (w1, j1) (held Sample.while_holding) ->
     In (w2, j2) (held Sample.while_holding) -> id j1 = id j2 -> w1 = w2).
Proof.
  exact (claims_stay_exclusive Sample.while_holding while_holding_reachable).
Defined.

Lemma backoff_delay_raises_from_1024_witness :
  backoff_delay None 1024 = None /\
  backoff_delay (Some 2%Q) 1024 = None /\
  (forall x, float_pow x 1024 = None -> backoff_delay (Some x) 1024 = None).
Proof.
  apply (backoff_delay_raises_from_1024 1024). lia.
Defined.

Lemma backoff_delay_grows_witness :
  backoff_delay (Some 2%Q) 3 = Some (2 ^ 3)%Q /\
  backoff_delay (Some 2%Q) (3 + 1) = Some (2 ^ (3 + 1))%Q /\
  (2 ^ 3 <= 2 ^ (3 + 1))%Q.
Proof.
  apply (backoff_delay_grows 2%Q 3).
  - lia.
  - apply Qle_bool_iff. reflexivity.
  - apply Qle_bool_iff. vm_compute. reflexivity.
  - apply Qle_bool_iff. vm_compute. reflexivity.
Defined.

Lemma config_cmd_spec_witness :
  Cli.config_cmd [] None (Some "k") (Some "v") =
    (config_set [] "k" "v", Some ("set " ++ "k" ++ "=" ++ "v")%string, Cli.Done) /\
  Cli.config_cmd (config_set [] "k" "v") (Some "k") None None =
    (config_set [] "k" "v", Some "v", Cli.Done) /\
  Cli.config_get_cmd (fst (Cli.config_set_cmd [] "k" "v")) "k" = "v" /\
  Cli.config_cmd [] (Some "k") (Some "k2") (Some "v2") =
    ([], Some (config_get [] "k" ""), Cli.Done) /\
  (get_config [] "k" = None ->
     Cli.config_cmd [] (Some "k") None None = ([], Some "", Cli.Done)) /\
  Cli.config_cmd [] (Some "") None None = ([], None, Cli.Exit 2) /\
  Cli.config_cmd [] None (Some "k") None = ([], None, Cli.Exit 2).
Proof.
  apply (config_cmd_spec [] "k" "v" "k2" "v2"). discriminate.
Defined.

End MoreInstances.

(** ** The shutdown flag across commands *)

Section ShutdownFlag.
Import ConfigFile.

(** X24: a stop request outlives a restart and is cleared only by
    [worker_start]: after [worker_stop] the flag reads true, [init_db]
    leaves it true, [worker_start] run with [reset_shutdown] (its default)
    sets it back to false before it spawns the workers, and run without it
    leaves it true, so that the workers it spawns stop at once. *)
Theorem stop_request_persists (c : Config) (t : Jobs) (ws : Workers) :
  config_get (Cli.worker_stop c) "shutdown" "false" = "true" /\
  config_get (config (init_db (mkDB t (Cli.worker_stop c) ws))) "shutdown" "false"
    = "true" /\
  config_get (Cli.worker_start_flag (Cli.worker_stop c) true) "shutdown" "false"
    = "false" /\
  config_get (Cli.worker_start_flag (Cli.worker_stop c) false) "shutdown" "false"
    = "true".
Proof.
  assert (Hstop : config_get (Cli.worker_stop c) "shutdown" "false" = "true").
  { unfold Cli.worker_stop, config_get. rewrite find_key_config_set.
    now rewrite String.eqb_refl. }
  assert (Hget : get_config (Cli.worker_stop c) "shutdown" = Some "true").
  { unfold Cli.worker_stop, get_config. rewrite find_key_config_set.
    now rewrite String.eqb_refl. }
  split; [exact Hstop|]. split; [|split; [|exact Hstop]].
  - pose proof (init_db_lookup (mkDB t (Cli.worker_stop c) ws) "shutdown") as H.
    cbn [config] in H. rewrite Hget in H.
    unfold get_config in H. unfold config_get.
    destruct (find _ (config (init_db _))) as [kv|]; [|discriminate].
    now inversion H.
  - unfold Cli.worker_start_flag, config_get. rewrite find_key_config_set.
    now rewrite String.eqb_refl.
Qed.

End ShutdownFlag.

(** ** Executions of a job, whatever the number of workers *)

Section Executions.
Import Engine.

Variable i : string.
Variable k : Z.

Lemma holding_release_other (h : list (string * Job)) (w w0 : string) :
  w0 <> w -> holding (release h w) w0 = holding h w0.
Proof.
  intros Hne. unfold holding, release. induction h as [|[w1 j1] h IH]; simpl;
    [reflexivity|].
  destruct (String.eqb_spec w1 w) as [->|Hw1]; simpl.
  - rewrite (proj2 (String.eqb_neq w w0)) by congruence. exact IH.
  - destruct (String.eqb w1 w0); [reflexivity|exact IH].
Qed.

Lemma holding_cons_other (h : list (string * Job)) (w w0 : string) (j r : Job) :
  holding h w = None -> holding h w0 = Some r ->
  holding ((w, j) :: h) w0 = Some r.
Proof.
  intros Hnone Hsome. unfold holding. simpl.
  destruct (String.eqb_spec w w0) as [->|_]; [congruence|exact Hsome].
Qed.

Lemma get_job_in (t : Jobs) (r : Job) :
  pk_unique t -> In r t -> get_job t (id r) = Some r.
Proof.
  intros Hpk Hin. destruct (pk_split t r Hpk Hin) as (l1 & l2 & -> & Hne).
  apply get_job_split; [|reflexivity].
  intros x Hx. apply Hne. apply in_or_app. now left.
Qed.

(** An id that a table knows is still known after rows were rewritten in
    place or added. *)
Lemma get_job_none_back (t t' : Jobs) :
  (forall r, In r t -> id r = i -> exists r', In r' t' /\ id r' = i) ->
  get_job t' i = None -> get_job t i = None.
Proof.
  intros Hkeep Hnone. destruct (get_job t i) as [r|] eqn:Hget; [|reflexivity].
  destruct (get_job_some _ _ _ Hget) as [Hin Hid].
  destruct (Hkeep r Hin Hid) as (r' & Hin' & Hid').
  now destruct (get_job_none _ _ Hnone r' Hin').
Qed.

Lemma times_snoc (log : list string) (x : string) :
  count_occ string_dec (log ++ [x]) i =
  (count_occ string_dec log i + if string_dec x i then 1 else 0)%nat.
Proof.
  rewrite count_occ_app. simpl. destruct (string_dec x i); reflexivity.
Qed.

(** The steps that leave the row of job [i], the holders and the log as
    they are. *)
Lemma job_inv_same (s s' : Sys) :
  table s' = table s -> held s' = held s -> executed s' = executed s ->
  job_inv i k s -> job_inv i k s'.
Proof.
  intros Et Eh Ex [H1 H2 H3 H4 H5].
  constructor; unfold executions in *; rewrite ?Et, ?Eh, ?Ex; assumption.
Qed.

Lemma job_inv_init : job_inv i k init.
Proof.
  constructor; simpl; try (intros; contradiction). reflexivity.
Qed.

Lemma update_where_in (p : Job -> bool) (f : Job -> Job) (t : Jobs) (r : Job) :
  In r t -> In (if p r then f r else r) (update_where p f t).
Proof. intros Hin. unfold update_where. now apply (in_map (fun r => if p r then f r else r)). Qed.

(** An enqueue or a [dlq_retry] write. *)
Lemma job_inv_upsert (s : Sys) (e : Event) (job : Job)
    (rt : list (string * Job)) :
  job_inv i k s ->
  (id job = i -> max_retries job = k /\ get_job (table s) i = None) ->
  upserted s e = Some job ->
  job_inv i k (mkSys (upsert_job (table s) job) (held s) rt (executed s)).
Proof.
  intros [Hnone Hmax Hcnt Hholder Hheld] Hfol Hup.
  destruct (upserted_fresh s e job Hup) as [Hst Hat].
  destruct (string_dec (id job) i) as [E|Hne].
  - destruct (Hfol E) as [Hk Hget].
    assert (Hfresh : forall r, In r (table s) -> id r <> i)
      by (apply get_job_none; exact Hget).
    assert (Hrow : forall r, In r (upsert_job (table s) job) -> id r = i -> r = job).
    { rewrite (upsert_job_fresh (table s) job) by (rewrite E; exact Hget).
      intros r Hin Hid. apply in_app_or in Hin.
      destruct Hin as [Hin|[<-|[]]]; [now destruct (Hfresh r Hin)|reflexivity]. }
    constructor; unfold executions in *; simpl.
    + intros _. now apply Hnone.
    + intros r Hin Hid. now rewrite (Hrow r Hin Hid).
    + intros r Hin Hid. rewrite (Hrow r Hin Hid). unfold counted.
      rewrite Hst, Hat, (Hnone Hget). simpl. lia.
    + intros r Hin Hid Hproc. rewrite (Hrow r Hin Hid) in Hproc. congruence.
    + intros w j Hin Hid. exfalso.
      apply (Hfresh j (proj1 (Hheld w j Hin Hid)) Hid).
  - assert (Hback : forall r, In r (upsert_job (table s) job) -> id r = i ->
                      In r (table s)).
    { intros r Hin Hid. apply in_upsert_job in Hin.
      destruct Hin as [[Hin _]|[->|(old & _ & Hold & ->)]];
        [exact Hin|contradiction|simpl in Hid; congruence]. }
    constructor; unfold executions in *; simpl.
    + intros Hn. apply Hnone.
      apply (get_job_none_back (table s) (upsert_job (table s) job)); [|exact Hn].
      intros r Hin Hid. exists r. split; [|exact Hid].
      apply upsert_job_keeps; [exact Hin|congruence].
    + intros r Hin Hid. now apply Hmax; [apply Hback|].
    + intros r Hin Hid. now apply Hcnt; [apply Hback|].
    + intros r Hin Hid. now apply Hholder; [apply Hback|].
    + intros w j Hin Hid. destruct (Hheld w j Hin Hid) as (Hj & Hp & Hw).
      split; [|now split]. apply upsert_job_keeps; [exact Hj|congruence].
Qed.

(** A worker's start-up recovery, while no worker is executing job [i]. *)
Lemma job_inv_recover (s : Sys) (now : string) :
  (forall w j, In (w, j) (held s) -> id j <> i) -> job_inv i k s ->
  job_inv i k (mkSys (recover_processing (table s) now) (held s) (retrying s)
                     (executed s)).
Proof.
  intros Hfree [Hnone Hmax Hcnt Hholder Hheld].
  assert (Hidle : forall r, In r (table s) -> id r = i ->
                    in_state processing r = false).
  { intros r Hin Hid. destruct (in_state processing r) eqn:Hp; [|reflexivity].
    apply in_state_true in Hp. destruct (Hholder r Hin Hid Hp) as (w & Hw).
    now destruct (Hfree w r (holding_in _ _ _ Hw)). }
  assert (Hback : forall r, In r (recover_processing (table s) now) -> id r = i ->
                    In r (table s)).
  { intros r Hin Hid. unfold recover_processing in Hin. apply in_update_where in Hin.
    destruct Hin as [[Hin _]|(x & Hx & Hp & ->)]; [exact Hin|].
    simpl in Hid. rewrite (Hidle x Hx Hid) in Hp. discriminate. }
  constructor; unfold executions in *; simpl.
  - intros Hn. apply Hnone.
    apply (get_job_none_back (table s) (recover_processing (table s) now)); [|exact Hn].
    intros r Hin Hid. exists r. split; [|exact Hid].
    apply update_where_keeps; [exact Hin|now apply Hidle].
  - intros r Hin Hid. now apply Hmax; [apply Hback|].
  - intros r Hin Hid. now apply Hcnt; [apply Hback|].
  - intros r Hin Hid. now apply Hholder; [apply Hback|].
  - intros w j Hin Hid. now destruct (Hfree w j Hin).
Qed.

(** A claim: of job [i], of another job, or of none. *)
Lemma job_inv_claim (s : Sys) (w now : string) :
  pk_unique (table s) -> job_inv i k s ->
  holding (held s) w = None ->
  job_inv i k
    (match fetch_and_lock_next_job (table s) now w with
     | (t, Some job) =>
         mkSys t ((w, job) :: held s) (retrying s) (executed s ++ [id job])
     | (t, None) => mkSys t (held s) (retrying s) (executed s)
     end).
Proof.
  intros Hpk Hinv Hfree.
  pose proof (fetch_and_lock_cases (table s) now w Hpk) as Hc.
  destruct (fetch_and_lock_next_job (table s) now w) as [t' [job|]].
  2:{ destruct Hc as [-> _]. now apply (job_inv_same s). }
  destruct Hinv as [Hnone Hmax Hcnt Hholder Hheld].
  destruct Hc as (row & l1 & l2 & Ht & Hne & [Hst _] & _ & Hjob & Ht').
  assert (Hrow : In row (table s)) by (rewrite Ht; apply in_or_app; right; now left).
  assert (Hin_job : In job t') by (rewrite Ht'; apply in_or_app; right; now left).
  assert (Hid_job : id job = id row) by (rewrite Hjob; reflexivity).
  assert (Hsplit : forall r, In r t' -> r = job \/ (In r (table s) /\ id r <> id row)).
  { intros r Hr. rewrite Ht' in Hr. apply in_app_or in Hr.
    destruct Hr as [Hr|[Hr|Hr]].
    - right. split; [rewrite Ht; apply in_or_app; now left|].
      apply Hne. apply in_or_app. now left.
    - left. now symmetry.
    - right. split; [rewrite Ht; apply in_or_app; right; now right|].
      apply Hne. apply in_or_app. now right. }
  assert (Hkeep : forall r, In r (table s) -> id r <> id row -> In r t').
  { intros r Hr Hidr. rewrite Ht in Hr. rewrite Ht'. apply in_app_or in Hr.
    apply in_or_app. destruct Hr as [Hr|[Hr|Hr]]; [now left| |right; now right].
    now subst r. }
  destruct (string_dec (id row) i) as [E|Hother].
  - pose proof (Hcnt row Hrow E) as Hc0. unfold counted in Hc0.
    assert (Hc1 : Z.of_nat (executions s i) = attempts row /\ attempts row < Z.max 1 k)
      by (destruct Hst as [Hs|Hs]; rewrite Hs in Hc0; exact Hc0).
    assert (Hsame : forall r, In r t' -> id r = i -> r = job).
    { intros r Hr Hidr. destruct (Hsplit r Hr) as [->|[_ Hd]]; [reflexivity|congruence]. }
    constructor; unfold executions in *; simpl.
    + intros Hn. exfalso. apply (get_job_none _ _ Hn job Hin_job). congruence.
    + intros r Hr Hidr. rewrite (Hsame r Hr Hidr), Hjob. simpl. now apply Hmax.
    + intros r Hr Hidr. rewrite (Hsame r Hr Hidr). unfold counted.
      rewrite times_snoc. destruct (string_dec (id job) i) as [_|Hd]; [|congruence].
      rewrite Hjob. simpl. lia.
    + intros r Hr Hidr _. exists w. rewrite (Hsame r Hr Hidr). unfold holding. simpl.
      now rewrite String.eqb_refl.
    + intros w' j [Ej|Hin] Hidj.
      * inversion Ej; subst w' j. split; [exact Hin_job|]. rewrite Hjob. now split.
      * exfalso. destruct (Hheld w' j Hin Hidj) as (Hj & Hproc & _).
        assert (Er : j = row) by (apply (pk_same_id (table s)); congruence).
        subst j. destruct Hst; congruence.
  - constructor; unfold executions in *; simpl.
    + intros Hn. rewrite times_snoc.
      destruct (string_dec (id job) i) as [Hd|_]; [congruence|].
      rewrite Nat.add_0_r. apply Hnone.
      apply (get_job_none_back (table s) t'); [|exact Hn].
      intros r Hr Hidr. exists r. split; [|exact Hidr]. apply Hkeep; congruence.
    + intros r Hr Hidr. destruct (Hsplit r Hr) as [->|[Hr' _]]; [congruence|].
      now apply Hmax.
    + intros r Hr Hidr. rewrite times_snoc.
      destruct (string_dec (id job) i) as [Hd|_]; [congruence|].
      rewrite Nat.add_0_r.
      destruct (Hsplit r Hr) as [->|[Hr' _]]; [congruence|]. now apply Hcnt.
    + intros r Hr Hidr Hproc. destruct (Hsplit r Hr) as [->|[Hr' _]]; [congruence|].
      destruct (Hholder r Hr' Hidr Hproc) as (w0 & Hw0). exists w0.
      now apply holding_cons_other.
    + intros w' j [Ej|Hin] Hidj; [inversion Ej; subst; congruence|].
      destruct (Hheld w' j Hin Hidj) as (Hj & Hp & Hw).
      split; [|now split]. apply Hkeep; [exact Hj|congruence].
Qed.

(** A finalization: the [UPDATE] of the rows of the held job's id. *)
Lemma job_inv_finalize (s : Sys) (w : string) (job : Job) (f : Job -> Job) :
  pk_unique (table s) -> job_inv i k s ->
  holding (held s) w = Some job ->
  (forall r, id (f r) = id r /\ max_retries (f r) = max_retries r /\
             state (f r) <> processing) ->
  (id job = i -> max_retries job = k -> state job = processing ->
   counted k (executions s i) job -> counted k (executions s i) (f job)) ->
  job_inv i k
    (mkSys (update_where (has_id (id job)) f (table s)) (release (held s) w)
           (retrying s) (executed s)).
Proof.
  intros Hpk [Hnone Hmax Hcnt Hholder Hheld] Hh Hf Hfjob.
  pose proof (holding_in _ _ _ Hh) as Hjob_held.
  constructor; unfold executions in *; simpl.
  - intros Hn. apply Hnone.
    apply (get_job_none_back (table s)
             (update_where (has_id (id job)) f (table s))); [|exact Hn].
    intros r Hr Hidr. exists (if has_id (id job) r then f r else r).
    split; [now apply update_where_in|].
    destruct (has_id (id job) r); [|exact Hidr]. now rewrite (proj1 (Hf r)).
  - intros r' Hin Hid. apply in_update_where in Hin.
    destruct Hin as [[Hin _]|(x & Hx & _ & ->)]; [now apply Hmax|].
    destruct (Hf x) as (Ei & Em & _). rewrite Em. apply Hmax; congruence.
  - intros r' Hin Hid. apply in_update_where in Hin.
    destruct Hin as [[Hin _]|(x & Hx & Hp & ->)]; [now apply Hcnt|].
    apply has_id_true in Hp. destruct (Hf x) as (Ei & _ & _).
    assert (Ej : id job = i) by congruence.
    destruct (Hheld w job Hjob_held Ej) as (Hjob_in & Hproc & _).
    assert (Ex : x = job) by (apply (pk_same_id (table s)); congruence).
    rewrite Ex. apply Hfjob; [exact Ej|now apply Hmax|exact Hproc|now apply Hcnt].
  - intros r' Hin Hid Hproc. apply in_update_where in Hin.
    destruct Hin as [[Hin Hp]|(x & _ & _ & ->)];
      [|now destruct (proj2 (proj2 (Hf x)))].
    apply has_id_false in Hp.
    destruct (Hholder r' Hin Hid Hproc) as (w0 & Hw0). exists w0.
    rewrite holding_release_other; [exact Hw0|].
    intros E. subst w0. congruence.
  - intros w' j Hin Hid. apply in_release_other in Hin. destruct Hin as [Hin Hw].
    destruct (Hheld w' j Hin Hid) as (Hj & Hp & Hwj).
    split; [|now split]. apply update_where_keeps; [exact Hj|].
    apply has_id_false. intros E. apply Hw.
    assert (Ej : id job = i) by congruence.
    destruct (Hheld w job Hjob_held Ej) as (Hjob_in & _ & Hwjob).
    assert (Ex : j = job) by (apply (pk_same_id (table s)); congruence).
    subst j. congruence.
Qed.

(** A worker abandons a job that is not job [i]. *)
Lemma job_inv_abandon (s : Sys) (w : string) (job : Job) :
  job_inv i k s -> holding (held s) w = Some job -> id job <> i ->
  job_inv i k (mkSys (table s) (release (held s) w) (retrying s) (executed s)).
Proof.
  intros [Hnone Hmax Hcnt Hholder Hheld] Hh Hne.
  constructor; unfold executions in *; simpl; try assumption.
  - intros r Hin Hid Hproc. destruct (Hholder r Hin Hid Hproc) as (w0 & Hw0).
    exists w0. rewrite holding_release_other; [exact Hw0|].
    intros E. subst w0. congruence.
  - intros w' j Hin Hid. apply in_release in Hin. now apply (Hheld w').
Qed.

Lemma follows_step (s s' : Sys) (e : Event) :
  pk_unique (table s) -> job_inv i k s ->
  follows i k s e -> step s e = Some s' -> job_inv i k s'.
Proof.
  intros Hpk Hinv Hfol Hstep.
  destruct e as [j cmd max prio now|p j|p now|w now|w now|w now|w err next now|w];
    simpl in Hstep.
  - inversion Hstep; subst s'; clear Hstep.
    now apply (job_inv_upsert s (Enqueue j cmd max prio now)).
  - destruct (holding (retrying s) p); [discriminate|].
    destruct (get_job (table s) j) as [row|]; [|discriminate].
    destruct (negb (in_state dead row)); [discriminate|].
    inversion Hstep; subst s'. now apply (job_inv_same s).
  - destruct (holding (retrying s) p) as [row|] eqn:Hp; [|discriminate].
    inversion Hstep; subst s'; clear Hstep. simpl in Hfol. rewrite Hp in Hfol.
    apply (job_inv_upsert s (DlqWrite p now)); try assumption.
    simpl. now rewrite Hp.
  - destruct (holding (held s) w); [discriminate|].
    inversion Hstep; subst s'; clear Hstep.
    now apply job_inv_recover.
  - destruct (holding (held s) w) eqn:Hfree; [discriminate|].
    pose proof (job_inv_claim s w now Hpk Hinv Hfree) as Hc.
    destruct (fetch_and_lock_next_job (table s) now w) as [t' [job|]];
      inversion Hstep; subst s'; exact Hc.
  - destruct (holding (held s) w) as [job|] eqn:Hh; [|discriminate].
    inversion Hstep; subst s'; clear Hstep.
    apply job_inv_finalize; try assumption.
    + intros r. simpl. repeat split. discriminate.
    + intros _ _ Hproc Hc. unfold counted in *. rewrite Hproc in Hc. exact Hc.
  - destruct (holding (held s) w) as [job|] eqn:Hh; [|discriminate].
    unfold mark_failed_or_dead in Hstep.
    destruct (Z.geb_spec (attempts job + 1) (max_retries job)) as [Hge|Hlt];
      inversion Hstep; subst s'; clear Hstep;
      (apply job_inv_finalize; try assumption;
       [intros r; simpl; repeat split; discriminate|]);
      intros _ Hk Hproc Hc; unfold counted in *; rewrite Hproc in Hc; simpl; lia.
  - destruct (holding (held s) w) as [job|] eqn:Hh; [|discriminate].
    inversion Hstep; subst s'; clear Hstep.
    apply (job_inv_abandon s w job Hinv Hh). exact (Hfol job Hh).
Qed.

Lemma follows_reachable (s : Sys) :
  reachable_from (follows i k) s -> pk_unique (table s) /\ job_inv i k s.
Proof.
  induction 1 as [|s e s' Hreach (Hpk & Hinv) Hfol Hstep].
  - split; [constructor|apply job_inv_init].
  - split; [exact (step_keeps_pk s s' e Hpk Hstep)|].
    exact (follows_step s s' e Hpk Hinv Hfol Hstep).
Qed.

(** With any number of workers, in the runs that write job [i] once with
    budget [k] and start no worker while the job is being executed: the
    command of the job is started at most [max(1, k)] times, and its row
    tells how often. *)
Lemma executions_within_budget (s : Sys) :
  reachable_from (follows i k) s ->
  (executions s i <= Z.to_nat (Z.max 1 k))%nat /\
  (get_job (table s) i = None -> executions s i = 0%nat) /\
  (forall r, In r (table s) -> id r = i -> counted k (executions s i) r).
Proof.
  intros Hreach.
  destruct (follows_reachable s Hreach) as (_ & [Hnone _ Hcnt _ _]).
  split; [|split; [exact Hnone|exact Hcnt]].
  destruct (get_job (table s) i) as [r|] eqn:Hget.
  - destruct (get_job_some _ _ _ Hget) as [Hin Hid].
    pose proof (Hcnt r Hin Hid) as Hc. unfold counted in Hc.
    destruct (state r); lia.
  - rewrite (Hnone eq_refl). lia.
Qed.

End Executions.

(** ** The worker loop on a queue of any jobs *)

Section Drain.
Import Worker.

Variable run_command : nat -> string -> Z * string.
Variable clock : nat -> string.
Variable later : nat -> Q -> option string.
Variable py_float : string -> option Q.
Variable cfg : Config.
Variable worker : string.

Hypothesis running : config_get cfg "shutdown" "false" <> "true".
Hypothesis patient : forall n d t, later n d = Some t -> eventually_past clock t.

Abbreviation iteration := (Worker.iteration run_command clock later py_float).
Abbreviation iterate := (Worker.iterate run_command clock later py_float).
Abbreviation ok := (loop_ok run_command later py_float cfg).
Abbreviation pass := (pass_result run_command clock).

(** A pass either finds no job ready and only reads the clock, or executes
    one waiting job and rewrites its row. *)
Lemma iteration_cases (st : Loop) :
  ok st ->
  (iteration worker st = (Continue, mkLoop (db st) (S (tick st)) (runs st)) /\
   forall r, In r (jobs (db st)) -> ~ eligible (clock (tick st)) r) \/
  exists st' l1 l2 row row',
    iteration worker st = (Continue, st') /\ pass st st' l1 l2 row row'.
Proof.
  intros [Hcfg Hpk Hidle Hwork].
  pose proof (fetch_and_lock_cases (jobs (db st)) (clock (tick st)) worker Hpk) as Hc.
  unfold Worker.iteration. rewrite Hcfg.
  rewrite (proj2 (String.eqb_neq _ _) running).
  destruct (fetch_and_lock_next_job (jobs (db st)) (clock (tick st)) worker)
    as [t1 [job|]].
  2:{ left. split; [reflexivity|exact (proj2 Hc)]. }
  right. destruct Hc as (row & l1 & l2 & Ht & Hne & [Hst Hdue] & _ & Hjob & Ht').
  assert (Hrow : In row (jobs (db st))) by (rewrite Ht; apply in_or_app; right; now left).
  assert (Hne' : forall x, In x (l1 ++ l2) -> id x <> id job)
    by (intros x Hx; rewrite Hjob; now apply Hne).
  subst t1.
  assert (Ei : id job = id row) by (rewrite Hjob; reflexivity).
  assert (Ec : command job = command row) by (rewrite Hjob; reflexivity).
  assert (Ea : attempts job = attempts row) by (rewrite Hjob; reflexivity).
  assert (Em : max_retries job = max_retries row) by (rewrite Hjob; reflexivity).
  rewrite Ec, Ea, Em.
  destruct (run_command (tick st) (command row)) as [rc err] eqn:Hrun.
  destruct (Z.eqb_spec rc 0) as [Hrc|Hrc].
  - unfold mark_completed.
    rewrite (update_where_split (id job) _ l1 job l2)
      by (exact Hne' || reflexivity).
    eexists _, l1, l2, row, (completed_row (clock (S (tick st))) job).
    split; [reflexivity|].
    constructor; cbn [db tick runs jobs config with_jobs]; rewrite ?Ei;
      first [reflexivity|exact Ht|lia|exact Hst|now rewrite Hjob|idtac].
    left. rewrite Hrun, Hjob. now repeat split.
  - destruct (Hwork row Hrow Hst) as [Hsucc|Hretry].
    { exfalso. apply Hrc. pose proof (Hsucc (tick st)) as H. now rewrite Hrun in H. }
    pose proof (Hretry (S (tick st)) (attempts row + 1) ltac:(lia)) as Hnext.
    unfold retry_time in Hnext.
    destruct (py_float (config_get cfg "backoff_base" "2")) as [base|];
      [|contradiction].
    destruct (backoff_delay (Some base) (attempts row + 1)) as [delay|];
      [|contradiction].
    destruct (later (S (tick st)) delay) as [next|] eqn:Hlater; [|contradiction].
    unfold mark_failed_or_dead.
    destruct (Z.geb_spec (attempts row + 1) (max_retries row)) as [Hge|Hlt].
    + rewrite (update_where_split (id job) _ l1 job l2)
        by (exact Hne' || reflexivity).
      eexists _, l1, l2, row, (dead_row (attempts row + 1) _ _ job).
      split; [reflexivity|].
      constructor; cbn [db tick runs jobs config with_jobs]; rewrite ?Ei;
        first [reflexivity|exact Ht|lia|exact Hst|now rewrite Hjob|idtac].
      right. rewrite Hrun. split; [exact Hrc|]. split; [reflexivity|].
      left. split; [lia|reflexivity].
    + rewrite (update_where_split (id job) _ l1 job l2)
        by (exact Hne' || reflexivity).
      eexists _, l1, l2, row, (failed_row (attempts row + 1) _ next _ job).
      split; [reflexivity|].
      constructor; cbn [db tick runs jobs config with_jobs]; rewrite ?Ei;
        first [reflexivity|exact Ht|lia|exact Hst|now rewrite Hjob|idtac].
      right. rewrite Hrun. split; [exact Hrc|]. split; [reflexivity|].
      right. split; [lia|]. split; [reflexivity|].
      exact (patient _ _ _ Hlater).
Qed.

Lemma remaining_waits (r : Job) : waits r -> (1 <= remaining r)%nat.
Proof. unfold remaining. intros [-> | ->]; lia. Qed.

Lemma backlog_app (t1 t2 : Jobs) : backlog (t1 ++ t2) = (backlog t1 + backlog t2)%nat.
Proof. unfold backlog. now rewrite map_app, list_sum_app. Qed.

Lemma backlog_zero (t : Jobs) (r : Job) : backlog t = 0%nat -> In r t -> ~ waits r.
Proof.
  intros Hz Hin Hw. destruct (in_split r t Hin) as (l1 & l2 & ->).
  rewrite backlog_app in Hz. unfold backlog at 2 in Hz. simpl in Hz.
  pose proof (remaining_waits r Hw). lia.
Qed.

Lemma ok_idle_pass (st : Loop) :
  ok st -> ok (mkLoop (db st) (S (tick st)) (runs st)).
Proof. intros [H1 H2 H3 H4]. now constructor. Qed.

(** A pass that executes a job leaves a state of the same kind, with
    fewer executions ahead. *)
Lemma pass_keeps_ok (st st' : Loop) (l1 l2 : Jobs) (row row' : Job) :
  ok st -> pass st st' l1 l2 row row' ->
  ok st' /\ (backlog (jobs (db st')) < backlog (jobs (db st)))%nat.
Proof.
  intros [Hcfg Hpk Hidle Hwork] [Hb Ha Hc Ht Hr Hw Hi Hcmd Hm Hout].
  assert (Hrow : In row (jobs (db st))) by (rewrite Hb; apply in_or_app; right; now left).
  assert (Hold : forall r, In r (jobs (db st')) -> r = row' \/ In r (jobs (db st))).
  { intros r Hin. rewrite Ha in Hin. rewrite Hb. apply in_app_or in Hin.
    destruct Hin as [Hin|[Hin|Hin]].
    - right. apply in_or_app. now left.
    - left. now symmetry.
    - right. apply in_or_app. right. now right. }
  split; [constructor|].
  - congruence.
  - unfold pk_unique in *. rewrite Ha, map_app. simpl. rewrite Hi.
    rewrite Hb, map_app in Hpk. exact Hpk.
  - intros r Hin. destruct (Hold r Hin) as [->|Hin']; [|now apply Hidle].
    destruct Hout as [(_ & E & _)|(_ & _ & [[_ E]|(_ & E & _)])]; congruence.
  - intros r Hin Hwr. destruct (Hold r Hin) as [->|Hin']; [|now apply Hwork].
    destruct Hout as [(_ & E & _)|(_ & Hatt & [[_ E]|(Hlt & _ & _)])];
      try (destruct Hwr; congruence).
    destruct (Hwork row Hrow Hw) as [Hs|Hretry].
    + left. now rewrite Hcmd.
    + right. intros n a Hrange. apply Hretry. lia.
  - rewrite Ha, Hb, !backlog_app. unfold backlog at 2 4. simpl.
    pose proof (remaining_waits row Hw) as Hpos.
    assert (remaining row' < remaining row)%nat; [|lia].
    destruct Hout as [(_ & E & _)|(_ & Hatt & [[_ E]|(Hlt & E & _)])];
      unfold remaining at 1; rewrite E; try lia.
    unfold remaining. destruct Hw as [-> | ->]; lia.
Qed.

(** What a pass that executes one job means for another job, and for the
    job itself. *)
Lemma pass_other (st st' : Loop) (l1 l2 : Jobs) (row row' ri : Job) :
  pass st st' l1 l2 row row' -> In ri (jobs (db st)) -> id row <> id ri ->
  In ri (jobs (db st')) /\ times (id ri) (runs st') = times (id ri) (runs st).
Proof.
  intros [Hb Ha _ _ Hr _ _ _ _ _] Hin Hne. split.
  - rewrite Hb in Hin. rewrite Ha. apply in_app_or in Hin. apply in_or_app.
    destruct Hin as [Hin|[Hin|Hin]]; [now left| |right; now right].
    subst ri. contradiction.
  - unfold times. rewrite Hr, times_snoc.
    destruct (string_dec (id row) (id ri)); [contradiction|lia].
Qed.

Lemma pass_self (st st' : Loop) (l1 l2 : Jobs) (row row' ri : Job) :
  ok st -> pass st st' l1 l2 row row' -> In ri (jobs (db st)) -> id row = id ri ->
  row = ri /\ In row' (jobs (db st')) /\
  times (id ri) (runs st') = S (times (id ri) (runs st)).
Proof.
  intros [_ Hpk _ _] [Hb Ha _ _ Hr _ _ _ _ _] Hin E. split; [|split].
  - apply (pk_same_id (jobs (db st))); try assumption.
    rewrite Hb. apply in_or_app. right. now left.
  - rewrite Ha. apply in_or_app. right. now left.
  - unfold times. rewrite Hr, times_snoc.
    destruct (string_dec (id row) (id ri)); [lia|contradiction].
Qed.

(** A waiting job whose time the clock will pass gets its turn: after some
    passes that leave its row alone, a pass executes it.  Until the clock
    allows the claim every pass reads the clock, and from then on every pass
    executes some job, of which there are only so many executions left. *)
Lemma iterate_to_execution (ri : Job) (m : nat) (mu : nat) : forall st,
  ok st -> In ri (jobs (db st)) -> waits ri ->
  (forall m', (m <= m')%nat -> Text.le (next_run_at ri) (clock m')) ->
  ((m - tick st) + backlog (jobs (db st)) <= mu)%nat ->
  exists n st1 st2 l1 l2 row',
    iterate n worker st = (Continue, st1) /\ ok st1 /\
    times (id ri) (runs st1) = times (id ri) (runs st) /\
    iteration worker st1 = (Continue, st2) /\
    pass st1 st2 l1 l2 ri row'.
Proof.
  induction mu as [|mu IH]; intros st Hok Hin Hw Hm Hmu.
  - exfalso. apply (backlog_zero (jobs (db st)) ri); [lia|exact Hin|exact Hw].
  - destruct (iteration_cases st Hok)
      as [[E Hnone]|(st' & l1 & l2 & row & row' & E & Hp)].
    + assert (Hlt : (tick st < m)%nat).
      { destruct (le_lt_dec m (tick st)) as [Hle|Hlt]; [|exact Hlt].
        exfalso. apply (Hnone ri Hin). split; [exact Hw|]. now apply Hm. }
      destruct (IH _ (ok_idle_pass st Hok) Hin Hw Hm)
        as (n & st1 & st2 & l1 & l2 & row' & En & Hok1 & Ht & E2 & Hp);
        [simpl; lia|].
      exists (S n), st1, st2, l1, l2, row'. simpl. rewrite E.
      split; [exact En|]. split; [exact Hok1|]. split; [exact Ht|].
      split; [exact E2|exact Hp].
    + destruct (string_dec (id row) (id ri)) as [Eid|Hne].
      * destruct (pass_self st st' l1 l2 row row' ri Hok Hp Hin Eid) as (Er & _ & _).
        subst row. exists 0%nat, st, st', l1, l2, row'. simpl.
        split; [reflexivity|]. split; [exact Hok|]. split; [reflexivity|].
        split; [exact E|exact Hp].
      * destruct (pass_keeps_ok st st' l1 l2 row row' Hok Hp) as [Hok' Hless].
        destruct (pass_other st st' l1 l2 row row' ri Hp Hin Hne) as [Hin' Ht'].
        pose proof (pass_tick _ _ _ _ _ _ _ _ Hp) as Htick.
        destruct (IH st' Hok' Hin' Hw Hm)
          as (n & st1 & st2 & l1' & l2' & row1 & En & Hok1 & Ht & E2 & Hp1); [lia|].
        exists (S n), st1, st2, l1', l2', row1. simpl. rewrite E.
        split; [exact En|]. split; [exact Hok1|]. split; [congruence|].
        split; [exact E2|exact Hp1].
Qed.

Section Invariant.

(** A property of the loop state that idle passes and executing passes
    keep: the loop keeps running and the property keeps holding. *)
Variable Inv : Loop -> Prop.
Hypothesis Inv_idle : forall st, Inv st -> Inv (mkLoop (db st) (S (tick st)) (runs st)).
Hypothesis Inv_pass : forall st st' l1 l2 row row',
  ok st -> Inv st -> pass st st' l1 l2 row row' -> Inv st'.

Lemma iterate_keeps_on (n : nat) : forall st,
  ok st -> Inv st ->
  exists st', iterate n worker st = (Continue, st') /\ ok st' /\ Inv st'.
Proof.
  induction n as [|n IH]; intros st Hok Hinv; simpl.
  - exists st. split; [reflexivity|]. split; [exact Hok|exact Hinv].
  - destruct (iteration_cases st Hok)
      as [[E _]|(st' & l1 & l2 & row & row' & E & Hp)]; rewrite E.
    + apply IH; [now apply ok_idle_pass|now apply Inv_idle].
    + apply IH; [exact (proj1 (pass_keeps_ok st st' l1 l2 row row' Hok Hp))|].
      exact (Inv_pass st st' l1 l2 row row' Hok Hinv Hp).
Qed.

End Invariant.

End Drain.

(** ** From enqueue to the end of the job *)

Section JobLife.
Import Worker.

Variable run_command : nat -> string -> Z * string.
Variable clock : nat -> string.
Variable later : nat -> Q -> option string.
Variable py_float : string -> option Q.
Variable cfg : Config.
Variable worker : string.
Variables i cmd : string.
Variable k : Z.

Hypothesis running : config_get cfg "shutdown" "false" <> "true".
Hypothesis patient : forall n d t, later n d = Some t -> eventually_past clock t.

Abbreviation iteration := (Worker.iteration run_command clock later py_float).
Abbreviation iterate := (Worker.iterate run_command clock later py_float).
Abbreviation ok := (loop_ok run_command later py_float cfg).
Abbreviation pass := (pass_result run_command clock).

Lemma counted_waits (c : nat) (r : Job) :
  waits r -> counted k c r -> Z.of_nat c = attempts r /\ attempts r < Z.max 1 k.
Proof. unfold counted. intros [E|E]; rewrite E; auto. Qed.

(** With a command that always fails: the job takes its turns until its
    budget is used up, and is dead. *)
Lemma iterate_to_dead (j : nat) : forall st ri,
  ok st -> row_of i cmd k st ri -> waits ri ->
  eventually_past clock (next_run_at ri) ->
  counted k (times i (runs st)) ri ->
  (forall n, fst (run_command n cmd) <> 0) ->
  Z.max 1 k - attempts ri <= Z.of_nat j ->
  exists n st', iterate n worker st = (Continue, st') /\ ok st' /\
                tracked i cmd k ended_dead st'.
Proof.
  induction j as [|j IH]; intros st ri Hok (Hin & Hid & Hcmd & Hk) Hw [m Hm]
    Hcnt Hfails Hj;
    destruct (counted_waits _ ri Hw Hcnt) as [Hc Hlt]; [lia|].
  destruct (iterate_to_execution run_command clock later py_float cfg worker
              running patient ri m _ st Hok Hin Hw Hm (Nat.le_refl _))
    as (n & st1 & st2 & l1 & l2 & row' & En & Hok1 & Ht & E2 & Hp).
  destruct (pass_keeps_ok run_command clock later py_float cfg st1 st2 l1 l2 ri row'
              Hok1 Hp) as [Hok2 _].
  assert (Hin1 : In ri (jobs (db st1))).
  { rewrite (pass_before _ _ _ _ _ _ _ _ Hp). apply in_or_app. right. now left. }
  destruct (pass_self run_command clock later py_float cfg st1 st2 l1 l2 ri row' ri
              Hok1 Hp Hin1 eq_refl) as (_ & Hin2 & Ht2).
  rewrite Hid in Ht, Ht2.
  assert (Hrow' : row_of i cmd k st2 row').
  { split; [exact Hin2|]. destruct Hp as [_ _ _ _ _ _ Hi' Hc' Hm' _].
    repeat split; congruence. }
  assert (Erun : iterate (n + 1) worker st = (Continue, st2)).
  { rewrite iterate_add, En. simpl. now rewrite E2. }
  destruct (pass_outcome _ _ _ _ _ _ _ _ Hp)
    as [(Hz & _)|(_ & Eat & [[Hge Es]|(Hlt' & Es & Hpast)])].
  - exfalso. apply (Hfails (tick st1)). now rewrite <- Hcmd.
  - exists (n + 1)%nat, st2. split; [exact Erun|]. split; [exact Hok2|].
    exists row'. split; [exact Hrow'|]. split; [|exact Es].
    unfold counted. rewrite Es, Ht2, Ht. lia.
  - destruct (IH st2 row' Hok2 Hrow') as (n2 & st' & E' & Hok' & Htr).
    + now right.
    + exact Hpast.
    + unfold counted. rewrite Es, Ht2, Ht. lia.
    + exact Hfails.
    + lia.
    + exists (n + 1 + n2)%nat, st'. rewrite iterate_add, Erun.
      split; [exact E'|]. split; [exact Hok'|exact Htr].
Qed.

(** With a command that always succeeds: the job takes its turn once, and
    is completed. *)
Lemma iterate_to_completed (st : Loop) (ri : Job) :
  ok st -> row_of i cmd k st ri -> waits ri ->
  eventually_past clock (next_run_at ri) ->
  counted k (times i (runs st)) ri -> attempts ri = 0 ->
  (forall n, fst (run_command n cmd) = 0) ->
  exists n st', iterate n worker st = (Continue, st') /\ ok st' /\
                tracked i cmd k ended_completed st'.
Proof.
  intros Hok (Hin & Hid & Hcmd & Hk) Hw [m Hm] Hcnt Hat Hsucc.
  destruct (counted_waits _ ri Hw Hcnt) as [Hc Hlt].
  destruct (iterate_to_execution run_command clock later py_float cfg worker
              running patient ri m _ st Hok Hin Hw Hm (Nat.le_refl _))
    as (n & st1 & st2 & l1 & l2 & row' & En & Hok1 & Ht & E2 & Hp).
  destruct (pass_keeps_ok run_command clock later py_float cfg st1 st2 l1 l2 ri row'
              Hok1 Hp) as [Hok2 _].
  assert (Hin1 : In ri (jobs (db st1))).
  { rewrite (pass_before _ _ _ _ _ _ _ _ Hp). apply in_or_app. right. now left. }
  destruct (pass_self run_command clock later py_float cfg st1 st2 l1 l2 ri row' ri
              Hok1 Hp Hin1 eq_refl) as (_ & Hin2 & Ht2).
  rewrite Hid in Ht, Ht2.
  exists (n + 1)%nat, st2. rewrite iterate_add, En. simpl. rewrite E2.
  split; [reflexivity|]. split; [exact Hok2|].
  destruct (pass_outcome _ _ _ _ _ _ _ _ Hp) as [(_ & Es & Eat)|(Hnz & _)].
  - exists row'. split; [|split].
    + split; [exact Hin2|]. destruct Hp as [_ _ _ _ _ _ Hi' Hc' Hm' _].
      repeat split; congruence.
    + unfold counted. rewrite Es, Ht2, Ht. lia.
    + split; congruence.
  - exfalso. apply Hnz. rewrite Hcmd. apply Hsucc.
Qed.

(** Once the job has ended, the passes of the loop, which go on executing
    the other jobs, leave its row and its count as they are. *)
Lemma iterate_after_end (P : Job -> Prop) (n : nat) (st : Loop) :
  (forall r, P r -> ~ waits r) ->
  ok st -> tracked i cmd k P st ->
  exists st', iterate n worker st = (Continue, st') /\ ok st' /\
              tracked i cmd k P st'.
Proof.
  intros HP.
  apply (iterate_keeps_on run_command clock later py_float cfg worker running
           patient (tracked i cmd k P)).
  - intros s H. exact H.
  - intros s s' l1 l2 row row' Hok (ri & (Hin & Hid & Hcmd & Hk) & Hcnt & HPri) Hp.
    destruct (string_dec (id row) (id ri)) as [E|Hne].
    + exfalso.
      destruct (pass_self run_command clock later py_float cfg s s' l1 l2 row row' ri
                  Hok Hp Hin E) as (Er & _). subst row.
      exact (HP ri HPri (pass_waits _ _ _ _ _ _ _ _ Hp)).
    + destruct (pass_other run_command clock s s' l1 l2 row row' ri Hp Hin Hne)
        as [Hin' Ht]. rewrite Hid in Ht.
      exists ri. split; [now repeat split|]. split; [|exact HPri].
      now rewrite Ht.
Qed.

(** The row that [upsert_job] leaves for the job it is given. *)
Lemma upsert_job_row (t : Jobs) (job : Job) :
  pk_unique t ->
  exists row, In row (upsert_job t job) /\ id row = id job /\
              command row = command job /\ state row = state job /\
              attempts row = attempts job /\ max_retries row = max_retries job /\
              next_run_at row = next_run_at job.
Proof.
  intros Hpk. destruct (get_job t (id job)) as [old|] eqn:Hget.
  - destruct (upsert_job_conflict t job old Hpk Hget) as (l1 & l2 & _ & _ & Hup).
    rewrite Hup.
    match goal with |- context [_ ++ ?r :: _] => exists r end.
    split; [apply in_or_app; right; now left|now repeat split].
  - rewrite (upsert_job_fresh t job Hget). exists job.
    split; [apply in_or_app; right; now left|now repeat split].
Qed.

End JobLife.

Section OneWorker.
Import Worker.

Variable run_command : nat -> string -> Z * string.
Variable clock : nat -> string.
Variable later : nat -> Q -> option string.
Variable py_float : string -> option Q.
Variable py_int : string -> option Z.
Variables d d1 : DB.
Variables i cmd worker : string.
Variable pid : Z.
Variable max : option Z.
Variables k prio : Z.
Variable t0 : string.
Variable n0 : nat.

Hypothesis d_pk : pk_unique (jobs d).
Hypothesis budget : enqueued_with py_int d max k.
Hypothesis enqueued : Cli.enqueue py_int d i cmd max prio t0 = Some d1.
Hypothesis running : config_get (config d) "shutdown" "false" <> "true".
Hypothesis fresh : forall w, In w (workers d) -> w_id w <> worker.
Hypothesis due : eventually_past clock t0.
Hypothesis patient : forall n delay t, later n delay = Some t -> eventually_past clock t.

Lemma enqueue_stores :
  d1 = with_jobs d (upsert_job (jobs d) (Cli.enqueue_job i cmd k prio t0)).
Proof.
  unfold Cli.enqueue, enqueued_with in *. destruct max as [m|].
  - subst m. now inversion enqueued.
  - rewrite budget in enqueued. now inversion enqueued.
Qed.

Lemma d1_pk : pk_unique (jobs d1).
Proof. rewrite enqueue_stores. cbn [jobs with_jobs]. now apply pk_upsert_job. Qed.

(** The row of the job in the queue that [enqueue] leaves. *)
Lemma enqueued_row (r : Job) :
  In r (jobs d1) -> id r = i ->
  command r = cmd /\ state r = pending /\ attempts r = 0 /\
  max_retries r = k /\ next_run_at r = t0.
Proof.
  intros Hin Hid.
  destruct (upsert_job_row (jobs d) (Cli.enqueue_job i cmd k prio t0) d_pk)
    as (row & Hrow & Hi & Hc & Hs & Ha & Hm & Hn).
  assert (Hj : jobs d1 = upsert_job (jobs d) (Cli.enqueue_job i cmd k prio t0))
    by (rewrite enqueue_stores; reflexivity).
  rewrite <- Hj in Hrow.
  assert (E : r = row).
  { apply (pk_same_id (jobs d1)); try assumption; [apply d1_pk|].
    rewrite Hi. simpl. exact Hid. }
  subst row. now repeat split.
Qed.

Lemma enqueued_row_exists : exists r, In r (jobs d1) /\ id r = i.
Proof.
  destruct (upsert_job_row (jobs d) (Cli.enqueue_job i cmd k prio t0) d_pk)
    as (row & Hrow & Hi & _).
  exists row. split; [|exact Hi]. rewrite enqueue_stores. exact Hrow.
Qed.

Section Serviceable.

(** The loop can get past every live job of the queue. *)
Hypothesis work :
  forall r, In r (jobs d1) -> live r ->
    serviceable run_command later py_float (config d) r.

(** The state in which the worker enters its loop: it has registered and
    has put back the jobs it found in processing. *)
Lemma worker_loop_start :
  exists st0 ri,
    (forall n,
       worker_loop run_command clock later py_float worker pid n (mkLoop d1 n0 []) =
       match iterate run_command clock later py_float n worker st0 with
       | (Continue, st') => (Continue, st')
       | (o, st') =>
           (o, mkLoop (with_workers (db st')
                         (stop_worker_record (workers (db st')) worker
                            (clock (tick st'))))
                      (S (tick st')) (runs st'))
       end) /\
    loop_ok run_command later py_float (config d) st0 /\
    row_of i cmd k st0 ri /\ state ri = pending /\ attempts ri = 0 /\
    next_run_at ri = t0 /\ runs st0 = [].
Proof.
  assert (Hw : workers d1 = workers d) by (rewrite enqueue_stores; reflexivity).
  assert (Hc : config d1 = config d) by (rewrite enqueue_stores; reflexivity).
  destruct enqueued_row_exists as (ri & Hin & Hid).
  destruct (enqueued_row ri Hin Hid) as (Hcmd & Hst & Hat & Hm & Hn).
  exists (mkLoop (mkDB (recover_processing (jobs d1) (clock (S n0))) (config d)
                       (workers d ++ [mkWorker worker pid (clock n0) None]))
                 (S (S n0)) []), ri.
  split; [|split; [|split]].
  - intros n. unfold worker_loop. cbn [db tick runs].
    now rewrite Hw, Hc, (register_worker_new _ _ _ _ fresh).
  - constructor; cbn [db jobs config].
    + reflexivity.
    + unfold recover_processing. apply pk_update_where; [reflexivity|apply d1_pk].
    + intros r. apply none_processing_after_recover.
    + intros r Hr Hwaits. unfold recover_processing in Hr.
      apply in_update_where in Hr. destruct Hr as [[Hr _]|(x & Hx & Hp & ->)].
      * apply work; [exact Hr|]. unfold live. destruct Hwaits as [E|E]; rewrite E;
          split; discriminate.
      * apply in_state_true in Hp.
        assert (Hlive : live x) by (unfold live; rewrite Hp; split; discriminate).
        exact (work x Hx Hlive).
  - split; [|now repeat split]. cbn [db jobs].
    unfold recover_processing. apply update_where_keeps; [exact Hin|].
    unfold in_state. now rewrite Hst.
  - now repeat split.
Qed.

(** With one worker on a queue of any jobs: a command that always fails is
    executed [max(1, k)] times and the job is dead from some pass on. *)
Lemma failing_job_dies :
  (forall n, fst (run_command n cmd) <> 0) ->
  exists N, forall n, (N <= n)%nat ->
    exists st row,
      worker_loop run_command clock later py_float worker pid n (mkLoop d1 n0 [])
      = (Continue, st) /\
      get_job (jobs (db st)) i = Some row /\
      state row = dead /\ attempts row = Z.max 1 k /\
      times i (runs st) = Z.to_nat (Z.max 1 k).
Proof.
  intros Hfails.
  destruct worker_loop_start
    as (st0 & ri & Hloop & Hok & Hrow & Hst & Hat & Hnext & Hruns).
  destruct (iterate_to_dead run_command clock later py_float (config d) worker
              i cmd k running patient (Z.to_nat (Z.max 1 k)) st0 ri Hok Hrow)
    as (N & st1 & E1 & Hok1 & Htr1); try assumption.
  - now left.
  - now rewrite Hnext.
  - unfold counted, times. rewrite Hst, Hruns, Hat. simpl. lia.
  - lia.
  - exists N. intros n Hn.
    destruct (iterate_after_end run_command clock later py_float (config d) worker
                i cmd k running patient ended_dead (n - N) st1)
      as (st' & E' & Hok' & (row & (Hin & Hid & _) & Hcnt & Hdead)); try assumption.
    { unfold ended_dead, waits. intros r E [H|H]; congruence. }
    exists st', row. rewrite Hloop. replace n with (N + (n - N))%nat by lia.
    rewrite iterate_add, E1, E'. split; [reflexivity|].
    unfold ended_dead in Hdead. unfold counted in Hcnt. rewrite Hdead in Hcnt.
    split; [|split; [exact Hdead|split; [apply Hcnt|lia]]].
    rewrite <- Hid. apply get_job_in; [|exact Hin].
    exact (ok_pk _ _ _ _ _ Hok').
Qed.

(** A command that always succeeds is executed once and the job is
    completed from some pass on. *)
Lemma succeeding_job_completes :
  (forall n, fst (run_command n cmd) = 0) ->
  exists N, forall n, (N <= n)%nat ->
    exists st row,
      worker_loop run_command clock later py_float worker pid n (mkLoop d1 n0 [])
      = (Continue, st) /\
      get_job (jobs (db st)) i = Some row /\
      state row = completed /\ times i (runs st) = 1%nat.
Proof.
  intros Hsucc.
  destruct worker_loop_start
    as (st0 & ri & Hloop & Hok & Hrow & Hst & Hat & Hnext & Hruns).
  destruct (iterate_to_completed run_command clock later py_float (config d) worker
              i cmd k running patient st0 ri Hok Hrow)
    as (N & st1 & E1 & Hok1 & Htr1); try assumption.
  - now left.
  - now rewrite Hnext.
  - unfold counted, times. rewrite Hst, Hruns, Hat. simpl. lia.
  - exists N. intros n Hn.
    destruct (iterate_after_end run_command clock later py_float (config d) worker
                i cmd k running patient ended_completed (n - N) st1)
      as (st' & E' & Hok' & (row & (Hin & Hid & _) & Hcnt & Hdone & Hat'));
      try assumption.
    { unfold ended_completed, waits. intros r [E _] [H|H]; congruence. }
    exists st', row. rewrite Hloop. replace n with (N + (n - N))%nat by lia.
    rewrite iterate_add, E1, E'. split; [reflexivity|].
    unfold counted in Hcnt. rewrite Hdone in Hcnt.
    split; [|split; [exact Hdone|lia]].
    rewrite <- Hid. apply get_job_in; [|exact Hin].
    exact (ok_pk _ _ _ _ _ Hok').
Qed.

End Serviceable.

End OneWorker.

Section JobEnd.
Import Worker.


End JobEnd.

(** ** The job's life at concrete inputs *)

Section JobInstances.
Import Worker Engine.

Lemma sample_retriable (r : Job) :
  0 <= attempts r <= 2 /\ max_retries r <= 3 ->
  retriable Sample.later Sample.py_float [] r.
Proof.
  intros [H0 H3] n a Ha.
  assert (E : a = 1 \/ a = 2 \/ a = 3) by lia.
  destruct E as [-> |[-> | ->]]; vm_compute; discriminate.
Qed.

Lemma sample_serviceable (run_command : nat -> string -> Z * string) (r : Job) :
  In r (Sample.queue ++ [Cli.enqueue_job "z" "false" 2 0 (Sample.clock 0)]) ->
  serviceable run_command Sample.later Sample.py_float [] r.
Proof.
  intros Hin. right. apply sample_retriable. simpl in Hin.
  destruct Hin as [<-|[<-|[<-|[<-|[<-|[<-|[]]]]]]]; vm_compute; intuition discriminate.
Qed.

Lemma after_dead_letter_follows :
  reachable_from (follows "d" 1) Sample.after_dead_letter.
Proof.
  eapply reach_step with (e := Fail "w-1" "exit 1" Sample.t3 Sample.t2).
  - eapply reach_step with (e := Claim "w-1" Sample.t1).
    + eapply reach_step with (e := Enqueue "d" "false" 1 0 Sample.t0).
      * apply reach_init.
      * intros _. split; reflexivity.
      * reflexivity.
    + exact I.
    + reflexivity.
  - exact I.
  - reflexivity.
Qed.

(** A job enqueued behind other jobs, one of them scheduled for a time the
    clock never reaches: two failures and it is dead, one success and it is
    completed, whatever the other jobs do in between. *)
Example busy_queue_then_dead :
  Sample.summary
    (worker_loop Sample.always_fails Sample.clock Sample.later Sample.py_float
       "w-1" 100 60
       (mkLoop (mkDB (Sample.queue ++
                        [Cli.enqueue_job "z" "false" 2 0 (Sample.clock 0)]) [] [])
               1 []))
  = (Continue,
     [(dead, 3, 3); (dead, 3, 3); (pending, 0, 3); (dead, 2, 2); (dead, 3, 3);
      (dead, 2, 2)],
     ["a"; "b"; "b"; "z"; "e"; "a"; "a"; "e"; "e"; "z"]).
Proof. vm_compute. reflexivity. Qed.

Example busy_queue_then_completed :
  Sample.summary
    (worker_loop Sample.always_succeeds Sample.clock Sample.later Sample.py_float
       "w-1" 100 60
       (mkLoop (mkDB (Sample.queue ++
                        [Cli.enqueue_job "z" "false" 2 0 (Sample.clock 0)]) [] [])
               1 []))
  = (Continue,
     [(completed, 0, 3); (completed, 1, 3); (pending, 0, 3); (dead, 2, 2);
      (completed, 0, 3); (completed, 0, 2)],
     ["a"; "b"; "z"; "e"]).
Proof. vm_compute. reflexivity. Qed.


End JobInstances.
